(** * dotagents: the plan / apply / undo engine

    A shallow embedding of the link engine of dotagents
    ([src/core/paths.ts], [mappings.ts], [backup.ts], [apply.ts],
    [undo.ts]) and the properties its specification states about it.

    Conventions of the embedding.
    - An absolute, normalised path string is the list of its segments:
      ["/home/u/.claude"] is [["home"; "u"; ".claude"]] and ["/"] is [[]].
      On such paths [path.resolve] is the identity, [path.join p s]
      appends a segment and [path.dirname] drops the last one.
    - The file system is a tree of nodes; a directory maps names to nodes.
      Paths are resolved the way [lstat] resolves their last component:
      no symbolic link is followed.
    - Asynchronous functions are computations in a state-and-exception
      monad over the [World]: the tree, the clock, the process environment,
      an oracle of injected I/O failures and the trace of calls made.
      A rejected promise is [Throw]; what was mutated before it stays. *)

From Stdlib Require Import Ascii.
From Stdlib Require OrderedTypeEx.
From stdpp Require Import base option list strings gmap sorting.

Set Warnings "-register-all,-clear-no-such-hyp".
Local Open Scope string_scope.
Local Open Scope list_scope.

Abbreviation path := (list string).

(** ** Paths *)

Definition path_join (p : path) (s : string) : path := p ++ [s].

Definition path_dirname (p : path) : path := take (pred (length p)) p.

(** [s.startsWith(parent + path.sep)] on resolved paths.  For the root,
    [parent + path.sep] is ["//"], which no resolved path starts with. *)
Definition startsWithSep (resolved parent : path) : bool :=
  match parent with
  | [] => false
  | _ :: _ => bool_decide (parent `prefix_of` resolved) && bool_decide (parent ≠ resolved)
  end.

(** ** Data model ([types.ts], [backup.ts]) *)

Inductive Scope := global | project.
Inductive Client := claude | factory | codex | cursor | opencode | gemini.
Inductive SourceKind := SFile | SDir.
Inductive EntryKind := KFile | KDir | KSymlink.
Inductive Action := ABackup | ACreate.

#[global] Instance Scope_eq_dec : EqDecision Scope.
Proof. solve_decision. Defined.
#[global] Instance Client_eq_dec : EqDecision Client.
Proof. solve_decision. Defined.
#[global] Instance SourceKind_eq_dec : EqDecision SourceKind.
Proof. solve_decision. Defined.
#[global] Instance EntryKind_eq_dec : EqDecision EntryKind.
Proof. solve_decision. Defined.
#[global] Instance Action_eq_dec : EqDecision Action.
Proof. solve_decision. Defined.

Module BackupEntry.
Record t := mk {
  originalPath : path;
  backupPath : option path;
  kind : EntryKind;
  action : Action;
}.
End BackupEntry.

Module BackupManifest.
Record t := mk {
  createdAt : string;
  scope : Scope;
  operation : string;
  entries : list BackupEntry.t;
}.
End BackupManifest.

Module BackupSession.
Record t := mk {
  dir : path;
  manifestPath : path;
  createdAt : string;
  scope : Scope;
  operation : string;
  entries : list BackupEntry.t;
  _seen : gset path;
}.
End BackupSession.

(** ** The file system *)

(** What a regular file holds: text, or the JSON text of a manifest
    ([JSON.stringify] then [JSON.parse] is the identity on manifests, so
    a manifest file is represented by the manifest it parses to). *)
Inductive FileData :=
| Utf8 (text : string)
| Json (manifest : BackupManifest.t).

Inductive node :=
| File (data : FileData)
| Symlink (text : string)
| Dir (entries : gmap string node).

Definition kind_of (n : node) : EntryKind :=
  match n with
  | File _ => KFile
  | Symlink _ => KSymlink
  | Dir _ => KDir
  end.

Fixpoint tree_lookup (p : path) (n : node) : option node :=
  match p with
  | [] => Some n
  | s :: p' =>
    match n with
    | Dir es => es !! s ≫= tree_lookup p'
    | _ => None
    end
  end.

(** Place [x] at [p]; the parent of [p] has to be a directory. *)
Fixpoint tree_put (p : path) (x : node) (n : node) : option node :=
  match p with
  | [] => Some x
  | s :: p' =>
    match n with
    | Dir es =>
      match p' with
      | [] => Some (Dir (<[s := x]> es))
      | _ :: _ => c ← es !! s; c' ← tree_put p' x c; Some (Dir (<[s := c']> es))
      end
    | _ => None
    end
  end.

(** Remove whatever is at [p], with everything beneath it. *)
Fixpoint tree_del (p : path) (n : node) : node :=
  match p with
  | [] => n
  | s :: p' =>
    match n with
    | Dir es =>
      match p' with
      | [] => Dir (delete s es)
      | _ :: _ =>
        match es !! s with
        | Some c => Dir (<[s := tree_del p' c]> es)
        | None => n
        end
      end
    | _ => n
    end
  end.

(** [mkdir -p]: create the missing directories along [p]. *)
Fixpoint tree_mkdirp (p : path) (n : node) : option node :=
  match n with
  | Dir es =>
    match p with
    | [] => Some n
    | s :: p' =>
      c' ← tree_mkdirp p' (default (Dir ∅) (es !! s)); Some (Dir (<[s := c']> es))
    end
  | _ => None
  end.

(** Recursive copy with [force]: the source laid over the destination. *)
Fixpoint overlay (src dst : node) {struct src} : node :=
  match src, dst with
  | Dir es, Dir ed =>
    Dir (map_imap (λ k x, Some (match ed !! k with
                                | Some y => overlay x y
                                | None => x
                                end)) es ∪ ed)
  | _, _ => src
  end.

(** ** Errors, calls and the world *)

Inductive Errno :=
| ENOENT | EEXIST | ENOTDIR | EISDIR | ENOTEMPTY | EINVAL | EXDEV
| EACCES | EPERM | EBUSY | ENOSPC | EIO
| ELOOP (* a symbolic link met where the call would have to follow it *).

Inductive Error :=
| SysError (code : Errno)
| JsError (message : string).

(** The [type] argument of [fs.symlink]. *)
Inductive LinkType := junction | file_link | dir_link.

Inductive Call :=
| CExists (p : path)
| CLstat (p : path)
| CReadlink (p : path)
| CReaddir (p : path)
| CReadFile (p : path)
| CWriteFile (p : path)
| CSymlink (text : string) (p : path) (type : option LinkType)
| CUnlink (p : path)
| CRename (src dst : path)
| CMkdir (p : path)
| CRm (p : path)
| CCopy (src dst : path).

Record World := mkWorld {
  fs_root : node;
  faults : Call → option Errno;
  clock : nat → string;
  ticks : nat;
  os_homedir : path;
  process_cwd : path;
  trace : list Call;
}.

Definition set_root (n : node) (w : World) : World :=
  mkWorld n (faults w) (clock w) (ticks w) (os_homedir w) (process_cwd w) (trace w).

Definition log (c : Call) (w : World) : World :=
  mkWorld (fs_root w) (faults w) (clock w) (ticks w) (os_homedir w) (process_cwd w)
          (trace w ++ [c]).

Definition tick (w : World) : World :=
  mkWorld (fs_root w) (faults w) (clock w) (S (ticks w)) (os_homedir w) (process_cwd w)
          (trace w).

Inductive Result (A : Type) :=
| Ok (a : A)
| Throw (e : Error).
Arguments Ok {A} a.
Arguments Throw {A} e.

Definition M (A : Type) : Type := World → Result A * World.

Definition ret {A} (a : A) : M A := λ w, (Ok a, w).

Definition throw {A} (e : Error) : M A := λ w, (Throw e, w).

Definition bind {A B} (m : M A) (k : A → M B) : M B := λ w,
  match m w with
  | (Ok a, w') => k a w'
  | (Throw e, w') => (Throw e, w')
  end.

(** [try { m } catch (err) { h err }] *)
Definition catch {A} (m : M A) (h : Error → M A) : M A := λ w,
  match m w with
  | (Ok a, w') => (Ok a, w')
  | (Throw e, w') => h e w'
  end.

Notation "x <- m ;; k" := (bind m (λ x, k))
  (at level 100, m at next level, right associativity).
Notation "m ;; k" := (bind m (λ _, k))
  (at level 100, right associativity).

Definition gets {A} (f : World → A) : M A := λ w, (Ok (f w), w).

Fixpoint foldM {A B} (f : A → B → M A) (a : A) (l : list B) : M A :=
  match l with
  | [] => ret a
  | b :: l' => a' <- f a b;; foldM f a' l'
  end.

(** A call into the platform: logged, then failed if the oracle says so. *)
Definition syscall {A} (c : Call) (body : M A) : M A := λ w,
  match faults w c with
  | Some e => (Throw (SysError e), log c w)
  | None => body (log c w)
  end.

Definition lift_tree (r : Errno + node) : M unit := λ w,
  match r with
  | inl e => (Throw (SysError e), w)
  | inr n => (Ok (), set_root n w)
  end.

(** [new Date().toISOString()] *)
Definition now : M string := λ w, (Ok (clock w (ticks w)), tick w).

(** ** The platform calls ([fs.promises]) *)

Definition fail {A} (e : Errno) : M A := throw (SysError e).

Definition fs_lstat (p : path) : M EntryKind :=
  syscall (CLstat p) (λ w,
    match tree_lookup p (fs_root w) with
    | Some n => ret (kind_of n) w
    | None => fail ENOENT w
    end).

Definition fs_readlink (p : path) : M string :=
  syscall (CReadlink p) (λ w,
    match tree_lookup p (fs_root w) with
    | Some (Symlink text) => ret text w
    | Some _ => fail EINVAL w
    | None => fail ENOENT w
    end).

Definition fs_readdir (p : path) : M (list (string * EntryKind)) :=
  syscall (CReaddir p) (λ w,
    match tree_lookup p (fs_root w) with
    | Some (Dir es) => ret (map_to_list (kind_of <$> es)) w
    | Some (Symlink _) => fail ELOOP w
    | Some (File _) => fail ENOTDIR w
    | None => fail ENOENT w
    end).

Definition fs_readFile (p : path) : M FileData :=
  syscall (CReadFile p) (λ w,
    match tree_lookup p (fs_root w) with
    | Some (File data) => ret data w
    | Some (Dir _) => fail EISDIR w
    | Some (Symlink _) => fail ELOOP w
    | None => fail ENOENT w
    end).

Definition tree_create (p : path) (x : node) (n : node) : Errno + node :=
  match tree_lookup (path_dirname p) n with
  | Some (Dir _) => from_option inr (inl ENOENT) (tree_put p x n)
  | Some (File _) => inl ENOTDIR
  | Some (Symlink _) => inl ELOOP
  | None => inl ENOENT
  end.

Definition fs_writeFile (p : path) (data : FileData) : M unit :=
  syscall (CWriteFile p) (λ w,
    match tree_lookup p (fs_root w) with
    | Some (Dir _) => fail EISDIR w
    | Some (Symlink _) => fail ELOOP w
    | _ => lift_tree (tree_create p (File data) (fs_root w)) w
    end).

Definition fs_symlink (text : string) (p : path) (type : option LinkType) : M unit :=
  syscall (CSymlink text p type) (λ w,
    match tree_lookup p (fs_root w) with
    | Some _ => fail EEXIST w
    | None => lift_tree (tree_create p (Symlink text) (fs_root w)) w
    end).

Definition fs_unlink (p : path) : M unit :=
  syscall (CUnlink p) (λ w,
    match tree_lookup p (fs_root w) with
    | Some (Dir _) => fail EISDIR w
    | Some _ => lift_tree (inr (tree_del p (fs_root w))) w
    | None => fail ENOENT w
    end).

Definition is_empty_dir (n : node) : bool :=
  match n with
  | Dir es => bool_decide (map_to_list es = [])
  | _ => false
  end.

(** [rename(2)] within one device; a cross-device rename is an [EXDEV]
    answer of the oracle. *)
Definition tree_rename (src dst : path) (n : node) : Errno + node :=
  match tree_lookup src n with
  | None => inl ENOENT
  | Some x =>
    if decide (src = dst) then inr n
    else if decide (src `prefix_of` dst) then inl EINVAL
    else
      let move := tree_create dst x (tree_del src n) in
      match tree_lookup dst n, x with
      | None, _ => move
      | Some (Dir es), Dir _ => if is_empty_dir (Dir es) then move else inl ENOTEMPTY
      | Some (Dir _), _ => inl EISDIR
      | Some _, Dir _ => inl ENOTDIR
      | Some _, _ => move
      end
  end.

Definition fs_rename (src dst : path) : M unit :=
  syscall (CRename src dst) (λ w, lift_tree (tree_rename src dst (fs_root w)) w).

Definition tree_copy (src dst : path) (n : node) : Errno + node :=
  match tree_lookup src n with
  | None => inl ENOENT
  | Some x =>
    if decide (src `prefix_of` dst) then inl EINVAL
    else
      match tree_lookup dst n, x with
      | None, _ => tree_create dst x n
      | Some (Dir ed), Dir es => tree_create dst (overlay x (Dir ed)) n
      | Some (Dir _), _ => inl EISDIR
      | Some _, Dir _ => inl ENOTDIR
      | Some _, _ => tree_create dst x n
      end
  end.

(** [fs.promises.cp(src, dst, { recursive: true, force: true })] *)
Definition fs_cp (src dst : path) : M unit :=
  syscall (CCopy src dst) (λ w, lift_tree (tree_copy src dst (fs_root w)) w).

(** [fs.promises.copyFile(src, dst)] *)
Definition fs_copyFile (src dst : path) : M unit :=
  syscall (CCopy src dst) (λ w,
    match tree_lookup src (fs_root w) with
    | Some (File _) => lift_tree (tree_copy src dst (fs_root w)) w
    | Some (Dir _) => fail EISDIR w
    | Some (Symlink _) => fail ELOOP w
    | None => fail ENOENT w
    end).

(** ** The helpers of [utils/fs.ts] *)

(** Modelled from the spec: [pathExists] of [utils/fs.ts], the existence
    test of the engine ("if target does not exist", "delete the path if it
    currently exists (covers both symlinks and real content)"): true when
    anything, a symbolic link included, is at the path; it never throws. *)
Definition pathExists (p : path) : M bool := λ w,
  (Ok (bool_decide (is_Some (tree_lookup p (fs_root w)))), log (CExists p) w).

(** Modelled from the spec: [ensureDir] of [utils/fs.ts] ("ensures the
    parent directory exists"): creates the directory and its missing
    ancestors, and fails when something that is not a directory is in
    the way. *)
Definition ensureDir (p : path) : M unit :=
  syscall (CMkdir p) (λ w,
    lift_tree (from_option inr (inl EEXIST) (tree_mkdirp p (fs_root w))) w).

(** Modelled from the spec: [removePath] of [utils/fs.ts] ("removes any
    existing target", "delete the path"): removes the path with all it
    holds, and does nothing when the path is absent. *)
Definition removePath (p : path) : M unit :=
  syscall (CRm p) (λ w,
    match p with
    | [] => fail EBUSY w
    | _ :: _ => lift_tree (inr (tree_del p (fs_root w))) w
    end).

(** Modelled from the spec: [ensureFile] of [utils/fs.ts] ("create the
    file with fixed default placeholder content, only if it does not
    already exist"). *)
Definition ensureFile (p : path) (content : string) : M unit :=
  ensureDir (path_dirname p);;
  exists_ <- pathExists p;;
  if exists_ : bool then ret () else fs_writeFile p (Utf8 content).

(** Modelled from the spec: [copyDir] and [copyFile] of [utils/fs.ts]
    ("recursive copy"), called with [force = true] only. *)
Definition copyDir (src dst : path) (force : bool) : M unit := fs_cp src dst.

Definition copyFile (src dst : path) (force : bool) : M unit := fs_copyFile src dst.

(** ** Backup sessions ([backup.ts]) *)

Definition MANIFEST_NAME : string := "manifest.json".

Definition backupPathFor (target backupRoot : path) : path := backupRoot ++ target.

Definition hasParentPath (target : path) (seen : gset path) : bool :=
  let resolved := target in
  bool_decide (set_Exists (λ parent, resolved = parent ∨ startsWithSep resolved parent) seen).

Definition backupSymlink (target dest : path) : M unit :=
  link <- fs_readlink target;;
  ensureDir (path_dirname dest);;
  fs_symlink link dest None;;
  fs_unlink target.

Definition is_EXDEV (err : Error) : bool :=
  match err with
  | SysError EXDEV => true
  | _ => false
  end.

Definition backupPathImpl (target dest : path) (kind : EntryKind) : M unit :=
  ensureDir (path_dirname dest);;
  catch (fs_rename target dest) (λ err,
    if negb (is_EXDEV err) then throw err
    else
      (match kind with
       | KDir => copyDir target dest true
       | _ => copyFile target dest true
       end);;
      removePath target).

(** [s.replace(/[:.]/g, '-')] *)
Fixpoint replace_colon_dot (s : string) : string :=
  match s with
  | EmptyString => EmptyString
  | String c s' =>
    String (if bool_decide (c = ":"%char ∨ c = "."%char) then "-"%char else c)
           (replace_colon_dot s')
  end.

Module SessionOptions.
Record t := mk {
  canonicalRoot : path;
  scope : Scope;
  operation : string;
  timestamp : option string;
}.
End SessionOptions.

(** [opts.timestamp || ...]: an empty timestamp counts as none. *)
Definition createBackupSession (opts : SessionOptions.t) : M BackupSession.t :=
  let given := default "" (SessionOptions.timestamp opts) in
  timestamp <- (if bool_decide (given = "")
                then iso <- now;; ret (replace_colon_dot iso)
                else ret given);;
  let dir := SessionOptions.canonicalRoot opts ++ ["backup"; timestamp] in
  ensureDir dir;;
  createdAt <- now;;
  ret (BackupSession.mk dir (path_join dir MANIFEST_NAME) createdAt
         (SessionOptions.scope opts) (SessionOptions.operation opts) [] ∅).

Definition record (e : BackupEntry.t) (session : BackupSession.t) : BackupSession.t :=
  BackupSession.mk
    (BackupSession.dir session) (BackupSession.manifestPath session)
    (BackupSession.createdAt session) (BackupSession.scope session)
    (BackupSession.operation session)
    (BackupSession.entries session ++ [e])
    (BackupSession._seen session ∪ {[BackupEntry.originalPath e]}).

Definition backupPath (target : path) (session : BackupSession.t)
  : M (bool * BackupSession.t) :=
  exists_ <- pathExists target;;
  if negb exists_ then ret (false, session)
  else
    let resolved := target in
    if hasParentPath resolved (BackupSession._seen session) then ret (false, session)
    else
      kind <- fs_lstat target;;
      let dest := backupPathFor target (BackupSession.dir session) in
      (match kind with
       | KSymlink => backupSymlink target dest
       | _ => backupPathImpl target dest kind
       end);;
      ret (true, record (BackupEntry.mk resolved (Some dest) kind ABackup) session).

Definition recordCreatedPath (target : path) (kind : EntryKind)
    (session : BackupSession.t) : BackupSession.t :=
  let resolved := target in
  if hasParentPath resolved (BackupSession._seen session) then session
  else record (BackupEntry.mk resolved None kind ACreate) session.

Definition manifest_of (session : BackupSession.t) : BackupManifest.t :=
  BackupManifest.mk (BackupSession.createdAt session) (BackupSession.scope session)
    (BackupSession.operation session) (BackupSession.entries session).

Definition finalizeBackup (session : BackupSession.t) : M unit :=
  fs_writeFile (BackupSession.manifestPath session) (Json (manifest_of session)).

Definition JSON_parse (raw : FileData) : M BackupManifest.t :=
  match raw with
  | Json manifest => ret manifest
  | Utf8 _ => throw (JsError "SyntaxError")
  end.

Definition loadBackupManifest (dir : path) : M (option BackupManifest.t) :=
  let manifestPath := path_join dir MANIFEST_NAME in
  exists_ <- pathExists manifestPath;;
  if negb exists_ then ret None
  else
    raw <- fs_readFile manifestPath;;
    manifest <- JSON_parse raw;;
    ret (Some manifest).

(** ** Roots ([paths.ts]) *)

Module RootOptions.
Record t := mk {
  scope : Scope;
  projectRoot : option path;
  homeDir : option path;
}.
End RootOptions.

Module ResolvedRoots.
Record t := mk {
  canonicalRoot : path;
  claudeRoot : path;
  factoryRoot : path;
  codexRoot : path;
  cursorRoot : path;
  opencodeRoot : path;
  opencodeConfigRoot : path;
  geminiRoot : path;
  projectRoot : path;
  homeDir : path;
}.
End ResolvedRoots.

(** [opts.homeDir || os.homedir()] and [opts.projectRoot || process.cwd()]
    read the process environment, which the world holds. *)
Definition resolveRoots (opts : RootOptions.t) (w : World) : ResolvedRoots.t :=
  let homeDir := default (os_homedir w) (RootOptions.homeDir opts) in
  let projectRoot := default (process_cwd w) (RootOptions.projectRoot opts) in
  match RootOptions.scope opts with
  | global =>
    ResolvedRoots.mk
      (path_join homeDir ".agents")
      (path_join homeDir ".claude")
      (path_join homeDir ".factory")
      (path_join homeDir ".codex")
      (path_join homeDir ".cursor")
      (homeDir ++ [".config"; "opencode"])
      (homeDir ++ [".config"; "opencode"])
      (path_join homeDir ".gemini")
      projectRoot homeDir
  | project =>
    ResolvedRoots.mk
      (path_join projectRoot ".agents")
      (path_join projectRoot ".claude")
      (path_join projectRoot ".factory")
      (path_join projectRoot ".codex")
      (path_join projectRoot ".cursor")
      (path_join projectRoot ".opencode")
      (homeDir ++ [".config"; "opencode"])
      (path_join projectRoot ".gemini")
      projectRoot homeDir
  end.

(** ** The mapping table ([mappings.ts]) *)

Module Mapping.
Record t := mk {
  name : string;
  source : path;
  targets : list path;
  kind : SourceKind;
}.
End Mapping.

Module MappingOptions.
Record t := mk {
  scope : Scope;
  projectRoot : option path;
  homeDir : option path;
  clients : option (list Client);
}.
End MappingOptions.

Definition root_options (opts : MappingOptions.t) : RootOptions.t :=
  RootOptions.mk (MappingOptions.scope opts) (MappingOptions.projectRoot opts)
                 (MappingOptions.homeDir opts).

Definition all_clients : list Client := [claude; factory; codex; cursor; opencode; gemini].

(** [[a ? x : null, ...].filter(Boolean)] *)
Definition when (b : bool) (p : path) : option path := if b then Some p else None.

Definition filter_Boolean (l : list (option path)) : list path := omap id l.

Definition getMappings (opts : MappingOptions.t) : M (list Mapping.t) :=
  roots <- gets (resolveRoots (root_options opts));;
  let canonical := ResolvedRoots.canonicalRoot roots in
  let claudeOverride := path_join canonical "CLAUDE.md" in
  let geminiOverride := path_join canonical "GEMINI.md" in
  let agentsFallback := path_join canonical "AGENTS.md" in
  hasClaudeOverride <- pathExists claudeOverride;;
  let claudeSource := if hasClaudeOverride : bool then claudeOverride else agentsFallback in
  hasGeminiOverride <- pathExists geminiOverride;;
  let geminiSource := if hasGeminiOverride : bool then geminiOverride else agentsFallback in
  let clients := default all_clients (MappingOptions.clients opts) in
  let has (c : Client) : bool := bool_decide (c ∈ clients) in
  let opencodeSkillsRoot :=
    match MappingOptions.scope opts with
    | global => ResolvedRoots.opencodeConfigRoot roots
    | project => ResolvedRoots.opencodeRoot roots
    end in
  let includeAgentFiles := bool_decide (MappingOptions.scope opts = global) in
  let mappings : list Mapping.t := [] in
  let mappings :=
    if includeAgentFiles && has claude
    then mappings ++ [Mapping.mk "claude-md" claudeSource
                        [path_join (ResolvedRoots.claudeRoot roots) "CLAUDE.md"] SFile]
    else mappings in
  let mappings :=
    if includeAgentFiles && has gemini
    then mappings ++ [Mapping.mk "gemini-md" geminiSource
                        [path_join (ResolvedRoots.geminiRoot roots) "GEMINI.md"] SFile]
    else mappings in
  let mappings :=
    if includeAgentFiles
    then
      let agentTargets := filter_Boolean [
        when (has factory) (path_join (ResolvedRoots.factoryRoot roots) "AGENTS.md");
        when (has codex) (path_join (ResolvedRoots.codexRoot roots) "AGENTS.md");
        when (has opencode) (path_join (ResolvedRoots.opencodeConfigRoot roots) "AGENTS.md")] in
      if (0 <? length agentTargets)%nat
      then mappings ++ [Mapping.mk "agents-md" agentsFallback agentTargets SFile]
      else mappings
    else mappings in
  ret (mappings ++ [
    Mapping.mk "commands" (path_join canonical "commands")
      (filter_Boolean [
        when (has claude) (path_join (ResolvedRoots.claudeRoot roots) "commands");
        when (has factory) (path_join (ResolvedRoots.factoryRoot roots) "commands");
        when (has codex) (path_join (ResolvedRoots.codexRoot roots) "prompts");
        when (has opencode) (path_join (ResolvedRoots.opencodeRoot roots) "commands");
        when (has cursor) (path_join (ResolvedRoots.cursorRoot roots) "commands");
        when (has gemini) (path_join (ResolvedRoots.geminiRoot roots) "commands")])
      SDir;
    Mapping.mk "hooks" (path_join canonical "hooks")
      (filter_Boolean [
        when (has claude) (path_join (ResolvedRoots.claudeRoot roots) "hooks");
        when (has factory) (path_join (ResolvedRoots.factoryRoot roots) "hooks")])
      SDir;
    Mapping.mk "skills" (path_join canonical "skills")
      (filter_Boolean [
        when (has claude) (path_join (ResolvedRoots.claudeRoot roots) "skills");
        when (has factory) (path_join (ResolvedRoots.factoryRoot roots) "skills");
        when (has codex) (path_join (ResolvedRoots.codexRoot roots) "skills");
        when (has opencode) (path_join opencodeSkillsRoot "skills");
        when (has cursor) (path_join (ResolvedRoots.cursorRoot roots) "skills");
        when (has gemini) (path_join (ResolvedRoots.geminiRoot roots) "skills")])
      SDir]).

(** ** Link plans ([types.ts]) and their application ([apply.ts]) *)

(** Modelled from the spec: [LinkTask] and [LinkPlan] of [types.ts], "a
    discriminated variant over link, conflict, noop, ensure-source": a link
    task carries source, target, kind and replaceSymlink, a conflict task
    source, target, kind and reason, an ensure-source task the path to
    create and its kind. *)
Inductive LinkTask :=
| TLink (source target : path) (kind : SourceKind) (replaceSymlink : bool)
| TConflict (source target : path) (kind : SourceKind) (reason : string)
| TNoop (source target : path) (kind : SourceKind)
| TEnsureSource (path_ : path) (kind : SourceKind).

Module LinkPlan.
Record t := mk {
  tasks : list LinkTask;
  conflicts : list LinkTask;
  changes : list LinkTask;
}.
End LinkPlan.

Definition newline : string := String (ascii_of_nat 10) EmptyString.

Definition DEFAULT_AGENTS : string :=
  ("# AGENTS" ++ newline ++ newline ++ "Add shared agent instructions here." ++ newline)%string.

Definition createSource (path_ : path) (kind : SourceKind) : M unit :=
  match kind with
  | SDir => ensureDir path_
  | SFile => ensureFile path_ DEFAULT_AGENTS
  end.

(** [path.resolve(p).split(path.sep)]: ["/a/b"] gives [["", "a", "b"]]. *)
Definition split_sep (p : path) : list string :=
  match p with
  | [] => [""; ""]
  | _ :: _ => "" :: p
  end.

(** The loop of [commonPath], [i] running up to [minLen]. *)
Fixpoint shared_segments (splitPaths : list (list string)) (steps i : nat) : list string :=
  match steps with
  | 0 => []
  | S steps' =>
    match splitPaths !! 0 ≫= (λ parts, parts !! i) with
    | None => []
    | Some segment =>
      if bool_decide (segment = "") then []
      else if forallb (λ parts : list string, bool_decide (parts !! i = Some segment)) splitPaths
      then segment :: shared_segments splitPaths steps' (S i)
      else []
    end
  end.

Definition commonPath (paths : list path) : option path :=
  match paths with
  | [] => None
  | _ :: _ =>
    let splitPaths := split_sep <$> paths in
    let minLen := foldr Nat.min (length (default [] (head splitPaths))) (length <$> splitPaths) in
    let shared := shared_segments splitPaths minLen 0 in
    match shared with
    | [] => None
    | first :: rest => if bool_decide (first = "") then Some rest else Some shared
    end
  end.

Definition task_source_dir (task : LinkTask) : path :=
  path_dirname match task with
               | TEnsureSource p _ => p
               | TLink source _ _ _ | TConflict source _ _ _ | TNoop source _ _ => source
               end.

Definition inferBackupDir (plan : LinkPlan.t) : M (option path) :=
  let sourceDirs := task_source_dir <$> LinkPlan.tasks plan in
  match commonPath sourceDirs with
  | None => ret None
  | Some root =>
    iso <- now;;
    ret (Some (root ++ ["backup"; replace_colon_dot iso]))
  end.

Definition backupTarget (target backupDir : path) : M bool :=
  exists_ <- pathExists target;;
  if negb exists_ then ret false
  else
    stat <- fs_lstat target;;
    if bool_decide (stat = KSymlink) then ret false
    else
      let dest := backupDir ++ target in
      ensureDir (path_dirname dest);;
      catch (fs_rename target dest;; ret true) (λ err,
        if negb (is_EXDEV err) then throw err
        else
          (if bool_decide (stat = KDir) then copyDir target dest true
           else copyFile target dest true);;
          removePath target;;
          ret true).

(** The text of a path, as [fs.symlink] stores it. *)
Definition path_string (p : path) : string :=
  match p with
  | [] => "/"
  | _ :: _ => String.concat "" ((λ s, "/" ++ s)%string <$> p)
  end.

Definition link_type (kind : SourceKind) : LinkType :=
  match kind with
  | SDir => junction
  | SFile => file_link
  end.

Definition createLink (source target : path) (kind : SourceKind) (force : bool)
    (backupDir : option path) : M (bool * bool) :=
  exists_ <- pathExists target;;
  if exists_ : bool then
    if negb force then ret (false, false)
    else
      backedUp <- match backupDir with
                  | Some d => backupTarget target d
                  | None => ret false
                  end;;
      removePath target;;
      ensureDir (path_dirname target);;
      fs_symlink (path_string source) target (Some (link_type kind));;
      ret (true, backedUp)
  else
    ensureDir (path_dirname target);;
    fs_symlink (path_string source) target (Some (link_type kind));;
    ret (true, false).

Module ApplyOptions.
Record t := mk {
  force : option bool;
  backupDir : option path;
}.
End ApplyOptions.

Module ApplyResult.
Record t := mk {
  applied : nat;
  skipped : nat;
  conflicts : nat;
  backupDir : option path;
  backedUp : nat;
}.
End ApplyResult.

Definition bump (b : bool) (n : nat) : nat := if b then S n else n.

(** One turn of the loop of [applyLinkPlan]; the counters are
    [applied], [skipped], [conflicts], [backedUp]. *)
Definition apply_task (force : bool) (backupDir : option path)
    (c : nat * nat * nat * nat) (task : LinkTask) : M (nat * nat * nat * nat) :=
  let '(applied, skipped, conflicts, backedUp) := c in
  match task with
  | TConflict source target kind _ =>
    let conflicts := S conflicts in
    if force && bool_decide (target ≠ source) then
      result <- createLink source target kind true backupDir;;
      ret (S applied, skipped, conflicts, bump (snd result) backedUp)
    else ret (applied, skipped, conflicts, backedUp)
  | TNoop _ _ _ => ret (applied, S skipped, conflicts, backedUp)
  | TEnsureSource path_ kind =>
    createSource path_ kind;;
    ret (S applied, skipped, conflicts, backedUp)
  | TLink source target kind _ =>
    before <- pathExists target;;
    result <- createLink source target kind force backupDir;;
    let backedUp := bump (snd result) backedUp in
    if before && negb force then ret (applied, S skipped, conflicts, backedUp)
    else ret (S applied, skipped, conflicts, backedUp)
  end.

Definition applyLinkPlan (plan : LinkPlan.t) (opts : option ApplyOptions.t)
  : M ApplyResult.t :=
  let force := default false (opts ≫= ApplyOptions.force) in
  backupDir <- (if force then
                  match opts ≫= ApplyOptions.backupDir with
                  | Some d => ret (Some d)
                  | None => inferBackupDir plan
                  end
                else ret None);;
  c <- foldM (apply_task force backupDir) (0, 0, 0, 0) (LinkPlan.tasks plan);;
  let '(applied, skipped, conflicts, backedUp) := c in
  ret (ApplyResult.mk applied skipped conflicts backupDir backedUp).
(** ** Undo ([undo.ts]) *)

Module RestoreResult.
Record t := mk {
  restored : nat;
  restoredBackups : nat;
  removedCreated : nat;
  removedSymlinks : nat;
  backupDir : path;
  undoneDir : path;
}.
End RestoreResult.

Definition listBackupDirs (canonicalRoot : path) : M (list path) :=
  let root := path_join canonicalRoot "backup" in
  exists_ <- pathExists root;;
  if negb exists_ then ret []
  else
    entries <- fs_readdir root;;
    ret ((λ e, path_join root (fst e)) <$> filter (λ e, snd e = KDir) entries).

(** [a.localeCompare(b)] on timestamps: the order of the code units. *)
Definition localeCompare (a b : string) : comparison := String.compare a b.

Definition by_createdAt (a b : path * BackupManifest.t) : comparison :=
  localeCompare (BackupManifest.createdAt (snd a)) (BackupManifest.createdAt (snd b)).

(** [Array.prototype.sort] is stable: an element goes behind those it
    does not compare below. *)
Fixpoint sort_insert {A} (cmp : A → A → comparison) (x : A) (l : list A) : list A :=
  match l with
  | [] => [x]
  | y :: l' =>
    match cmp x y with
    | Lt => x :: y :: l'
    | _ => y :: sort_insert cmp x l'
    end
  end.

Definition array_sort {A} (cmp : A → A → comparison) (l : list A) : list A :=
  foldl (λ acc x, sort_insert cmp x acc) [] l.

Fixpoint load_manifests (dirs : list path) : M (list (path * BackupManifest.t)) :=
  match dirs with
  | [] => ret []
  | dir :: dirs' =>
    manifest <- loadBackupManifest dir;;
    rest <- load_manifests dirs';;
    ret (match manifest with
         | Some m => (dir, m) :: rest
         | None => rest
         end)
  end.

Definition findLatestBackup (canonicalRoot : path)
  : M (option (path * BackupManifest.t)) :=
  dirs <- listBackupDirs canonicalRoot;;
  manifests <- load_manifests dirs;;
  if bool_decide (length manifests = 0) then ret None
  else ret (last (array_sort by_createdAt manifests)).

Definition restoreSymlink (entry : BackupEntry.t) : M unit :=
  match BackupEntry.backupPath entry with
  | None => ret ()
  | Some backup =>
    link <- fs_readlink backup;;
    ensureDir (path_dirname (BackupEntry.originalPath entry));;
    fs_symlink link (BackupEntry.originalPath entry) None;;
    fs_unlink backup
  end.

Definition restorePath (entry : BackupEntry.t) : M unit :=
  match BackupEntry.action entry with
  | ACreate => removePath (BackupEntry.originalPath entry)
  | ABackup =>
    match BackupEntry.backupPath entry with
    | None => ret ()
    | Some backup =>
      match BackupEntry.kind entry with
      | KSymlink => restoreSymlink entry
      | kind =>
        let original := BackupEntry.originalPath entry in
        ensureDir (path_dirname original);;
        catch (fs_rename backup original) (λ err,
          if negb (is_EXDEV err) then throw err
          else
            (match kind with
             | KDir => fs_cp backup original
             | _ => fs_copyFile backup original
             end);;
            removePath backup)
      end
    end
  end.

Definition backupExistingOriginals (entries : list BackupEntry.t)
    (session : BackupSession.t) : M BackupSession.t :=
  foldM (λ session entry,
    exists_ <- pathExists (BackupEntry.originalPath entry);;
    if negb exists_ then ret session
    else r <- backupPath (BackupEntry.originalPath entry) session;; ret (snd r))
    session entries.

Module Counters.
Record t := mk {
  restored : nat;
  restoredBackups : nat;
  removedCreated : nat;
  removedSymlinks : nat;
}.
End Counters.

(** One turn of the restoring loop of [undoLastChange]. *)
Definition undo_entry (c : Counters.t) (entry : BackupEntry.t) : M Counters.t :=
  let '(Counters.mk restored restoredBackups removedCreated removedSymlinks) := c in
  match BackupEntry.action entry with
  | ACreate =>
    exists_ <- pathExists (BackupEntry.originalPath entry);;
    if exists_ : bool then
      restorePath entry;;
      ret (Counters.mk (S restored) restoredBackups (S removedCreated)
             (bump (bool_decide (BackupEntry.kind entry = KSymlink)) removedSymlinks))
    else ret c
  | ABackup =>
    match BackupEntry.backupPath entry with
    | None => ret c
    | Some backup =>
      exists_ <- pathExists backup;;
      if negb exists_ then ret c
      else
        restorePath entry;;
        ret (Counters.mk (S restored) (S restoredBackups) removedCreated removedSymlinks)
    end
  end.

Definition undoLastChange (opts : RootOptions.t) : M RestoreResult.t :=
  roots <- gets (resolveRoots opts);;
  latest <- findLatestBackup (ResolvedRoots.canonicalRoot roots);;
  match latest with
  | None => throw (JsError "No backups found to undo.")
  | Some (latest_dir, manifest) =>
    undoSession <- createBackupSession
      (SessionOptions.mk (ResolvedRoots.canonicalRoot roots) (RootOptions.scope opts)
                         "undo" None);;
    let entries := BackupManifest.entries manifest in
    undoSession <- backupExistingOriginals entries undoSession;;
    c <- foldM undo_entry (Counters.mk 0 0 0 0) entries;;
    finalizeBackup undoSession;;
    ret (RestoreResult.mk (Counters.restored c) (Counters.restoredBackups c)
           (Counters.removedCreated c) (Counters.removedSymlinks c)
           (BackupSession.dir undoSession) latest_dir)
  end.

(** ** Path texts ([path.isAbsolute], [path.resolve]) *)

Definition path_isAbsolute (text : string) : bool :=
  match text with
  | String c _ => bool_decide (c = "/"%char)
  | EmptyString => false
  end.

(** [text.split('/')] *)
Fixpoint split_slash (text : string) : list string :=
  match text with
  | EmptyString => [EmptyString]
  | String c text' =>
    if bool_decide (c = "/"%char) then EmptyString :: split_slash text'
    else
      match split_slash text' with
      | [] => [String c EmptyString]
      | segment :: segments => String c segment :: segments
      end
  end.

(** One segment met while normalising: empty segments and ["."] are
    dropped, [".."] goes up and stays at the root. *)
Definition resolve_step (resolved : path) (segment : string) : path :=
  if bool_decide (segment = "" ∨ segment = ".") then resolved
  else if bool_decide (segment = "..") then path_dirname resolved
  else resolved ++ [segment].

(** [path.resolve(base, text)] for a resolved [base]: an absolute text
    starts again from the root. *)
Definition path_resolve (base : path) (text : string) : path :=
  foldl resolve_step (if path_isAbsolute text then [] else base) (split_slash text).

(** ** Link status ([status.ts]) *)

Inductive Status := missing | linked | conflict.

#[global] Instance Status_eq_dec : EqDecision Status.
Proof. solve_decision. Defined.

Module TargetStatus.
Record t := mk {
  path_ : path;
  status : Status;
}.
End TargetStatus.

Module LinkStatus.
Record t := mk {
  name : string;
  source : path;
  targets : list TargetStatus.t;
}.
End LinkStatus.

Definition resolveLinkTarget (targetPath : path) : M (option string) :=
  catch
    (link <- fs_readlink targetPath;;
     if negb (path_isAbsolute link)
     then ret (Some (path_string (path_resolve (path_dirname targetPath) link)))
     else ret (Some link))
    (λ _, ret None).

Fixpoint mapM {A B} (f : A → M B) (l : list A) : M (list B) :=
  match l with
  | [] => ret []
  | a :: l' => b <- f a;; bs <- mapM f l';; ret (b :: bs)
  end.

(** One turn of the inner loop of [getLinkStatus]: the status of one
    target of a mapping.  [resolved && ...] asks for a text that is not
    empty; [path.resolve(resolved)] resolves it against the working
    directory. *)
Definition target_status (source target : path) : M TargetStatus.t :=
  exists_ <- pathExists target;;
  if negb exists_ then ret (TargetStatus.mk target missing)
  else
    stat <- fs_lstat target;;
    if bool_decide (stat = KSymlink) then
      resolved <- resolveLinkTarget target;;
      cwd <- gets process_cwd;;
      if match resolved with
         | Some text => negb (bool_decide (text = "")) && bool_decide (path_resolve cwd text = source)
         | None => false
         end
      then ret (TargetStatus.mk target linked)
      else ret (TargetStatus.mk target conflict)
    else ret (TargetStatus.mk target conflict).

Definition getLinkStatus (opts : MappingOptions.t) : M (list LinkStatus.t) :=
  mappings <- getMappings opts;;
  mapM (λ mapping,
    targets <- mapM (target_status (Mapping.source mapping)) (Mapping.targets mapping);;
    ret (LinkStatus.mk (Mapping.name mapping) (Mapping.source mapping) targets)) mappings.

(** ** Migration plans ([migrate.ts]) *)

Inductive CandidateAction := copy | keep.

#[global] Instance CandidateAction_eq_dec : EqDecision CandidateAction.
Proof. solve_decision. Defined.

Module MigrationCandidate.
Record t := mk {
  label : string;
  targetPath : path;
  kind : SourceKind;
  action : CandidateAction;
  sourcePath : option path;
}.
End MigrationCandidate.

Module MigrationConflict.
Record t := mk {
  label : string;
  targetPath : path;
  candidates : list MigrationCandidate.t;
}.
End MigrationConflict.

Module MigrationPlan.
Record t := mk {
  auto : list MigrationCandidate.t;
  conflicts : list MigrationConflict.t;
  canonicalRoot : path;
}.
End MigrationPlan.

(** [Map<string, MigrationCandidate | null>] *)
Abbreviation Selections := (gmap path (option MigrationCandidate.t)).

(** [selections.get(targetPath)], [undefined] and [null] alike. *)
Definition selection (selections : Selections) (targetPath : path)
  : option MigrationCandidate.t :=
  mjoin (selections !! targetPath).

(** ** Preflight of a backup ([preflight.ts]) *)

Module PreflightOptions.
Record t := mk {
  backup : BackupSession.t;
  linkPlan : LinkPlan.t;
  migratePlan : MigrationPlan.t;
  selections : Selections;
  forceLinks : bool;
}.
End PreflightOptions.

Definition needsLinkBackup (task : LinkTask) (forceLinks : bool) : M bool :=
  match task with
  | TConflict source target _ _ => ret (forceLinks && bool_decide (target ≠ source))
  | TLink _ target _ replaceSymlink =>
    exists_ <- pathExists target;;
    if negb exists_ then ret false
    else if forceLinks then ret true
    else if negb replaceSymlink then ret false
    else catch (stat <- fs_lstat target;; ret (bool_decide (stat = KSymlink)))
               (λ _, ret false)
  | _ => ret false
  end.

Definition collectMigrationCandidates (plan : MigrationPlan.t) (selections : Selections)
  : list MigrationCandidate.t :=
  MigrationPlan.auto plan
  ++ omap (λ conflict,
       match selection selections (MigrationConflict.targetPath conflict) with
       | Some choice =>
         if bool_decide (MigrationCandidate.action choice = copy) then Some choice else None
       | None => None
       end) (MigrationPlan.conflicts plan).

(** [targets.add(p)] on a [Set], which keeps the order of insertion. *)
Definition set_add (p : path) (targets : list path) : list path :=
  if bool_decide (p ∈ targets) then targets else targets ++ [p].

(** [fs.promises.access(p, fs.constants.W_OK)]: logged as a test of [p].
    Permissions are not part of the tree: a refusal is an answer of the
    oracle. *)
Definition fs_access (p : path) : M unit :=
  syscall (CExists p) (λ w,
    match tree_lookup p (fs_root w) with
    | Some _ => ret () w
    | None => fail ENOENT w
    end).

(** The target of a task that [needsLinkBackup] can answer [true] for. *)
Definition task_target (task : LinkTask) : option path :=
  match task with
  | TLink _ target _ _ | TConflict _ target _ _ => Some target
  | _ => None
  end.

(** One turn of the last loop of [preflightBackup]. *)
Definition preflight_target (backup : BackupSession.t) (target : path) : M unit :=
  exists_ <- pathExists target;;
  if negb exists_ then ret ()
  else
    stat <- fs_lstat target;;
    (if bool_decide (stat = KSymlink) then fs_readlink target;; ret () else ret ());;
    let dest := backupPathFor target (BackupSession.dir backup) in
    ensureDir (path_dirname dest);;
    fs_access (path_dirname dest).

Definition preflightBackup (opts : PreflightOptions.t) : M nat :=
  targets <- foldM (λ targets task,
      needs <- needsLinkBackup task (PreflightOptions.forceLinks opts);;
      ret (match task_target task with
           | Some target => if needs : bool then set_add target targets else targets
           | None => targets
           end))
    [] (LinkPlan.tasks (PreflightOptions.linkPlan opts));;
  let migrationCandidates :=
    collectMigrationCandidates (PreflightOptions.migratePlan opts)
                               (PreflightOptions.selections opts) in
  targets <- foldM (λ targets candidate,
      match MigrationCandidate.sourcePath candidate with
      | None => ret targets
      | Some _ =>
        exists_ <- pathExists (MigrationCandidate.targetPath candidate);;
        ret (if exists_ : bool
             then set_add (MigrationCandidate.targetPath candidate) targets
             else targets)
      end)
    targets migrationCandidates;;
  foldM (λ _ target, preflight_target (PreflightOptions.backup opts) target) () targets;;
  ret (length targets).

(** ** Migration ([migrate.ts]) *)

Definition isSymlink (p : path) : M bool :=
  catch (stat <- fs_lstat p;; ret (bool_decide (stat = KSymlink))) (λ _, ret false).

Definition listFiles (dir : path) : M (list path) :=
  catch
    (entries <- fs_readdir dir;;
     ret ((λ e, path_join dir (fst e)) <$> filter (λ e, snd e = KFile) entries))
    (λ _, ret []).

(** [copyCandidate], the closure of [applyMigration] over the session. *)
Definition copyCandidate (candidate : MigrationCandidate.t) (backup : BackupSession.t)
  : M (bool * BackupSession.t) :=
  match MigrationCandidate.action candidate, MigrationCandidate.sourcePath candidate with
  | copy, Some sourcePath =>
    let targetPath := MigrationCandidate.targetPath candidate in
    existed <- pathExists targetPath;;
    backup <- (if existed : bool
               then r <- backupPath targetPath backup;; ret (snd r)
               else ret (recordCreatedPath targetPath
                           (match MigrationCandidate.kind candidate with
                            | SDir => KDir
                            | SFile => KFile
                            end) backup));;
    (match MigrationCandidate.kind candidate with
     | SFile => copyFile sourcePath targetPath true
     | SDir => copyDir sourcePath targetPath true
     end);;
    ret (true, backup)
  | _, _ => ret (false, backup)
  end.

Module MigrationOptions.
Record t := mk {
  roots : RootOptions.t;
  backup : option BackupSession.t;
  forceLinks : option bool;
}.
End MigrationOptions.

Module MigrationResult.
Record t := mk {
  copied : nat;
  skipped : nat;
  backupDir : path;
}.
End MigrationResult.

Section migration.
(** [buildLinkPlan] of [plan.ts] is not part of these sources: the
    migration is embedded over any plan builder. *)
Context (buildLinkPlan : RootOptions.t → M LinkPlan.t).

(** The session is shared and mutated: it is threaded through the loops
    next to the counters [copied] and [skipped]. *)
Definition applyMigration (plan : MigrationPlan.t) (selections : Selections)
    (opts : MigrationOptions.t) : M (MigrationResult.t * BackupSession.t) :=
  match MigrationOptions.backup opts with
  | None => throw (JsError "Backup session required.")
  | Some backup =>
    st <- foldM (λ '(copied, skipped, backup) candidate,
        r <- copyCandidate candidate backup;;
        ret (if fst r then (S copied, skipped, snd r) else (copied, S skipped, snd r)))
      (0, 0, backup) (MigrationPlan.auto plan);;
    st <- foldM (λ '(copied, skipped, backup) conflict,
        match selection selections (MigrationConflict.targetPath conflict) with
        | Some choice =>
          if bool_decide (MigrationCandidate.action choice = copy) then
            r <- copyCandidate choice backup;;
            ret (if fst r then (S copied, skipped, snd r) else (copied, S skipped, snd r))
          else ret (copied, S skipped, backup)
        | None => ret (copied, S skipped, backup)
        end)
      st (MigrationPlan.conflicts plan);;
    let '(copied, skipped, backup) := st in
    linkPlan <- buildLinkPlan (MigrationOptions.roots opts);;
    applyLinkPlan linkPlan
      (Some (ApplyOptions.mk (Some (default false (MigrationOptions.forceLinks opts))) None));;
    ret (MigrationResult.mk copied skipped (BackupSession.dir backup), backup)
  end.
End migration.

(** ** The migration scan ([migrate.ts]) *)

Definition path_basename (p : path) : string := default "" (last p).

(** The number of leading segments two paths share. *)
Fixpoint shared_length (p q : path) : nat :=
  match p, q with
  | s :: p', t :: q' => if bool_decide (s = t) then S (shared_length p' q') else 0
  | _, _ => 0
  end.

(** [path.relative(from, to)] on resolved paths: up from [from] to the
    last directory shared with [to], then down to [to]. *)
Definition path_relative (from to : path) : string :=
  let n := shared_length from to in
  String.concat "/" (replicate (length from - n) ".." ++ drop n to).

(** [targetPath.startsWith(canonicalRoot)] compares the texts. *)
Definition conflictLabel (targetPath canonicalRoot : path) : string :=
  if String.prefix (path_string canonicalRoot) (path_string targetPath) then
    let rel := path_relative canonicalRoot targetPath in
    if bool_decide (rel = "") then path_basename targetPath else rel
  else path_basename targetPath.

(** [candidatesByTarget], a [Map] from target path to candidates, kept in
    the order of first insertion. *)
Abbreviation CandidateMap := (list (path * list MigrationCandidate.t)).

Definition addCandidate (candidate : MigrationCandidate.t) (m : CandidateMap) : CandidateMap :=
  let targetPath := MigrationCandidate.targetPath candidate in
  if bool_decide (targetPath ∈ m.*1)
  then (λ e, if bool_decide (e.1 = targetPath) then (e.1, e.2 ++ [candidate]) else e) <$> m
  else m ++ [(targetPath, [candidate])].

(** [!await pathExists(p) || await isSymlink(p)]: the source is passed over. *)
Definition passed_over (p : path) : M bool :=
  exists_ <- pathExists p;;
  if negb exists_ then ret true else isSymlink p.

(** One turn of the loops over [sources.commands] and [sources.hooks]. *)
Definition scan_files (canonicalDir : path) (m : CandidateMap) (src : string * path)
  : M CandidateMap :=
  skip <- passed_over src.2;;
  if skip : bool then ret m
  else
    files <- listFiles src.2;;
    ret (foldl (λ m file,
           addCandidate (MigrationCandidate.mk src.1
                           (path_join canonicalDir (path_basename file)) SFile copy (Some file)) m)
         m files).

(** One turn of the loops over [sources.agents] and [sources.claude]. *)
Definition scan_file (canonicalFile : path) (m : CandidateMap) (src : string * path)
  : M CandidateMap :=
  skip <- passed_over src.2;;
  if skip : bool then ret m
  else ret (addCandidate (MigrationCandidate.mk src.1 canonicalFile SFile copy (Some src.2)) m).

(** One turn of the last loop of [scanMigration]; the state is [auto]
    and [conflicts]. *)
Definition classify_target (canonicalRoot : path)
    (st : list MigrationCandidate.t * list MigrationConflict.t)
    (entry : path * list MigrationCandidate.t)
  : M (list MigrationCandidate.t * list MigrationConflict.t) :=
  let '(auto, conflicts) := st in
  let '(targetPath, list_) := entry in
  canonicalExists <- pathExists targetPath;;
  list_ <- (if canonicalExists : bool then
              kind <- catch (stat <- fs_lstat targetPath;;
                             ret (if bool_decide (stat = KDir) then SDir else SFile))
                            (λ _, ret SFile);;
              ret (MigrationCandidate.mk "Keep existing (.agents)" targetPath kind keep None
                     :: list_)
            else ret list_);;
  if bool_decide (length list_ = 1) && negb canonicalExists then
    ret (match list_ with
         | only :: _ => (auto ++ [only], conflicts)
         | [] => (auto, conflicts)
         end)
  else
    ret (auto, conflicts ++ [MigrationConflict.mk (conflictLabel targetPath canonicalRoot)
                               targetPath list_]).

Section scan.
(** [findSkillDirs] and [parseSkillFile] of [skills.ts] are not part of
    these sources: the scan is embedded over any two such functions,
    the second giving the [name] of the metadata it parses, which is
    taken to be one path segment. *)
Context (findSkillDirs : path → M (list path)) (parseSkillFile : path → M string).

(** One turn of the loop over [sources.skills]. *)
Definition scan_skills (canonicalSkills : path) (m : CandidateMap) (src : string * path)
  : M CandidateMap :=
  skip <- passed_over src.2;;
  if skip : bool then ret m
  else
    skillDirs <- findSkillDirs src.2;;
    foldM (λ m dir,
        catch (name <- parseSkillFile (path_join dir "SKILL.md");;
               ret (addCandidate (MigrationCandidate.mk src.1 (path_join canonicalSkills name)
                                    SDir copy (Some dir)) m))
              (λ _, ret m))
      m skillDirs.

Definition scanMigration (opts : RootOptions.t) : M MigrationPlan.t :=
  roots <- gets (resolveRoots opts);;
  let canonicalRoot := ResolvedRoots.canonicalRoot roots in
  let candidatesByTarget : CandidateMap := [] in
  let canonicalCommands := path_join canonicalRoot "commands" in
  let canonicalHooks := path_join canonicalRoot "hooks" in
  let canonicalSkills := path_join canonicalRoot "skills" in
  let canonicalAgents := path_join canonicalRoot "AGENTS.md" in
  let canonicalClaude := path_join canonicalRoot "CLAUDE.md" in
  candidatesByTarget <- foldM (scan_files canonicalCommands) candidatesByTarget [
    ("Claude commands", path_join (ResolvedRoots.claudeRoot roots) "commands");
    ("Factory commands", path_join (ResolvedRoots.factoryRoot roots) "commands");
    ("Codex prompts", path_join (ResolvedRoots.codexRoot roots) "prompts");
    ("Cursor commands", path_join (ResolvedRoots.cursorRoot roots) "commands")];;
  candidatesByTarget <- foldM (scan_files canonicalHooks) candidatesByTarget [
    ("Claude hooks", path_join (ResolvedRoots.claudeRoot roots) "hooks");
    ("Factory hooks", path_join (ResolvedRoots.factoryRoot roots) "hooks")];;
  candidatesByTarget <- foldM (scan_skills canonicalSkills) candidatesByTarget [
    ("Claude skills", path_join (ResolvedRoots.claudeRoot roots) "skills");
    ("Factory skills", path_join (ResolvedRoots.factoryRoot roots) "skills");
    ("Codex skills", path_join (ResolvedRoots.codexRoot roots) "skills");
    ("Cursor skills", path_join (ResolvedRoots.cursorRoot roots) "skills")];;
  candidatesByTarget <- foldM (scan_file canonicalAgents) candidatesByTarget [
    ("Claude AGENTS.md", path_join (ResolvedRoots.claudeRoot roots) "AGENTS.md");
    ("Factory AGENTS.md", path_join (ResolvedRoots.factoryRoot roots) "AGENTS.md");
    ("Codex AGENTS.md", path_join (ResolvedRoots.codexRoot roots) "AGENTS.md")];;
  candidatesByTarget <- foldM (scan_file canonicalClaude) candidatesByTarget [
    ("Claude CLAUDE.md", path_join (ResolvedRoots.claudeRoot roots) "CLAUDE.md")];;
  st <- foldM (classify_target canonicalRoot) ([], []) candidatesByTarget;;
  ret (MigrationPlan.mk st.1 st.2 canonicalRoot).
End scan.
(** ** A small world to run on *)

Definition no_faults : Call → option Errno := λ _, None.

Definition iso_clock (n : nat) : string :=
  match n with
  | 0 => "2026-01-01T10:00:00.000Z"
  | 1 => "2026-01-01T10:00:00.001Z"
  | 2 => "2026-01-01T10:00:05.000Z"
  | _ => "2026-01-01T10:00:05.001Z"
  end.

Definition world_of (root : node) : World :=
  mkWorld root no_faults iso_clock 0 ["home"; "u"] ["work"; "proj"] [].

Definition dir_of (l : list (string * node)) : node := Dir (list_to_map l).

Definition home_codex : node :=
  dir_of [("home", dir_of [("u", dir_of [
    (".agents", dir_of [("commands", dir_of [])]);
    (".codex", dir_of [("prompts", dir_of [("keep.md", File (Utf8 "# keep"))])])])])].

Definition demo_session : BackupSession.t :=
  BackupSession.mk ["home"; "u"; ".agents"; "backup"; "t0"]
    ["home"; "u"; ".agents"; "backup"; "t0"; "manifest.json"]
    "2026-01-01T09:00:00.000Z" global "test" [] ∅.



Definition codex_prompts : path := ["home"; "u"; ".codex"; "prompts"].

Definition claude_commands : path := ["home"; "u"; ".claude"; "commands"].

(** An operation as the specification describes a forced apply: its
    session backs up the directory at [codex_prompts], a link takes its
    place, a second link is created and recorded, the manifest is written. *)
Definition demo_operation : M unit :=
  session <- createBackupSession (SessionOptions.mk ["home"; "u"; ".agents"] global "apply" None);;
  r <- backupPath codex_prompts session;;
  fs_symlink "/home/u/.agents/commands" codex_prompts (Some junction);;
  ensureDir (path_dirname claude_commands);;
  fs_symlink "/home/u/.agents/commands" claude_commands (Some junction);;
  finalizeBackup (recordCreatedPath claude_commands KSymlink (snd r)).

Definition world_after_operation : World := snd (demo_operation (world_of home_codex)).


Definition undo_global : RootOptions.t := RootOptions.mk global None None.

Definition agents_commands : path := ["home"; "u"; ".agents"; "commands"].

(** A home where [~/.claude/commands] is a link left by another tool. *)
Definition home_stale_link : node :=
  dir_of [("home", dir_of [("u", dir_of [
    (".agents", dir_of [("commands", dir_of [])]);
    (".claude", dir_of [("commands", Symlink "/old/commands")])])])].

Definition plan_relink : LinkPlan.t :=
  let task := TLink agents_commands claude_commands SDir true in
  LinkPlan.mk [task] [] [task].

Definition plan_conflict : LinkPlan.t :=
  let task := TConflict agents_commands codex_prompts SDir "existing directory with 1 entries" in
  LinkPlan.mk [task] [task] [].

Definition backup_t1 : path := ["home"; "u"; ".agents"; "backup"; "t1"].

(** [tests/undo.test.ts], "undo restores overwritten tool paths": a
    session is created, the plan is applied with [force] (the [backup]
    property the test passes is none of the options [applyLinkPlan]
    reads), the session is finalized, the change is undone. *)
Definition undo_test : M RestoreResult.t :=
  backup <- createBackupSession (SessionOptions.mk ["home"; "u"; ".agents"] global "test" None);;
  applyLinkPlan plan_conflict (Some (ApplyOptions.mk (Some true) None));;
  finalizeBackup backup;;
  undoLastChange undo_global.

(** A world where every rename crosses a device. *)
Definition cross_device : Call → option Errno := λ c,
  match c with
  | CRename _ _ => Some EXDEV
  | _ => None
  end.

Definition world_cross_device : World :=
  mkWorld home_codex cross_device iso_clock 0 ["home"; "u"] ["work"; "proj"] [].


(** ** More worlds *)




(** A migration: one command file of Claude to copy into the canonical
    folder, and one conflict on [AGENTS.md] left undecided. *)
Definition home_migrate : node :=
  dir_of [("home", dir_of [("u", dir_of [
    (".agents", dir_of [("commands", dir_of []);
                        ("AGENTS.md", File (Utf8 "# shared"))]);
    (".claude", dir_of [("commands", dir_of [("hello.md", File (Utf8 "# hello"))]);
                        ("AGENTS.md", File (Utf8 "# claude"))])])])].

Definition hello_candidate : MigrationCandidate.t :=
  MigrationCandidate.mk "Claude commands"
    ["home"; "u"; ".agents"; "commands"; "hello.md"] SFile copy
    (Some ["home"; "u"; ".claude"; "commands"; "hello.md"]).

Definition agents_candidate : MigrationCandidate.t :=
  MigrationCandidate.mk "Claude AGENTS.md"
    ["home"; "u"; ".agents"; "AGENTS.md"] SFile copy
    (Some ["home"; "u"; ".claude"; "AGENTS.md"]).

Definition keep_candidate : MigrationCandidate.t :=
  MigrationCandidate.mk "Keep existing (.agents)"
    ["home"; "u"; ".agents"; "AGENTS.md"] SFile keep None.

Definition demo_migration : MigrationPlan.t :=
  MigrationPlan.mk [hello_candidate]
    [MigrationConflict.mk "AGENTS.md" ["home"; "u"; ".agents"; "AGENTS.md"]
       [keep_candidate; agents_candidate]]
    ["home"; "u"; ".agents"].

Definition choose_claude : Selections :=
  {[ ["home"; "u"; ".agents"; "AGENTS.md"] := Some agents_candidate ]}.

Definition demo_preflight : PreflightOptions.t :=
  PreflightOptions.mk demo_session plan_relink demo_migration choose_claude true.

(** A plan builder that always answers the plan with one conflict. *)
Definition fixed_plan : RootOptions.t → M LinkPlan.t := λ _, ret plan_conflict.

(** Stand-ins for [findSkillDirs] and [parseSkillFile] in examples: the
    directories lying directly in a folder, and the text of a file taken
    as the skill's name. *)
Definition subdirs (dir : path) : M (list path) :=
  catch
    (entries <- fs_readdir dir;;
     ret ((λ e, path_join dir (fst e)) <$> filter (λ e, snd e = KDir) entries))
    (λ _, ret []).

Definition name_in_file (p : path) : M string :=
  data <- fs_readFile p;;
  match data with
  | Utf8 text => ret text
  | Json _ => throw (JsError "invalid skill metadata")
  end.

(** A home where Claude has a command, a skill and an [AGENTS.md],
    Factory the same command under the same name, and the canonical
    folder its own [AGENTS.md]. *)
Definition home_scan : node :=
  dir_of [("home", dir_of [("u", dir_of [
    (".agents", dir_of [("AGENTS.md", File (Utf8 "# shared"))]);
    (".claude", dir_of [
       ("commands", dir_of [("hello.md", File (Utf8 "# hello"))]);
       ("skills", dir_of [("review", dir_of [("SKILL.md", File (Utf8 "review"))])]);
       ("AGENTS.md", File (Utf8 "# claude"))]);
    (".factory", dir_of [("commands", dir_of [("hello.md", File (Utf8 "# hi"))])]);
    (".codex", dir_of [("prompts", Symlink "/home/u/.agents/commands")])])])].
(** ** Vocabulary of the statements *)

(** Two paths neither of which lies at or beneath the other. *)
Definition apart (p q : path) : Prop := ¬ p `prefix_of` q ∧ ¬ q `prefix_of` p.

(** The rule files of an agent: [AGENTS.md] and the overrides of a client. *)
Definition instructions_file (p : path) : Prop :=
  last p = Some "AGENTS.md" ∨ last p = Some "CLAUDE.md" ∨ last p = Some "GEMINI.md".

Definition named (name : string) (ms : list Mapping.t) : list Mapping.t :=
  filter (λ m, Mapping.name m = name) ms.

(** [a] sorts at or before [b]. *)
Definition sorts_before (a b : string) : Prop := localeCompare a b ≠ Gt.

(** [dir] is a session directory of the backup root that holds the
    manifest [m]: the session was finalized. *)
Definition finalized (root : node) (canonicalRoot dir : path) (m : BackupManifest.t) : Prop :=
  ∃ name, dir = path_join (path_join canonicalRoot "backup") name
          ∧ tree_lookup (path_join dir MANIFEST_NAME) root = Some (File (Json m)).




(** What is seen of a move of [src] to [dst] that begins in [w0] and
    ends in [w'] with the result [r]: the first call is the rename; when
    it succeeds nothing follows; when it fails with [EXDEV] the copy
    follows, and the removal of the source once the copy has succeeded;
    when it fails otherwise the failure is the result, and nothing
    follows. *)
Definition rename_then_fallback (src dst : path) (w0 : World)
    (r : Result ()) (w' : World) : Prop :=
  ∃ rest, trace w' = trace w0 ++ CRename src dst :: rest
    ∧ match fst (fs_rename src dst w0) with
      | Ok _ => r = Ok () ∧ rest = []
      | Throw (SysError EXDEV) =>
        rest = [CCopy src dst; CRm src] ∨ (rest = [CCopy src dst] ∧ ∃ err, r = Throw err)
      | Throw err => r = Throw err ∧ rest = [] ∧ fs_root w' = fs_root w0
      end.

(** What [lstat], [readlink] and [readFile] tell of a node. *)
Inductive Shape :=
| ShFile (data : FileData)
| ShLink (text : string)
| ShDir.

Definition shape_of (n : node) : Shape :=
  match n with
  | File data => ShFile data
  | Symlink text => ShLink text
  | Dir _ => ShDir
  end.

Definition stat_at (p : path) (root : node) : option Shape := shape_of <$> tree_lookup p root.

(** Nothing that was in [root] has been deleted or replaced in [root']:
    every path that held a file, a link or a directory still holds the
    same file, the same link, a directory. *)
Definition kept (root root' : node) : Prop :=
  ∀ p s, stat_at p root = Some s → stat_at p root' = Some s.

Definition is_conflict (task : LinkTask) : bool :=
  match task with
  | TConflict _ _ _ _ => true
  | _ => false
  end.

(** The tree [n'] is [n] after the node [x] has moved from [src] to
    [dst]: nothing is left at or beneath [src]; [x] is at [dst]; aside
    from both, every path holds what it held, or a directory where there
    was either a directory or, above [dst], nothing. *)
Definition moved (src dst : path) (x : node) (n n' : node) : Prop :=
  (∀ r, tree_lookup (src ++ r) n' = None)
  ∧ (∀ r, tree_lookup (dst ++ r) n' = tree_lookup r x)
  ∧ (∀ q, ¬ src `prefix_of` q → ¬ dst `prefix_of` q →
       stat_at q n' = stat_at q n
       ∨ (stat_at q n = None ∧ stat_at q n' = Some ShDir ∧ q `prefix_of` dst))
  ∧ (∀ q, apart q src → apart q dst → tree_lookup q n' = tree_lookup q n).


(** No injected failure. *)
Definition quiet (w : World) : Prop := ∀ c, faults w c = None.

(** A session as [createBackupSession] makes it and its use keeps it:
    its directory is not the root, and the root is not recorded. *)
Definition session_ok (session : BackupSession.t) : Prop :=
  BackupSession.dir session ≠ [] ∧ [] ∉ BackupSession._seen session.

(** A path recorded in the session is [target] itself or a directory
    above it. *)
Definition recorded_above (target : path) (session : BackupSession.t) : Prop :=
  ∃ parent, parent ∈ BackupSession._seen session ∧ parent `prefix_of` target.







#[global] Instance apart_dec (p q : path) : Decision (apart p q).
Proof. unfold apart. apply _. Defined.

(** The comparator [(a, b) => key(a).localeCompare(key(b))] and the order
    it sorts into. *)
Definition compare_by {A} (key : A → string) (a b : A) : comparison :=
  localeCompare (key a) (key b).

Definition ordered_by {A} (key : A → string) (a b : A) : Prop :=
  sorts_before (key a) (key b).

(** ** What a computation may do *)

(** Every run of [m], whether it returns or throws, takes a world to one
    related to it by [R]. *)
Definition preserves {A} (R : World → World → Prop) (m : M A) : Prop :=
  ∀ w r w', m w = (r, w') → R w w'.

(** The file system is as it was. *)
Definition same_root (w w' : World) : Prop := fs_root w' = fs_root w.

(** Nothing of the file system has been deleted or replaced. *)
Definition kept_world (w w' : World) : Prop := kept (fs_root w) (fs_root w').

(** The calls made since [w] all satisfy [P]. *)
Definition calls_in (P : Call → Prop) (w w' : World) : Prop :=
  ∃ calls, trace w' = trace w ++ calls ∧ Forall P calls.

(** A call that moves or copies a node. *)
Definition moves_or_copies (c : Call) : Prop :=
  match c with
  | CRename _ _ | CCopy _ _ => True
  | _ => False
  end.

(** A call that only looks. *)
Definition looks (c : Call) : Prop :=
  match c with
  | CExists _ | CLstat _ | CReadlink _ | CReaddir _ | CReadFile _ => True
  | _ => False
  end.

(** ** Plain paths *)

Fixpoint has_slash (s : string) : bool :=
  match s with
  | EmptyString => false
  | String c s' => bool_decide (c = "/"%char) || has_slash s'
  end.

(** A segment as a resolved path has them: not empty, neither ["."] nor
    [".."], without a separator. *)
Definition plain_segment (s : string) : bool :=
  negb (bool_decide (s = "" ∨ s = "." ∨ s = "..")) && negb (has_slash s).

Definition plain (p : path) : Prop := Forall (λ s, plain_segment s = true) p.

(** ** The status a target has *)

(** What is at [target] in [root], as the status of a link to [source]:
    nothing, a link whose text, resolved from the directory of the link,
    is [source], or anything else. *)
Definition status_of (root : node) (source target : path) : Status :=
  match tree_lookup target root with
  | None => missing
  | Some (Symlink text) =>
    if bool_decide (path_resolve (path_dirname target) text = source) then linked else conflict
  | Some _ => conflict
  end.

(** ** Plans that have been applied *)

Definition creates_source (task : LinkTask) : bool :=
  match task with
  | TEnsureSource _ _ => true
  | _ => false
  end.

(** Nothing is left to do for [task] in [root] without [force]: the
    target of a link task holds something, the source an ensure-source
    task asks for is there. *)
Definition settled (root : node) (task : LinkTask) : Prop :=
  match task with
  | TLink _ target _ _ => is_Some (stat_at target root)
  | TEnsureSource path_ SDir => stat_at path_ root = Some ShDir
  | TEnsureSource path_ SFile =>
    is_Some (stat_at path_ root) ∧ stat_at (path_dirname path_) root = Some ShDir
  | _ => True
  end.

(** ** Where a client lives *)

(** The folder of a client under the base of a scope: the home directory
    in global scope, the project root in project scope. *)
Definition client_root (scope : Scope) (c : Client) (base : path) : path :=
  base ++ match c with
          | claude => [".claude"]
          | factory => [".factory"]
          | codex => [".codex"]
          | cursor => [".cursor"]
          | gemini => [".gemini"]
          | opencode =>
            match scope with
            | global => [".config"; "opencode"]
            | project => [".opencode"]
            end
          end.

Definition scope_base (scope : Scope) (roots : ResolvedRoots.t) : path :=
  match scope with
  | global => ResolvedRoots.homeDir roots
  | project => ResolvedRoots.projectRoot roots
  end.

(** A call that looks or makes a directory. *)
Definition looks_or_mkdir (c : Call) : Prop :=
  match c with
  | CMkdir _ => True
  | _ => looks c
  end.

(** ** Replaced conflicts *)

(** A conflict task that [force] replaces: its target is not its source. *)
Definition replaceable (task : LinkTask) : bool :=
  match task with
  | TConflict source target _ _ => bool_decide (target ≠ source)
  | _ => false
  end.

(** ** Characters of a timestamp *)


(** ** Candidates of a migration *)

(** A candidate that copies from a source to [targetPath]. *)
Definition copies_to (targetPath : path) (candidate : MigrationCandidate.t) : Prop :=
  MigrationCandidate.targetPath candidate = targetPath
  ∧ MigrationCandidate.action candidate = copy
  ∧ is_Some (MigrationCandidate.sourcePath candidate).

(** The candidate map holds each target once, with at least one
    candidate, all copying to that target. *)
Definition well_keyed (m : CandidateMap) : Prop :=
  NoDup m.*1 ∧ Forall (λ e, e.2 ≠ [] ∧ Forall (copies_to e.1) e.2) m.

(** The candidate map during a scan: well keyed, with every target under
    the canonical root. *)
Definition scanned (canonicalRoot : path) (m : CandidateMap) : Prop :=
  well_keyed m ∧ Forall (λ k, canonicalRoot `prefix_of` k) m.*1.
(** ** Facts about the tree *)

Lemma apart_sym p q : apart p q → apart q p.
Proof. intros [??]; by split. Qed.

Lemma prefix_cons_iff (s s' : string) (p q : path) :
  (s :: p) `prefix_of` (s' :: q) ↔ s = s' ∧ p `prefix_of` q.
Proof.
  split.
  - intros H. split; [by eapply prefix_cons_inv_1 | by eapply prefix_cons_inv_2].
  - intros [-> H]. by apply prefix_cons.
Qed.

Lemma apart_cons s p q : apart (s :: p) (s :: q) ↔ apart p q.
Proof. unfold apart. rewrite !prefix_cons_iff. intuition. Qed.


Lemma apart_nil_l q : ¬ apart [] q.
Proof. intros [H _]. apply H, prefix_nil. Qed.

Lemma apart_nil_r p : ¬ apart p [].
Proof. intros [_ H]. apply H, prefix_nil. Qed.

Lemma tree_lookup_app p q n :
  tree_lookup (p ++ q) n = tree_lookup p n ≫= tree_lookup q.
Proof.
  revert n. induction p as [|s p IH]; intros n; simpl; [done|].
  destruct n as [| |es]; try done.
  destruct (es !! s) as [c|]; simpl; [apply IH | done].
Qed.

Lemma tree_lookup_prefix p q n :
  p `prefix_of` q → tree_lookup p n = None → tree_lookup q n = None.
Proof. intros [r ->] H. by rewrite tree_lookup_app, H. Qed.

Lemma tree_lookup_parent_dir p s n x :
  tree_lookup (path_join p s) n = Some x → ∃ es, tree_lookup p n = Some (Dir es).
Proof.
  unfold path_join. rewrite tree_lookup_app.
  destruct (tree_lookup p n) as [[| |es]|]; simpl; try done. eauto.
Qed.

Lemma tree_lookup_cons s p es :
  tree_lookup (s :: p) (Dir es) = es !! s ≫= tree_lookup p.
Proof. done. Qed.

(** The equations of [tree_put] and [tree_del] below a directory. *)
Lemma tree_put_single s x es : tree_put [s] x (Dir es) = Some (Dir (<[s := x]> es)).
Proof. done. Qed.

Lemma tree_put_cons s p x es :
  p ≠ [] →
  tree_put (s :: p) x (Dir es)
  = c ← es !! s; c' ← tree_put p x c; Some (Dir (<[s := c']> es)).
Proof. by destruct p. Qed.

Lemma tree_put_cons_inv s p x n n' :
  p ≠ [] → tree_put (s :: p) x n = Some n' →
  ∃ es c c', n = Dir es ∧ es !! s = Some c ∧ tree_put p x c = Some c'
             ∧ n' = Dir (<[s := c']> es).
Proof.
  intros Hp. destruct n as [| |es]; try done.
  rewrite tree_put_cons by done.
  destruct (es !! s) as [c|] eqn:Hc; simpl; [|done].
  destruct (tree_put p x c) as [c'|] eqn:Hc'; simpl; [|done].
  intros [= <-]. by exists es, c, c'.
Qed.

Lemma tree_put_single_inv s x n n' :
  tree_put [s] x n = Some n' → ∃ es, n = Dir es ∧ n' = Dir (<[s := x]> es).
Proof. destruct n as [| |es]; try done. intros [= <-]. eauto. Qed.

Lemma tree_del_single s es : tree_del [s] (Dir es) = Dir (delete s es).
Proof. done. Qed.

Lemma tree_del_cons s p es :
  p ≠ [] →
  tree_del (s :: p) (Dir es)
  = match es !! s with
    | Some c => Dir (<[s := tree_del p c]> es)
    | None => Dir es
    end.
Proof. by destruct p. Qed.

Lemma tree_put_eq p x n n' :
  tree_put p x n = Some n' → tree_lookup p n' = Some x.
Proof.
  revert n n'. induction p as [|s p IH]; intros n n' Hput.
  - by injection Hput as ->.
  - destruct (decide (p = [])) as [->|Hp].
    + apply tree_put_single_inv in Hput as (es & -> & ->).
      by rewrite tree_lookup_cons, lookup_insert_eq.
    + apply tree_put_cons_inv in Hput as (es & c & c' & -> & Hc & Hc' & ->); [|done].
      rewrite tree_lookup_cons, lookup_insert_eq. simpl. by eapply IH.
Qed.

Lemma tree_put_under p r x n n' :
  tree_put p x n = Some n' → tree_lookup (p ++ r) n' = tree_lookup r x.
Proof. intros H. by rewrite tree_lookup_app, (tree_put_eq _ _ _ _ H). Qed.

Lemma tree_put_apart p q x n n' :
  tree_put p x n = Some n' → apart p q → tree_lookup q n' = tree_lookup q n.
Proof.
  revert q n n'. induction p as [|s p IH]; intros q n n' Hput Hpq.
  - by apply apart_nil_l in Hpq.
  - destruct q as [|t q]; [by apply apart_nil_r in Hpq|].
    destruct (decide (p = [])) as [->|Hp].
    + apply tree_put_single_inv in Hput as (es & -> & ->).
      rewrite !tree_lookup_cons. rewrite lookup_insert_ne; [done|].
      intros ->. destruct Hpq as [Hpq _]. apply Hpq, prefix_cons, prefix_nil.
    + apply tree_put_cons_inv in Hput as (es & c & c' & -> & Hc & Hc' & ->); [|done].
      rewrite !tree_lookup_cons.
      destruct (decide (s = t)) as [->|Hne].
      * rewrite lookup_insert_eq, Hc. simpl. apply apart_cons in Hpq. by eapply IH.
      * by rewrite lookup_insert_ne.
Qed.

(** Above the place written to, directories stay directories. *)
Lemma tree_put_above p q x n n' :
  tree_put p x n = Some n' → q `prefix_of` p → q ≠ p →
  ∃ es es', tree_lookup q n = Some (Dir es) ∧ tree_lookup q n' = Some (Dir es').
Proof.
  revert q n n'. induction p as [|s p IH]; intros q n n' Hput Hq Hne.
  - apply prefix_nil_inv in Hq. done.
  - destruct (decide (p = [])) as [->|Hp].
    + apply tree_put_single_inv in Hput as (es & -> & ->).
      destruct q as [|t q]; [simpl; eauto|].
      apply prefix_cons_iff in Hq as [<- Hq]. apply prefix_nil_inv in Hq as ->. done.
    + apply tree_put_cons_inv in Hput as (es & c & c' & -> & Hc & Hc' & ->); [|done].
      destruct q as [|t q]; [simpl; eauto|].
      apply prefix_cons_iff in Hq as [<- Hq].
      rewrite !tree_lookup_cons, lookup_insert_eq, Hc. simpl.
      eapply IH; [done..|congruence].
Qed.

Lemma tree_del_eq p n : p ≠ [] → tree_lookup p (tree_del p n) = None.
Proof.
  revert n. induction p as [|s p IH]; intros n Hne; [done|].
  destruct n as [| |es]; try by destruct p.
  destruct (decide (p = [])) as [->|Hp].
  - by rewrite tree_del_single, tree_lookup_cons, lookup_delete_eq.
  - rewrite tree_del_cons by done. destruct (es !! s) as [c|] eqn:Hc.
    + rewrite tree_lookup_cons, lookup_insert_eq. simpl. by apply IH.
    + by rewrite tree_lookup_cons, Hc.
Qed.

Lemma tree_del_under p r n : p ≠ [] → tree_lookup (p ++ r) (tree_del p n) = None.
Proof. intros H. by rewrite tree_lookup_app, tree_del_eq. Qed.

Lemma tree_del_apart p q n :
  apart p q → tree_lookup q (tree_del p n) = tree_lookup q n.
Proof.
  revert q n. induction p as [|s p IH]; intros q n Hpq.
  - by apply apart_nil_l in Hpq.
  - destruct q as [|t q]; [by apply apart_nil_r in Hpq|].
    destruct n as [| |es]; try by destruct p.
    destruct (decide (p = [])) as [->|Hp].
    + rewrite tree_del_single, !tree_lookup_cons, lookup_delete_ne; [done|].
      intros ->. destruct Hpq as [Hpq _]. apply Hpq, prefix_cons, prefix_nil.
    + rewrite tree_del_cons by done. destruct (es !! s) as [c|] eqn:Hc; [|done].
      rewrite !tree_lookup_cons.
      destruct (decide (s = t)) as [->|Hne].
      * rewrite lookup_insert_eq, Hc. simpl. apply apart_cons in Hpq. by apply IH.
      * by rewrite lookup_insert_ne.
Qed.

(** Above the place removed, what was there keeps its kind. *)
Lemma tree_del_above p q n x :
  q `prefix_of` p → q ≠ p → tree_lookup q n = Some x →
  ∃ x', tree_lookup q (tree_del p n) = Some x' ∧ kind_of x' = kind_of x.
Proof.
  revert q n x. induction p as [|s p IH]; intros q n x Hq Hne Hx.
  - apply prefix_nil_inv in Hq. done.
  - destruct q as [|t q].
    + simpl in Hx. injection Hx as <-.
      destruct n as [| |es]; try (by destruct p; simpl; eauto).
      destruct (decide (p = [])) as [->|Hp]; [simpl; eauto|].
      rewrite tree_del_cons by done. destruct (es !! s); simpl; eauto.
    + apply prefix_cons_iff in Hq as [-> Hq].
      assert (q ≠ p) by congruence.
      destruct n as [| |es]; try done.
      rewrite tree_lookup_cons in Hx.
      destruct (es !! s) as [c|] eqn:Hc; simpl in Hx; [|done].
      assert (p ≠ []) by (intros ->; by apply prefix_nil_inv in Hq).
      rewrite tree_del_cons, Hc, tree_lookup_cons, lookup_insert_eq by done. simpl.
      by apply IH.
Qed.

Lemma tree_mkdirp_frame p q n n' :
  tree_mkdirp p n = Some n' → ¬ q `prefix_of` p → tree_lookup q n' = tree_lookup q n.
Proof.
  revert q n n'. induction p as [|s p IH]; intros q n n' Hmk Hq.
  - destruct n; simpl in Hmk; try done. by injection Hmk as <-.
  - destruct q as [|t q]; [destruct Hq; apply prefix_nil|].
    simpl in Hmk. destruct n as [| |es]; try done.
    destruct (tree_mkdirp p (default (Dir ∅) (es !! s))) as [c'|] eqn:Hc; simpl in Hmk; [|done].
    injection Hmk as <-. rewrite !tree_lookup_cons.
    destruct (decide (s = t)) as [->|Hne].
    + rewrite lookup_insert_eq. simpl.
      assert (¬ q `prefix_of` p) as Hq' by (intros ?; apply Hq; by apply prefix_cons).
      rewrite (IH q _ _ Hc Hq').
      destruct (es !! t) as [c|]; simpl; [done|].
      destruct q; [destruct Hq'; apply prefix_nil|]. by rewrite tree_lookup_cons, lookup_empty.
    + by rewrite lookup_insert_ne.
Qed.

Lemma tree_mkdirp_dir p q n n' :
  tree_mkdirp p n = Some n' → q `prefix_of` p →
  ∃ es', tree_lookup q n' = Some (Dir es') ∧
         (∀ x, tree_lookup q n = Some x → ∃ es, x = Dir es).
Proof.
  revert q n n'. induction p as [|s p IH]; intros q n n' Hmk Hq.
  - apply prefix_nil_inv in Hq as ->.
    destruct n as [| |es]; simpl in Hmk; try done. injection Hmk as <-.
    simpl. eexists; split; [done|]. intros x [= <-]. eauto.
  - simpl in Hmk. destruct n as [| |es]; try done.
    destruct (tree_mkdirp p (default (Dir ∅) (es !! s))) as [c'|] eqn:Hc; simpl in Hmk; [|done].
    injection Hmk as <-.
    destruct q as [|t q].
    + simpl. eexists; split; [done|]. intros x [= <-]. eauto.
    + apply prefix_cons_iff in Hq as [-> Hq].
      rewrite !tree_lookup_cons, lookup_insert_eq. simpl.
      destruct (IH q _ _ Hc Hq) as (es' & H1 & H2).
      exists es'. split; [done|]. intros x Hx.
      destruct (es !! s) as [c|]; simpl in *; [by apply H2 | done].
Qed.

Lemma tree_mkdirp_self p n n' :
  tree_mkdirp p n = Some n' → ∃ es, tree_lookup p n' = Some (Dir es).
Proof.
  intros H. destruct (tree_mkdirp_dir p p n n' H) as (es & ? & _); [done|]. eauto.
Qed.


(** ** Facts about computations *)

Lemma bind_ok {A B} (m : M A) (k : A → M B) w a w1 :
  m w = (Ok a, w1) → bind m k w = k a w1.
Proof. unfold bind. by intros ->. Qed.


Lemma bind_inv {A B} (m : M A) (k : A → M B) w r w' :
  bind m k w = (r, w') →
  (∃ a w1, m w = (Ok a, w1) ∧ k a w1 = (r, w')) ∨ (∃ e, m w = (Throw e, w') ∧ r = Throw e).
Proof.
  unfold bind. destruct (m w) as [[a|e] w1]; [eauto|].
  intros [= <- <-]. eauto.
Qed.

Lemma bind_inv_ok {A B} (m : M A) (k : A → M B) w b w' :
  bind m k w = (Ok b, w') → ∃ a w1, m w = (Ok a, w1) ∧ k a w1 = (Ok b, w').
Proof. intros [H|(e & _ & ?)]%bind_inv; [done|discriminate]. Qed.

Lemma catch_inv {A} (m : M A) (h : Error → M A) w r w' :
  catch m h w = (r, w') →
  (∃ a, m w = (Ok a, w') ∧ r = Ok a) ∨ (∃ e w1, m w = (Throw e, w1) ∧ h e w1 = (r, w')).
Proof.
  unfold catch. destruct (m w) as [[a|e] w1]; [|eauto].
  intros [= <- <-]. eauto.
Qed.

Lemma syscall_inv {A} c (body : M A) w r w' :
  syscall c body w = (r, w') →
  (faults w c = None ∧ body (log c w) = (r, w'))
  ∨ (∃ e, faults w c = Some e ∧ r = Throw (SysError e) ∧ w' = log c w).
Proof.
  unfold syscall. destruct (faults w c) as [e|]; [|eauto].
  intros [= <- <-]. eauto.
Qed.

Lemma syscall_quiet {A} c (body : M A) w :
  faults w c = None → syscall c body w = body (log c w).
Proof. unfold syscall. by intros ->. Qed.

Lemma pathExists_run p w :
  pathExists p w = (Ok (bool_decide (is_Some (tree_lookup p (fs_root w)))), log (CExists p) w).
Proof. done. Qed.


(** ** Sorting by [createdAt] *)

Lemma sorts_before_spec a b :
  sorts_before a b ↔ a = b ∨ OrderedTypeEx.String_as_OT.lt a b.
Proof.
  unfold sorts_before, localeCompare.
  change String.compare with OrderedTypeEx.String_as_OT.cmp.
  destruct (OrderedTypeEx.String_as_OT.cmp a b) eqn:Hc.
  - apply OrderedTypeEx.String_as_OT.cmp_eq in Hc. naive_solver.
  - apply OrderedTypeEx.String_as_OT.cmp_lt in Hc. naive_solver.
  - split; [done|]. intros [->|Hlt].
    + assert (OrderedTypeEx.String_as_OT.cmp b b = Eq) as Hb
        by by apply OrderedTypeEx.String_as_OT.cmp_eq.
      congruence.
    + apply OrderedTypeEx.String_as_OT.cmp_lt in Hlt. congruence.
Qed.

Lemma sorts_before_refl a : sorts_before a a.
Proof. apply sorts_before_spec. by left. Qed.

Lemma sorts_before_trans a b c :
  sorts_before a b → sorts_before b c → sorts_before a c.
Proof.
  rewrite !sorts_before_spec. intros [->|H1] [->|H2]; eauto.
  right. by eapply OrderedTypeEx.String_as_OT.lt_trans.
Qed.

Lemma localeCompare_Lt a b : localeCompare a b = Lt → sorts_before a b.
Proof. unfold sorts_before. congruence. Qed.

Lemma localeCompare_not_Lt a b : localeCompare a b ≠ Lt → sorts_before b a.
Proof.
  unfold sorts_before, localeCompare. rewrite (String.compare_antisym a b).
  destruct (String.compare b a); simpl; congruence.
Qed.

(** [sorts_before] agrees with the boolean order of the library. *)
Lemma sorts_before_leb a b : sorts_before a b ↔ String.leb a b = true.
Proof.
  unfold sorts_before, localeCompare, String.leb.
  destruct (String.compare a b); naive_solver.
Qed.

Section sorting.
Context {A : Type} (key : A → string).

Lemma sort_insert_elem x y l : y ∈ sort_insert (compare_by key) x l ↔ y = x ∨ y ∈ l.
Proof.
  induction l as [|z l IH]; simpl; [set_solver|].
  destruct (compare_by key x z); rewrite ?elem_of_cons, ?IH; set_solver.
Qed.

Lemma sort_insert_sorted x l :
  StronglySorted (ordered_by key) l → StronglySorted (ordered_by key) (sort_insert (compare_by key) x l).
Proof.
  induction 1 as [|z l Hl IH Hz]; simpl; [repeat constructor|].
  destruct (compare_by key x z) eqn:Hc.
  - constructor; [done|]. apply Forall_forall. intros y Hy%sort_insert_elem.
    destruct Hy as [->|Hy]; [|by eapply Forall_forall in Hz].
    apply localeCompare_not_Lt. unfold compare_by in Hc. congruence.
  - assert ((ordered_by key) x z) by (apply localeCompare_Lt; done).
    constructor; [by constructor|]. constructor; [done|].
    eapply Forall_impl; [done|]. intros y Hy. by eapply sorts_before_trans.
  - constructor; [done|]. apply Forall_forall. intros y Hy%sort_insert_elem.
    destruct Hy as [->|Hy]; [|by eapply Forall_forall in Hz].
    apply localeCompare_not_Lt. unfold compare_by in Hc. congruence.
Qed.

Lemma array_sort_acc acc l :
  StronglySorted (ordered_by key) acc →
  StronglySorted (ordered_by key) (foldl (λ acc x, sort_insert (compare_by key) x acc) acc l)
  ∧ ∀ y, y ∈ foldl (λ acc x, sort_insert (compare_by key) x acc) acc l ↔ y ∈ acc ∨ y ∈ l.
Proof.
  revert acc. induction l as [|x l IH]; intros acc Hacc; simpl.
  - split; [done|]. set_solver.
  - destruct (IH (sort_insert (compare_by key) x acc)) as [H1 H2]; [by apply sort_insert_sorted|].
    split; [done|]. intros y. rewrite H2, sort_insert_elem, elem_of_cons. tauto.
Qed.

Lemma sorted_last_max l z :
  StronglySorted (ordered_by key) l → last l = Some z → ∀ y, y ∈ l → (ordered_by key) y z.
Proof.
  induction 1 as [|x l Hl IH Hx]; [done|].
  intros Hlast y Hy. destruct l as [|x' l].
  - injection Hlast as <-. apply list_elem_of_singleton in Hy as ->.
    apply sorts_before_refl.
  - change (last (x' :: l) = Some z) in Hlast.
    apply elem_of_cons in Hy as [->|Hy]; [|by apply IH].
    eapply Forall_forall in Hx; [done|]. by eapply last_Some_elem_of.
Qed.

(** The last element of the sorted array: an element of the array that
    every element sorts at or before. *)
Lemma array_sort_last l z :
  last (array_sort (compare_by key) l) = Some z → z ∈ l ∧ ∀ y, y ∈ l → (ordered_by key) y z.
Proof.
  intros Hlast. unfold array_sort in Hlast.
  destruct (array_sort_acc [] l) as [Hs He]; [constructor|].
  split.
  - apply last_Some_elem_of, He in Hlast. set_solver.
  - intros y Hy. eapply sorted_last_max; [done..|]. apply He. by right.
Qed.

Lemma array_sort_nonempty l : l ≠ [] → is_Some (last (array_sort (compare_by key) l)).
Proof.
  intros Hl. destruct (array_sort_acc [] l) as [_ He]; [constructor|].
  destruct l as [|x l]; [done|].
  destruct (last (array_sort (compare_by key) (x :: l))) eqn:Hlast; [eauto|].
  apply last_None in Hlast. unfold array_sort in Hlast.
  specialize (He x). rewrite Hlast in He. set_solver.
Qed.
End sorting.

(** ** Finding the latest backup *)

Lemma fs_readdir_inv p w entries w' :
  fs_readdir p w = (Ok entries, w') →
  fs_root w' = fs_root w
  ∧ ∃ es, tree_lookup p (fs_root w) = Some (Dir es)
          ∧ ∀ name k, (name, k) ∈ entries ↔ ∃ n, es !! name = Some n ∧ kind_of n = k.
Proof.
  intros [[_ H]|(e & _ & ? & _)]%syscall_inv; [|done].
  change (fs_root (log (CReaddir p) w)) with (fs_root w) in H.
  destruct (tree_lookup p (fs_root w)) as [[| |es]|]; try done.
  injection H as <- <-. split; [done|]. exists es. split; [done|].
  intros name k. rewrite elem_of_map_to_list, lookup_fmap.
  destruct (es !! name) as [n|]; simpl; naive_solver.
Qed.

Lemma fs_readFile_inv p w data w' :
  fs_readFile p w = (Ok data, w') →
  fs_root w' = fs_root w ∧ tree_lookup p (fs_root w) = Some (File data).
Proof.
  intros [[_ H]|(e & _ & ? & _)]%syscall_inv; [|done].
  change (fs_root (log (CReadFile p) w)) with (fs_root w) in H.
  destruct (tree_lookup p (fs_root w)) as [[| |es]|]; try done.
  by injection H as <- <-.
Qed.

Lemma listBackupDirs_inv canonicalRoot w dirs w' :
  listBackupDirs canonicalRoot w = (Ok dirs, w') →
  fs_root w' = fs_root w
  ∧ ∀ dir, dir ∈ dirs ↔
      ∃ name es, dir = path_join (path_join canonicalRoot "backup") name
                 ∧ tree_lookup dir (fs_root w) = Some (Dir es).
Proof.
  unfold listBackupDirs. intros (b & w1 & Hex & H)%bind_inv_ok.
  rewrite pathExists_run in Hex. injection Hex as <- <-.
  set (root := path_join canonicalRoot "backup") in *.
  case_bool_decide as Hroot; simpl in H.
  - apply bind_inv_ok in H as (entries & w2 & Hrd & H).
    apply fs_readdir_inv in Hrd as (Hw2 & es & Hes & Hentries).
    injection H as <- <-. split; [done|].
    change (fs_root (log (CExists root) w)) with (fs_root w) in *.
    intros dir. rewrite list_elem_of_fmap. split.
    + intros ([name k] & -> & [Hk Hin]%list_elem_of_filter). simpl in *. subst k.
      apply Hentries in Hin as (n & Hn & Hkind). destruct n as [| |es']; try done.
      exists name, es'. split; [done|].
      unfold path_join at 1. by rewrite tree_lookup_app, Hes; simpl; rewrite Hn.
    + intros (name & es' & -> & Hdir). exists (name, KDir). split; [done|].
      apply list_elem_of_filter. split; [done|]. apply Hentries.
      unfold path_join at 1 in Hdir. rewrite tree_lookup_app, Hes in Hdir. simpl in Hdir.
      destruct (es !! name) as [n|]; simpl in Hdir; [|done].
      injection Hdir as ->. eauto.
  - injection H as <- <-. split; [done|]. intros dir. split; [by intros ?%elem_of_nil|].
    intros (name & es & -> & Hdir). destruct Hroot.
    unfold path_join at 1 in Hdir. rewrite tree_lookup_app in Hdir.
    change (fs_root (log (CExists root) w)) with (fs_root w).
    destruct (tree_lookup root (fs_root w)); [done|done].
Qed.

Lemma loadBackupManifest_inv dir w r w' :
  loadBackupManifest dir w = (Ok r, w') →
  fs_root w' = fs_root w
  ∧ match r with
    | Some m => tree_lookup (path_join dir MANIFEST_NAME) (fs_root w) = Some (File (Json m))
    | None => tree_lookup (path_join dir MANIFEST_NAME) (fs_root w) = None
    end.
Proof.
  unfold loadBackupManifest. intros (b & w1 & Hex & H)%bind_inv_ok.
  rewrite pathExists_run in Hex. injection Hex as <- <-.
  case_bool_decide as Hm; simpl in H.
  - apply bind_inv_ok in H as (raw & w2 & Hrd & H).
    apply fs_readFile_inv in Hrd as [Hw2 Hraw].
    apply bind_inv_ok in H as (m & w3 & Hparse & H).
    destruct raw as [text|m']; [done|]. injection Hparse as <- <-.
    injection H as <- <-. done.
  - injection H as <- <-. split; [done|].
    change (fs_root (log _ w)) with (fs_root w).
    destruct (tree_lookup (path_join dir MANIFEST_NAME) (fs_root w)) eqn:E; [|done].
    destruct Hm. by eexists.
Qed.

Lemma load_manifests_inv dirs w ms w' :
  load_manifests dirs w = (Ok ms, w') →
  fs_root w' = fs_root w
  ∧ (∀ dir m, (dir, m) ∈ ms →
       dir ∈ dirs ∧ tree_lookup (path_join dir MANIFEST_NAME) (fs_root w) = Some (File (Json m)))
  ∧ (∀ dir, dir ∈ dirs →
       match tree_lookup (path_join dir MANIFEST_NAME) (fs_root w) with
       | Some x => ∃ m, x = File (Json m) ∧ (dir, m) ∈ ms
       | None => True
       end).
Proof.
  revert w ms w'. induction dirs as [|d dirs IH]; intros w ms w' H; simpl in H.
  - injection H as <- <-. split; [done|]. split; [by intros ?? ?%elem_of_nil|].
    by intros ? ?%elem_of_nil.
  - apply bind_inv_ok in H as (r & w1 & Hload & H).
    apply loadBackupManifest_inv in Hload as [Hw1 Hr].
    apply bind_inv_ok in H as (rest & w2 & Hrest & H).
    apply IH in Hrest as (Hw2 & Hsound & Hcomplete). rewrite Hw1 in *.
    injection H as <- <-. split; [done|]. split.
    + intros dir m Hin. destruct r as [m0|].
      * apply elem_of_cons in Hin as [[= -> ->]|Hin]; [split; [left|done]|].
        destruct (Hsound _ _ Hin). split; [by right|done].
      * destruct (Hsound _ _ Hin). split; [by right|done].
    + intros dir [->|Hin]%elem_of_cons.
      * destruct r as [m0|]; rewrite Hr; [|done]. exists m0. split; [done|left].
      * specialize (Hcomplete dir Hin).
        destruct (tree_lookup (path_join dir MANIFEST_NAME) (fs_root w)); [|done].
        destruct Hcomplete as (m & -> & ?). exists m. split; [done|].
        destruct r; [by right|done].
Qed.

Lemma finalized_listed root canonicalRoot dir m :
  finalized root canonicalRoot dir m →
  ∃ name es, dir = path_join (path_join canonicalRoot "backup") name
             ∧ tree_lookup dir root = Some (Dir es).
Proof.
  intros (name & -> & Hm). apply tree_lookup_parent_dir in Hm as [es Hes]. eauto.
Qed.

Lemma findLatestBackup_inv canonicalRoot w latest w' :
  findLatestBackup canonicalRoot w = (Ok latest, w') →
  fs_root w' = fs_root w
  ∧ match latest with
    | Some (dir, m) =>
      finalized (fs_root w) canonicalRoot dir m
      ∧ ∀ dir' m', finalized (fs_root w) canonicalRoot dir' m' →
          sorts_before (BackupManifest.createdAt m') (BackupManifest.createdAt m)
    | None => ∀ dir' m', ¬ finalized (fs_root w) canonicalRoot dir' m'
    end.
Proof.
  unfold findLatestBackup. intros (dirs & w1 & Hdirs & H)%bind_inv_ok.
  apply listBackupDirs_inv in Hdirs as [Hw1 Hdirs].
  apply bind_inv_ok in H as (ms & w2 & Hms & H).
  apply load_manifests_inv in Hms as (Hw2 & Hsound & Hcomplete). rewrite Hw1 in *.
  assert (∀ dir' m', finalized (fs_root w) canonicalRoot dir' m' → (dir', m') ∈ ms) as Hall.
  { intros dir' m' Hfin. pose proof (finalized_listed _ _ _ _ Hfin) as Hlisted.
    apply Hdirs, Hcomplete in Hlisted. destruct Hfin as (name & -> & Hm).
    rewrite Hm in Hlisted. by destruct Hlisted as (? & [= <-] & ?). }
  case_bool_decide as Hlen.
  - injection H as <- <-. split; [done|]. intros dir' m' Hfin%Hall.
    destruct ms; [by apply elem_of_nil in Hfin|done].
  - injection H as <- <-. split; [done|].
    destruct (last (array_sort by_createdAt ms)) as [[dir m]|] eqn:Hlast.
    + apply (array_sort_last (λ x : path * BackupManifest.t, BackupManifest.createdAt (snd x)))
        in Hlast as [Hin Hmax].
      split.
      * apply Hsound in Hin as [Hdir Hm]. apply Hdirs in Hdir as (name & es & -> & _).
        by exists name.
      * intros dir' m' Hfin%Hall. by apply Hmax in Hfin.
    + destruct (array_sort_nonempty
                  (λ x : path * BackupManifest.t, BackupManifest.createdAt (snd x)) ms)
        as [? Hsome]; [by destruct ms|].
      change (compare_by _) with by_createdAt in Hsome. rewrite Hlast in Hsome. done.
Qed.
(** ** The mapping table *)

Lemma last_path_join p s : last (path_join p s) = Some s.
Proof. apply last_snoc. Qed.

Lemma filter_Boolean_Forall (P : path → Prop) l :
  Forall (λ o, ∀ p, o = Some p → P p) l → Forall P (filter_Boolean l).
Proof.
  induction 1 as [|[p|] l Hp _ IH]; simpl; [constructor| |done].
  constructor; [by apply Hp | done].
Qed.

Lemma when_plain b (dir : path) (s : string) :
  s ≠ "AGENTS.md" → s ≠ "CLAUDE.md" → s ≠ "GEMINI.md" →
  ∀ p, when b (path_join dir s) = Some p → ¬ instructions_file p.
Proof.
  intros ??? p. destruct b; simpl; [|done]. intros [= <-].
  unfold instructions_file. rewrite last_path_join. intros [?|[?|?]]; congruence.
Qed.

(** C7. In project scope [getMappings] returns exactly the [commands],
    [hooks] and [skills] mappings, all of kind directory, and neither the
    source nor any target of a mapping is [AGENTS.md], [CLAUDE.md] or
    [GEMINI.md], whatever the roots, the selected clients and the state of
    the file system. *)
Theorem getMappings_project_scope
    (projectRoot homeDir : option path) (clients : option (list Client)) (w : World) :
  ∃ ms w',
    getMappings (MappingOptions.mk project projectRoot homeDir clients) w = (Ok ms, w')
    ∧ Mapping.name <$> ms = ["commands"; "hooks"; "skills"]
    ∧ Forall (λ m, Mapping.kind m = SDir
                   ∧ ¬ instructions_file (Mapping.source m)
                   ∧ Forall (λ t, ¬ instructions_file t) (Mapping.targets m)) ms.
Proof.
  cbv beta iota zeta delta [getMappings bind gets pathExists ret MappingOptions.scope].
  rewrite (bool_decide_eq_false_2 (project = global)) by done. cbn [andb app].
  eexists _, _. split; [reflexivity|]. split; [done|].
  assert (∀ dir s, s ≠ "AGENTS.md" → s ≠ "CLAUDE.md" → s ≠ "GEMINI.md" →
            ¬ instructions_file (path_join dir s)) as Hsrc.
  { intros dir s ???. unfold instructions_file. rewrite last_path_join. intros [?|[?|?]]; congruence. }
  repeat (first [apply Forall_nil_2 | apply Forall_cons_2]);
    (split; [done|split; [by apply Hsrc|]]);
    apply filter_Boolean_Forall;
    repeat (first [apply Forall_nil_2 | apply Forall_cons_2]); by apply when_plain.
Qed.

Lemma path_join_inj p s t : path_join p s = path_join p t → s = t.
Proof. unfold path_join. intros H. apply app_inj_tail in H as [_ ?]. done. Qed.

Lemma removePath_gone p w w' :
  removePath p w = (Ok (), w') → tree_lookup p (fs_root w') = None.
Proof.
  intros [[_ H]|(e & _ & ? & _)]%syscall_inv; [|done].
  destruct p as [|s p]; [done|]. injection H as <-.
  change (tree_lookup (s :: p) (tree_del (s :: p) (fs_root w)) = None).
  by apply tree_del_eq.
Qed.

(** C8. In global scope the [claude-md] mapping (present when Claude is
    selected) has for source the canonical [CLAUDE.md] when that file
    exists and the canonical [AGENTS.md] otherwise, and likewise
    [gemini-md] with [GEMINI.md]; one build of the table tests each
    override exactly once, whatever the number of targets, and changes
    nothing; once the override is removed, the next build routes the
    mapping to [AGENTS.md] again. *)
Theorem getMappings_override_precedence
    (projectRoot homeDir : option path) (clients : option (list Client)) (w : World) :
  let opts := MappingOptions.mk global projectRoot homeDir clients in
  let home := default (os_homedir w) homeDir in
  let canonical := path_join home ".agents" in
  let claudeOverride := path_join canonical "CLAUDE.md" in
  let geminiOverride := path_join canonical "GEMINI.md" in
  let agentsFallback := path_join canonical "AGENTS.md" in
  let present (p : path) (w : World) := bool_decide (is_Some (tree_lookup p (fs_root w))) in
  let selected (c : Client) := bool_decide (c ∈ default all_clients clients) in
  let claude_md (source : path) :=
    if selected claude
    then [Mapping.mk "claude-md" source [path_join (path_join home ".claude") "CLAUDE.md"] SFile]
    else [] in
  let gemini_md (source : path) :=
    if selected gemini
    then [Mapping.mk "gemini-md" source [path_join (path_join home ".gemini") "GEMINI.md"] SFile]
    else [] in
  claudeOverride ≠ agentsFallback ∧ geminiOverride ≠ agentsFallback
  ∧ ∃ ms w',
      getMappings opts w = (Ok ms, w')
      ∧ named "claude-md" ms
        = claude_md (if present claudeOverride w then claudeOverride else agentsFallback)
      ∧ named "gemini-md" ms
        = gemini_md (if present geminiOverride w then geminiOverride else agentsFallback)
      ∧ trace w' = trace w ++ [CExists claudeOverride; CExists geminiOverride]
      ∧ fs_root w' = fs_root w
      ∧ (∀ w1, removePath claudeOverride w' = (Ok (), w1) →
           ∃ ms1 w1', getMappings opts w1 = (Ok ms1, w1')
                      ∧ named "claude-md" ms1 = claude_md agentsFallback)
      ∧ (∀ w1, removePath geminiOverride w' = (Ok (), w1) →
           ∃ ms1 w1', getMappings opts w1 = (Ok ms1, w1')
                      ∧ named "gemini-md" ms1 = gemini_md agentsFallback).
Proof.
  intros opts home canonical claudeOverride geminiOverride agentsFallback present
    selected claude_md gemini_md.
  split; [by intros ?%path_join_inj|]. split; [by intros ?%path_join_inj|].
  assert (∀ w0 : World, os_homedir w0 = os_homedir w →
    ∃ ms w0', getMappings opts w0 = (Ok ms, w0')
      ∧ named "claude-md" ms
        = claude_md (if present claudeOverride w0 then claudeOverride else agentsFallback)
      ∧ named "gemini-md" ms
        = gemini_md (if present geminiOverride w0 then geminiOverride else agentsFallback)
      ∧ trace w0' = trace w0 ++ [CExists claudeOverride; CExists geminiOverride]
      ∧ fs_root w0' = fs_root w0 ∧ os_homedir w0' = os_homedir w0) as Hrun.
  { intros w0 Hhome.
    cbv beta iota zeta delta [getMappings bind gets pathExists ret MappingOptions.scope opts].
    rewrite (bool_decide_eq_true_2 (global = global)) by done.
    eexists _, _. split; [reflexivity|].
    unfold claude_md, gemini_md, selected, present, claudeOverride, geminiOverride,
      agentsFallback, canonical, home, named.
    cbn -[path_join filter filter_Boolean when Nat.ltb tree_lookup app].
    rewrite Hhome, <- !app_assoc.
    repeat split;
      destruct (bool_decide (claude ∈ default all_clients clients)),
        (bool_decide (gemini ∈ default all_clients clients)),
        (bool_decide (factory ∈ default all_clients clients)),
        (bool_decide (codex ∈ default all_clients clients)),
        (bool_decide (opencode ∈ default all_clients clients)); reflexivity. }
  destruct (Hrun w eq_refl) as (ms & w' & Hget & Hc & Hg & Htr & Hroot & Hhome).
  exists ms, w'. repeat (split; [done|]).
  assert (∀ p w1, removePath p w' = (Ok (), w1) → os_homedir w1 = os_homedir w) as Hrm.
  { intros p w1 [[_ H]|(e & _ & ? & _)]%syscall_inv; [|done].
    destruct p; [done|]. injection H as <-. done. }
  split; intros w1 Hw1.
  - destruct (Hrun w1 (Hrm _ _ Hw1)) as (ms1 & w1' & Hget1 & Hc1 & _).
    exists ms1, w1'. split; [done|]. rewrite Hc1. unfold present.
    by rewrite (removePath_gone _ _ _ Hw1), bool_decide_eq_false_2 by (by intros [??]).
  - destruct (Hrun w1 (Hrm _ _ Hw1)) as (ms1 & w1' & Hget1 & _ & Hg1 & _).
    exists ms1, w1'. split; [done|]. rewrite Hg1. unfold present.
    by rewrite (removePath_gone _ _ _ Hw1), bool_decide_eq_false_2 by (by intros [??]).
Qed.

(** ** Undo *)

Lemma undoLastChange_inv opts w r w' :
  undoLastChange opts w = (Ok r, w') →
  let canonicalRoot := ResolvedRoots.canonicalRoot (resolveRoots opts w) in
  ∃ dir m w1 session w2 session' w3 c w4,
    findLatestBackup canonicalRoot w = (Ok (Some (dir, m)), w1)
    ∧ createBackupSession
        (SessionOptions.mk canonicalRoot (RootOptions.scope opts) "undo" None) w1
      = (Ok session, w2)
    ∧ backupExistingOriginals (BackupManifest.entries m) session w2 = (Ok session', w3)
    ∧ foldM undo_entry (Counters.mk 0 0 0 0) (BackupManifest.entries m) w3 = (Ok c, w4)
    ∧ finalizeBackup session' w4 = (Ok (), w')
    ∧ r = RestoreResult.mk (Counters.restored c) (Counters.restoredBackups c)
            (Counters.removedCreated c) (Counters.removedSymlinks c)
            (BackupSession.dir session') dir.
Proof.
  unfold undoLastChange. intros (roots & w0 & Hroots & H)%bind_inv_ok.
  injection Hroots as <- <-.
  apply bind_inv_ok in H as (latest & w1 & Hlatest & H).
  destruct latest as [[dir m]|]; [|done].
  apply bind_inv_ok in H as (session & w2 & Hsession & H).
  apply bind_inv_ok in H as (session' & w3 & Hsweep & H).
  apply bind_inv_ok in H as (c & w4 & Hloop & H).
  apply bind_inv_ok in H as ([] & w5 & Hfin & H).
  injection H as <- <-. simpl. by exists dir, m, w1, session, w2, session', w3, c, w4.
Qed.


(** C9 as stated fails: with no backup at all, [undoLastChange] throws. *)
Lemma undo_without_backups_throws :
  fst (findLatestBackup ["home"; "u"; ".agents"] (world_of home_codex)) = Ok None
  ∧ fst (undoLastChange (RootOptions.mk global None None) (world_of home_codex))
    = Throw (JsError "No backups found to undo.").
Proof. split; vm_compute; reflexivity. Qed.

(** C9, amended. When [findLatestBackup] finds no manifest under the
    canonical root, [undoLastChange] throws the error "No backups found to
    undo." to its caller; it has created no undo session and left the file
    system as it was. *)
Theorem undo_without_backups opts w w1 :
  findLatestBackup (ResolvedRoots.canonicalRoot (resolveRoots opts w)) w = (Ok None, w1) →
  undoLastChange opts w = (Throw (JsError "No backups found to undo."), w1)
  ∧ fs_root w1 = fs_root w
  ∧ ∀ dir m, ¬ finalized (fs_root w) (ResolvedRoots.canonicalRoot (resolveRoots opts w)) dir m.
Proof.
  intros Hfind. split.
  - unfold undoLastChange, gets. unfold bind at 1. unfold bind at 1. by rewrite Hfind.
  - by apply findLatestBackup_inv in Hfind.
Qed.

Lemma undo_without_backups_witness :
  let w := world_of home_codex in
  let opts := RootOptions.mk global None None in
  fst (undoLastChange opts w) = Throw (JsError "No backups found to undo.")
  ∧ fs_root (snd (undoLastChange opts w)) = fs_root w.
Proof.
  intros w opts.
  destruct (undo_without_backups opts w
              (snd (findLatestBackup (ResolvedRoots.canonicalRoot (resolveRoots opts w)) w)))
    as (H1 & H2 & _).
  - vm_compute. reflexivity.
  - rewrite H1. split; [reflexivity | exact H2].
Defined.





(** ** The trace of calls *)

Lemma lift_tree_trace r w res w' : lift_tree r w = (res, w') → trace w' = trace w.
Proof. destruct r; by intros [= <- <-]. Qed.

Lemma lift_tree_throw r w e w' : lift_tree r w = (Throw e, w') → w' = w.
Proof. destruct r; by intros [= <-]. Qed.

Lemma fs_rename_trace src dst w r w' :
  fs_rename src dst w = (r, w') → trace w' = trace w ++ [CRename src dst].
Proof.
  intros [[_ H]|(e & _ & _ & ->)]%syscall_inv; [|done].
  by apply lift_tree_trace in H.
Qed.

Lemma fs_rename_throw src dst w e w' :
  fs_rename src dst w = (Throw e, w') → fs_root w' = fs_root w.
Proof.
  intros [[_ H]|(e' & _ & _ & ->)]%syscall_inv; [|done].
  by apply lift_tree_throw in H as ->.
Qed.

Lemma fs_cp_trace src dst w r w' :
  fs_cp src dst w = (r, w') → trace w' = trace w ++ [CCopy src dst].
Proof.
  intros [[_ H]|(e & _ & _ & ->)]%syscall_inv; [|done].
  by apply lift_tree_trace in H.
Qed.

Lemma fs_copyFile_trace src dst w r w' :
  fs_copyFile src dst w = (r, w') → trace w' = trace w ++ [CCopy src dst].
Proof.
  intros [[_ H]|(e & _ & _ & ->)]%syscall_inv; [|done].
  destruct (tree_lookup src (fs_root (log (CCopy src dst) w))) as [[| |]|];
    try (by injection H as <- <-).
  by apply lift_tree_trace in H.
Qed.

Lemma removePath_trace p w r w' :
  removePath p w = (r, w') → trace w' = trace w ++ [CRm p].
Proof.
  intros [[_ H]|(e & _ & _ & ->)]%syscall_inv; [|done].
  destruct p; [by injection H as <- <-|]. by apply lift_tree_trace in H.
Qed.

(** The shape shared by [backupPathImpl] and [restorePath]. *)
Lemma rename_or_copy src dst (copy : M unit) w0 r w' :
  (∀ w r w', copy w = (r, w') → trace w' = trace w ++ [CCopy src dst]) →
  catch (fs_rename src dst) (λ err,
    if negb (is_EXDEV err) then throw err else copy;; removePath src) w0 = (r, w') →
  rename_then_fallback src dst w0 r w'.
Proof.
  intros Hcopy [([] & Hmv & ->)|(e & w1 & Hmv & H)]%catch_inv; unfold rename_then_fallback.
  - exists []. rewrite Hmv. split; [by eapply fs_rename_trace|done].
  - rewrite Hmv. simpl. pose proof (fs_rename_trace _ _ _ _ _ Hmv) as Htr.
    pose proof (fs_rename_throw _ _ _ _ _ Hmv) as Hroot.
    destruct (is_EXDEV e) eqn:Hex; simpl in H.
    + assert (e = SysError EXDEV) as -> by (by destruct e as [[]|]).
      apply bind_inv in H as [([] & w2 & Hc & Hrm)|(err & Hc & ->)].
      * exists [CCopy src dst; CRm src]. split; [|by left].
        rewrite (removePath_trace _ _ _ _ Hrm), (Hcopy _ _ _ Hc), Htr.
        by rewrite <- !app_assoc.
      * exists [CCopy src dst]. split; [|right; eauto].
        rewrite (Hcopy _ _ _ Hc), Htr. by rewrite <- !app_assoc.
    + injection H as <- <-. exists []. split; [done|].
      destruct e as [[]|]; try done.
Qed.

(** C6. Once the parent of the destination is there, a file or a
    directory moved into the backup tree ([backupPathImpl]) or out of it
    ([restorePath] on a [backup] entry that is no symlink) is first
    renamed; the copy and the removal of the source follow only a rename
    that failed with [EXDEV]; any other failure of the rename is the
    result of the move, and no further call is made. *)
Theorem move_renames_first :
  (∀ target dest kind w w0 r w',
     ensureDir (path_dirname dest) w = (Ok (), w0) →
     backupPathImpl target dest kind w = (r, w') →
     rename_then_fallback target dest w0 r w')
  ∧ (∀ entry backup w w0 r w',
       BackupEntry.action entry = ABackup →
       BackupEntry.backupPath entry = Some backup →
       BackupEntry.kind entry ≠ KSymlink →
       ensureDir (path_dirname (BackupEntry.originalPath entry)) w = (Ok (), w0) →
       restorePath entry w = (r, w') →
       rename_then_fallback backup (BackupEntry.originalPath entry) w0 r w').
Proof.
  split.
  - intros target dest kind w w0 r w' Hdir H.
    unfold backupPathImpl in H. rewrite (bind_ok _ _ _ _ _ Hdir) in H.
    eapply rename_or_copy; [|exact H].
    intros w1 r1 w1'. destruct kind; [apply fs_copyFile_trace|apply fs_cp_trace|apply fs_copyFile_trace].
  - intros entry backup w w0 r w' Hact Hbackup Hkind Hdir H.
    unfold restorePath in H. rewrite Hact, Hbackup in H.
    destruct (BackupEntry.kind entry) eqn:Hk; [| |done];
      rewrite (bind_ok _ _ _ _ _ Hdir) in H;
      (eapply rename_or_copy; [|exact H]); intros w1 r1 w1';
      [apply fs_copyFile_trace|apply fs_cp_trace].
Qed.

(** ** Applying a plan without [force] *)

Lemma kept_refl root : kept root root.
Proof. by intros p s. Qed.

Lemma kept_trans r1 r2 r3 : kept r1 r2 → kept r2 r3 → kept r1 r3.
Proof. intros H1 H2 p s ?. by apply H2, H1. Qed.

Lemma prefix_cases (p q : path) :
  p `prefix_of` q ∨ (q `prefix_of` p ∧ q ≠ p) ∨ apart p q.
Proof.
  destruct (decide (p `prefix_of` q)); [by left|].
  destruct (decide (q `prefix_of` p)); [|by right; right].
  right; left. split; [done|]. by intros ->.
Qed.

Lemma tree_create_inv p x n n' :
  tree_create p x n = inr n' → tree_put p x n = Some n'.
Proof.
  unfold tree_create. destruct (tree_lookup (path_dirname p) n) as [[| |]|]; try done.
  destruct (tree_put p x n); simpl; congruence.
Qed.

Lemma tree_create_kept p x n n' :
  tree_lookup p n = None → tree_create p x n = inr n' → kept n n'.
Proof.
  intros Hnone Hput%tree_create_inv q s. unfold stat_at.
  destruct (prefix_cases p q) as [Hpq|[[Hqp Hne]|Hap]].
  - by rewrite (tree_lookup_prefix _ _ _ Hpq Hnone).
  - destruct (tree_put_above _ _ _ _ _ Hput Hqp Hne) as (es & es' & -> & ->). done.
  - by rewrite (tree_put_apart _ _ _ _ _ Hput Hap).
Qed.

Lemma tree_mkdirp_kept p n n' : tree_mkdirp p n = Some n' → kept n n'.
Proof.
  intros Hmk q s. unfold stat_at.
  destruct (decide (q `prefix_of` p)) as [Hq|Hq].
  - destruct (tree_mkdirp_dir _ _ _ _ Hmk Hq) as (es' & -> & Hdir).
    destruct (tree_lookup q n) as [x|]; [|done].
    destruct (Hdir x eq_refl) as [es ->]. done.
  - by rewrite (tree_mkdirp_frame _ _ _ _ Hmk Hq).
Qed.

Lemma ensureDir_kept p w r w' : ensureDir p w = (r, w') → kept (fs_root w) (fs_root w').
Proof.
  intros [[_ H]|(e & _ & _ & ->)]%syscall_inv; [|apply kept_refl].
  change (fs_root (log (CMkdir p) w)) with (fs_root w) in H.
  destruct (tree_mkdirp p (fs_root w)) as [n'|] eqn:Hmk; simpl in H; injection H as <- <-.
  - by eapply tree_mkdirp_kept.
  - apply kept_refl.
Qed.

Lemma fs_symlink_kept text p ty w r w' :
  fs_symlink text p ty w = (r, w') → kept (fs_root w) (fs_root w').
Proof.
  intros [[_ H]|(e & _ & _ & ->)]%syscall_inv; [|apply kept_refl].
  change (fs_root (log (CSymlink text p ty) w)) with (fs_root w) in H.
  destruct (tree_lookup p (fs_root w)) eqn:Hp; [injection H as <- <-; apply kept_refl|].
  destruct (tree_create p (Symlink text) (fs_root w)) as [e|n'] eqn:Hc;
    simpl in H; injection H as <- <-; [apply kept_refl|].
  by eapply tree_create_kept.
Qed.

Lemma ensureFile_kept p content w r w' :
  ensureFile p content w = (r, w') → kept (fs_root w) (fs_root w').
Proof.
  unfold ensureFile. intros [([] & w1 & Hdir & H)|(e & Hdir & ->)]%bind_inv;
    [|by eapply ensureDir_kept].
  eapply kept_trans; [by eapply ensureDir_kept|].
  apply bind_inv in H as [(b & w2 & Hex & H)|(e & Hex & ->)]; [|done].
  rewrite pathExists_run in Hex. injection Hex as <- <-.
  case_bool_decide as Hp; [injection H as <- <-; apply kept_refl|].
  apply syscall_inv in H as [[_ H]|(e & _ & _ & ->)]; [|apply kept_refl].
  change (fs_root (log _ (log _ w1))) with (fs_root w1) in *.
  destruct (tree_lookup p (fs_root w1)) eqn:Hl; [destruct Hp; by eexists|].
  destruct (tree_create p (File (Utf8 content)) (fs_root w1)) as [e|n'] eqn:Hc;
    simpl in H; injection H as <- <-; [apply kept_refl|].
  by eapply tree_create_kept.
Qed.

Lemma createLink_unforced_kept source target kind backupDir w r w' :
  createLink source target kind false backupDir w = (r, w') →
  kept (fs_root w) (fs_root w').
Proof.
  unfold createLink. intros [(b & w1 & Hex & H)|(e & Hex & ->)]%bind_inv; [|done].
  rewrite pathExists_run in Hex. injection Hex as <- <-.
  destruct (bool_decide _); simpl in H; [injection H as <- <-; apply kept_refl|].
  apply bind_inv in H as [([] & w2 & Hdir & H)|(e & Hdir & ->)];
    [|by eapply ensureDir_kept in Hdir].
  eapply kept_trans; [by eapply ensureDir_kept in Hdir|].
  apply bind_inv in H as [([] & w3 & Hln & H)|(e & Hln & ->)];
    [|by eapply fs_symlink_kept].
  injection H as <- <-. by eapply fs_symlink_kept.
Qed.

Lemma apply_task_unforced_kept c task w r w' :
  apply_task false None c task w = (r, w') → kept (fs_root w) (fs_root w').
Proof.
  destruct c as [[[applied skipped] conflicts] backedUp].
  destruct task as [source target kind rs|source target kind reason|source target kind|p kind];
    simpl.
  - intros [(b & w1 & Hex & H)|(e & Hex & ->)]%bind_inv; [|done].
    rewrite pathExists_run in Hex. injection Hex as <- <-.
    apply bind_inv in H as [(res & w2 & Hln & H)|(e & Hln & ->)];
      [|by eapply createLink_unforced_kept in Hln].
    apply createLink_unforced_kept in Hln.
    destruct (_ && _); by injection H as <- <-.
  - intros [= <- <-]. apply kept_refl.
  - intros [= <- <-]. apply kept_refl.
  - intros [([] & w1 & Hsrc & H)|(e & Hsrc & ->)]%bind_inv.
    + injection H as <- <-. destruct kind; [by eapply ensureFile_kept|by eapply ensureDir_kept].
    + destruct kind; [by eapply ensureFile_kept|by eapply ensureDir_kept].
Qed.

Lemma apply_tasks_unforced_kept tasks c w r w' :
  foldM (apply_task false None) c tasks w = (r, w') → kept (fs_root w) (fs_root w').
Proof.
  revert c w. induction tasks as [|task tasks IH]; intros c w H; simpl in H.
  - injection H as <- <-. apply kept_refl.
  - apply bind_inv in H as [(c1 & w1 & Hstep & H)|(e & Hstep & ->)].
    + eapply kept_trans; [by eapply apply_task_unforced_kept|by eapply IH].
    + by eapply apply_task_unforced_kept.
Qed.

Lemma apply_tasks_unforced_counts tasks c w c' w' :
  foldM (apply_task false None) c tasks w = (Ok c', w') →
  let '(applied, skipped, conflicts, backedUp) := c in
  let '(applied', skipped', conflicts', backedUp') := c' in
  conflicts' = conflicts + length (filter (λ t, is_conflict t = true) tasks)
  ∧ applied' + skipped' = applied + skipped + length (filter (λ t, is_conflict t = false) tasks)
  ∧ backedUp' = backedUp.
Proof.
  revert c w. induction tasks as [|task tasks IH]; intros c w H; simpl in H.
  - injection H as <- <-. destruct c as [[[??]?]?]. simpl. lia.
  - apply bind_inv_ok in H as (c1 & w1 & Hstep & H). apply IH in H.
    destruct c as [[[applied skipped] conflicts] backedUp].
    destruct c1 as [[[applied1 skipped1] conflicts1] backedUp1].
    destruct c' as [[[applied' skipped'] conflicts'] backedUp'].
    assert (conflicts1 = conflicts + (if is_conflict task then 1 else 0)
            ∧ applied1 + skipped1 = applied + skipped + (if is_conflict task then 0 else 1)
            ∧ backedUp1 = backedUp) as (-> & Has & ->).
    { destruct task as [source target kind rs|source target kind reason|source target kind|p kind];
        simpl in Hstep.
      - apply bind_inv_ok in Hstep as (b & w2 & Hex & Hstep).
        apply bind_inv_ok in Hstep as ([created bk] & w3 & Hln & Hstep).
        assert (bk = false) as ->.
        { unfold createLink in Hln. apply bind_inv_ok in Hln as (b' & w4 & _ & Hln).
          destruct b'; simpl in Hln; [by injection Hln as <- <-|].
          apply bind_inv_ok in Hln as ([] & ? & _ & Hln).
          apply bind_inv_ok in Hln as ([] & ? & _ & Hln). by injection Hln. }
        simpl in Hstep. destruct (b && _); injection Hstep as <- <- <- <-; simpl; lia.
      - injection Hstep as <- <- <- <-. simpl. lia.
      - injection Hstep as <- <- <- <-. simpl. lia.
      - apply bind_inv_ok in Hstep as ([] & w2 & _ & Hstep).
        injection Hstep as <- <- <- <-. simpl. lia. }
    rewrite !filter_cons. destruct (is_conflict task) eqn:Hc.
    + rewrite decide_True by done. rewrite decide_False by done. simpl. lia.
    + rewrite decide_False by done. rewrite decide_True by done. simpl. lia.
Qed.

(** C2. When [force] is unset or false, [applyLinkPlan], whether it
    returns or throws, has deleted or replaced nothing: every path of the
    file system, the targets of the conflict tasks and what lies beneath
    them included, holds the file, the link or a directory as before.  The
    turn of a conflict task leaves the world as it is and adds one to
    [conflicts]; the total returned is the number of conflict tasks, which
    add to neither [applied] nor [skipped]. *)
Theorem conflicts_left_alone plan opts w r w' :
  default false (opts ≫= ApplyOptions.force) = false →
  applyLinkPlan plan opts w = (r, w') →
  kept (fs_root w) (fs_root w')
  ∧ (∀ source target kind reason applied skipped conflicts backedUp w0,
       apply_task false None (applied, skipped, conflicts, backedUp)
         (TConflict source target kind reason) w0
       = (Ok (applied, skipped, S conflicts, backedUp), w0))
  ∧ (∀ res, r = Ok res →
       ApplyResult.conflicts res
       = length (filter (λ t, is_conflict t = true) (LinkPlan.tasks plan))
       ∧ ApplyResult.applied res + ApplyResult.skipped res
         = length (filter (λ t, is_conflict t = false) (LinkPlan.tasks plan))
       ∧ ApplyResult.backedUp res = 0
       ∧ ApplyResult.backupDir res = None).
Proof.
  intros Hforce H. unfold applyLinkPlan in H. rewrite Hforce in H.
  change (bind (ret None) ?k w) with (k None w) in H. cbv beta in H.
  split; [|split; [done|]].
  - apply bind_inv in H as [(c & w1 & Hloop & H)|(e & Hloop & ->)].
    + destruct c as [[[??]?]?]. injection H as <- <-. by eapply apply_tasks_unforced_kept.
    + by eapply apply_tasks_unforced_kept.
  - intros res ->. apply bind_inv_ok in H as (c & w1 & Hloop & H).
    apply apply_tasks_unforced_counts in Hloop.
    destruct c as [[[applied skipped] conflicts] backedUp].
    injection H as <- <-. simpl in *. intuition.
Qed.

(** ** Applying a plan with [force] *)

(** On a POSIX path the first segment of the split is empty, so the loop
    of [commonPath] stops at once: no backup directory is ever inferred. *)
Lemma commonPath_none paths : commonPath paths = None.
Proof.
  destruct paths as [|p paths]; [done|]. unfold commonPath.
  assert (∀ steps, shared_segments (split_sep <$> p :: paths) steps 0 = []) as ->; [|done].
  intros [|steps]; [done|]. by destruct p.
Qed.

Lemma inferBackupDir_none plan w : inferBackupDir plan w = (Ok None, w).
Proof. unfold inferBackupDir. by rewrite commonPath_none. Qed.

(** C3 fails on [applyLinkPlan] as it stands.  A stale link at a target
    is removed under [force] without any copy of it being made, although a
    backup directory was given; and in the scenario of [tests/undo.test.ts]
    a real directory at the target is removed with its file, nothing is
    moved to a backup, the manifest the session writes has no entry, and
    the undo the test expects to restore the directory restores nothing. *)
Theorem forced_replace_without_backup :
  let opts := Some (ApplyOptions.mk (Some true) (Some backup_t1)) in
  let out := applyLinkPlan plan_relink opts (world_of home_stale_link) in
  let test := undo_test (world_of home_codex) in
  tree_lookup claude_commands home_stale_link = Some (Symlink "/old/commands")
  ∧ fst out = Ok (ApplyResult.mk 1 0 0 (Some backup_t1) 0)
  ∧ tree_lookup claude_commands (fs_root (snd out)) = Some (Symlink "/home/u/.agents/commands")
  ∧ tree_lookup backup_t1 (fs_root (snd out)) = None
  ∧ trace (snd out)
    = [CExists claude_commands; CExists claude_commands; CExists claude_commands;
       CLstat claude_commands; CRm claude_commands; CMkdir (path_dirname claude_commands);
       CSymlink "/home/u/.agents/commands" claude_commands (Some junction)]
  ∧ (RestoreResult.restored <$> match fst test with Ok r => Some r | Throw _ => None end)
    = Some 0
  ∧ tree_lookup codex_prompts (fs_root (snd test)) = Some (Symlink "/home/u/.agents/commands")
  ∧ Forall (λ c, match c with CRename _ _ | CCopy _ _ => False | _ => True end)
      (trace (snd test)).
Proof.
  repeat split; try (vm_compute; reflexivity).
  vm_compute. repeat constructor.
Qed.

(** ** Moving a node *)

Lemma path_dirname_prefix p : path_dirname p `prefix_of` p.
Proof. unfold path_dirname. apply prefix_take. Qed.

Lemma path_dirname_join p s : path_dirname (path_join p s) = p.
Proof.
  unfold path_dirname, path_join. rewrite length_app. simpl.
  replace (pred (length p + 1)) with (length p) by lia. by rewrite take_app_length.
Qed.


Lemma prefix_strict_dirname (q p : path) :
  q `prefix_of` p → q ≠ p → q `prefix_of` path_dirname p.
Proof.
  intros [r ->] Hne. destruct r as [|s r' _] using rev_ind.
  - by rewrite app_nil_r in Hne.
  - rewrite app_assoc. change ((q ++ r') ++ [s]) with (path_join (q ++ r') s).
    rewrite path_dirname_join. by apply prefix_app_r.
Qed.

Lemma prefix_comparable (p q l : path) :
  p `prefix_of` l → q `prefix_of` l → p `prefix_of` q ∨ q `prefix_of` p.
Proof. intros. by eapply prefix_weak_total. Qed.

Lemma apart_under p q r : apart p q → apart (p ++ r) q.
Proof.
  intros [Hpq Hqp]. split.
  - intros H. apply Hpq. etrans; [|done]. by apply prefix_app_r.
  - intros H. destruct (prefix_comparable p q (p ++ r)); [by apply prefix_app_r|done|done..].
Qed.



Lemma stat_at_dir q n es : tree_lookup q n = Some (Dir es) → stat_at q n = Some ShDir.
Proof. unfold stat_at. by intros ->. Qed.

Lemma stat_at_dir_inv q n : stat_at q n = Some ShDir → ∃ es, tree_lookup q n = Some (Dir es).
Proof. unfold stat_at. destruct (tree_lookup q n) as [[| |es]|]; try done. eauto. Qed.

Lemma tree_del_above_dir p q n es :
  q `prefix_of` p → q ≠ p → tree_lookup q n = Some (Dir es) →
  ∃ es', tree_lookup q (tree_del p n) = Some (Dir es').
Proof.
  intros Hq Hne Hl. destruct (tree_del_above p q n _ Hq Hne Hl) as (x' & -> & Hk).
  destruct x'; try done. eauto.
Qed.

(** Outside of [src] and [dst], after [mkdir -p] of the parent of [dst],
    removal of [src] and placement at [dst], in either order. *)
Lemma tree_move_aside src dst x y n n1 n2 n' q :
  apart src dst →
  tree_lookup src n = Some x →
  tree_mkdirp (path_dirname dst) n = Some n1 →
  (tree_put dst y (tree_del src n1) = Some n'
   ∨ (tree_put dst y n1 = Some n2 ∧ n' = tree_del src n2)) →
  ¬ src `prefix_of` q → ¬ dst `prefix_of` q →
  (apart q src → apart q dst → tree_lookup q n' = tree_lookup q n)
  ∧ (stat_at q n' = stat_at q n
     ∨ (stat_at q n = None ∧ stat_at q n' = Some ShDir ∧ q `prefix_of` dst)).
Proof.
  intros Hsd Hx Hmk Hmove Hsq Hdq.
  assert (apart q src → apart q dst → tree_lookup q n' = tree_lookup q n) as Hfar.
  { intros Hqs Hqd.
    assert (tree_lookup q n1 = tree_lookup q n) as <-.
    { eapply tree_mkdirp_frame; [done|]. intros H. apply (proj1 Hqd).
      etrans; [done|]. apply path_dirname_prefix. }
    destruct Hmove as [Hput|[Hput ->]].
    - rewrite (tree_put_apart _ _ _ _ _ Hput (apart_sym _ _ Hqd)).
      by apply tree_del_apart, apart_sym.
    - rewrite (tree_del_apart _ _ _ (apart_sym _ _ Hqs)).
      by apply (tree_put_apart _ _ _ _ _ Hput), apart_sym. }
  split; [done|].
  destruct (decide (q `prefix_of` src)) as [Hqs|Hqs];
    destruct (decide (q `prefix_of` dst)) as [Hqd|Hqd].
  - (* above both *)
    assert (q ≠ src) as Hne1 by (intros ->; by apply Hsq).
    assert (q ≠ dst) as Hne2 by (intros ->; by apply Hdq).
    destruct Hqs as [r Hr].
    assert (∃ es, tree_lookup q n = Some (Dir es)) as [es Hq].
    { rewrite Hr, tree_lookup_app in Hx.
      destruct (tree_lookup q n) as [[| |es]|] eqn:E; simpl in Hx; try done; [| |eauto];
        destruct r; simpl in Hx; try done; by rewrite app_nil_r in Hr. }
    destruct (tree_mkdirp_dir _ q _ _ Hmk) as (es1 & Hq1 & _);
      [by apply prefix_strict_dirname|].
    left. rewrite (stat_at_dir _ _ _ Hq).
    destruct Hmove as [Hput|[Hput ->]].
    + destruct (tree_put_above _ q _ _ _ Hput) as (? & es' & _ & Hq'); [done..|].
      by rewrite (stat_at_dir _ _ _ Hq').
    + destruct (tree_put_above _ q _ _ _ Hput) as (? & es2 & _ & Hq2); [done..|].
      destruct (tree_del_above_dir src q n2 es2) as [es' Hq']; [by exists r|done..|].
      by rewrite (stat_at_dir _ _ _ Hq').
  - (* above the source only *)
    assert (q ≠ src) as Hne1 by (intros ->; by apply Hsq).
    assert (apart q dst) as Hap by done.
    destruct Hqs as [r Hr].
    assert (∃ es, tree_lookup q n = Some (Dir es)) as [es Hq].
    { rewrite Hr, tree_lookup_app in Hx.
      destruct (tree_lookup q n) as [[| |es]|] eqn:E; simpl in Hx; try done; [| |eauto];
        destruct r; simpl in Hx; try done; by rewrite app_nil_r in Hr. }
    assert (tree_lookup q n1 = Some (Dir es)) as Hq1.
    { rewrite <- Hq. eapply tree_mkdirp_frame; [done|]. intros H. apply Hqd.
      etrans; [done|]. apply path_dirname_prefix. }
    left. rewrite (stat_at_dir _ _ _ Hq).
    destruct Hmove as [Hput|[Hput ->]].
    + destruct (tree_del_above_dir src q n1 es) as [es' Hq']; [by exists r|done..|].
      rewrite <- (tree_put_apart _ _ _ _ _ Hput (apart_sym _ _ Hap)) in Hq'.
      by rewrite (stat_at_dir _ _ _ Hq').
    + rewrite <- (tree_put_apart _ _ _ _ _ Hput (apart_sym _ _ Hap)) in Hq1.
      destruct (tree_del_above_dir src q n2 es) as [es' Hq']; [by exists r|done..|].
      by rewrite (stat_at_dir _ _ _ Hq').
  - (* above the destination only *)
    assert (q ≠ dst) as Hne2 by (intros ->; by apply Hdq).
    assert (apart q src) as Hap by done.
    destruct (tree_mkdirp_dir _ q _ _ Hmk) as (es1 & Hq1 & Hwas);
      [by apply prefix_strict_dirname|].
    assert (stat_at q n' = Some ShDir) as Hq'.
    { destruct Hmove as [Hput|[Hput ->]].
      - destruct (tree_put_above _ q _ _ _ Hput) as (? & es' & _ & Hq'); [done..|].
        by rewrite (stat_at_dir _ _ _ Hq').
      - destruct (tree_put_above _ q _ _ _ Hput) as (? & es2 & _ & Hq2); [done..|].
        rewrite <- (tree_del_apart src q n2 (apart_sym _ _ Hap)) in Hq2.
        by rewrite (stat_at_dir _ _ _ Hq2). }
    rewrite Hq'. unfold stat_at.
    destruct (tree_lookup q n) as [y0|] eqn:E; [|by right].
    destruct (Hwas y0 eq_refl) as [es ->]. by left.
  - left. unfold stat_at. by rewrite Hfar.
Qed.

Lemma tree_move src dst x y n n1 n2 n' :
  src ≠ [] → apart src dst →
  tree_lookup src n = Some x →
  tree_mkdirp (path_dirname dst) n = Some n1 →
  (tree_put dst y (tree_del src n1) = Some n'
   ∨ (tree_put dst y n1 = Some n2 ∧ n' = tree_del src n2)) →
  moved src dst y n n'.
Proof.
  intros Hsrc Hsd Hx Hmk Hmove. split; [|split; [|split]].
  - intros r. destruct Hmove as [Hput|[Hput ->]].
    + rewrite (tree_put_apart _ _ _ _ _ Hput); [by apply tree_del_under|].
      by apply apart_sym, apart_under.
    + by apply tree_del_under.
  - intros r. destruct Hmove as [Hput|[Hput ->]].
    + by eapply tree_put_under.
    + rewrite tree_del_apart; [by eapply tree_put_under|].
      by apply apart_sym, apart_under, apart_sym.
  - intros q ??. by eapply tree_move_aside.
  - intros q Hqs Hqd.
    eapply (tree_move_aside src dst x y n n1 n2 n' q); try done; [apply Hqs|apply Hqd].
Qed.

(** ** What the calls do when they return *)

Lemma fs_lstat_inv p w k w' :
  fs_lstat p w = (Ok k, w') →
  fs_root w' = fs_root w ∧ ∃ x, tree_lookup p (fs_root w) = Some x ∧ k = kind_of x.
Proof.
  intros [[_ H]|(e & _ & ? & _)]%syscall_inv; [|done].
  change (fs_root (log (CLstat p) w)) with (fs_root w) in H.
  destruct (tree_lookup p (fs_root w)) as [x|]; [|done].
  injection H as <- <-. eauto.
Qed.

Lemma fs_readlink_inv p w text w' :
  fs_readlink p w = (Ok text, w') →
  fs_root w' = fs_root w ∧ tree_lookup p (fs_root w) = Some (Symlink text).
Proof.
  intros [[_ H]|(e & _ & ? & _)]%syscall_inv; [|done].
  change (fs_root (log (CReadlink p) w)) with (fs_root w) in H.
  destruct (tree_lookup p (fs_root w)) as [[| |]|]; try done.
  by injection H as <- <-.
Qed.

Lemma lift_tree_inv r w w' :
  lift_tree r w = (Ok (), w') → r = inr (fs_root w').
Proof. destruct r; [done|]. by intros [= <-]. Qed.

Lemma ensureDir_inv p w w' :
  ensureDir p w = (Ok (), w') → tree_mkdirp p (fs_root w) = Some (fs_root w').
Proof.
  intros [[_ H]|(e & _ & ? & _)]%syscall_inv; [|done].
  apply lift_tree_inv in H. change (fs_root (log (CMkdir p) w)) with (fs_root w) in H.
  destruct (tree_mkdirp p (fs_root w)); simpl in H; congruence.
Qed.

Lemma fs_rename_inv src dst w w' :
  fs_rename src dst w = (Ok (), w') → tree_rename src dst (fs_root w) = inr (fs_root w').
Proof.
  intros [[_ H]|(e & _ & ? & _)]%syscall_inv; [|done]. by apply lift_tree_inv in H.
Qed.

Lemma fs_symlink_inv text p ty w w' :
  fs_symlink text p ty w = (Ok (), w') →
  tree_lookup p (fs_root w) = None
  ∧ tree_put p (Symlink text) (fs_root w) = Some (fs_root w').
Proof.
  intros [[_ H]|(e & _ & ? & _)]%syscall_inv; [|done].
  change (fs_root (log (CSymlink text p ty) w)) with (fs_root w) in H.
  destruct (tree_lookup p (fs_root w)); [done|]. split; [done|].
  apply lift_tree_inv in H. by apply tree_create_inv.
Qed.

Lemma fs_unlink_inv p w w' :
  fs_unlink p w = (Ok (), w') → fs_root w' = tree_del p (fs_root w).
Proof.
  intros [[_ H]|(e & _ & ? & _)]%syscall_inv; [|done].
  change (fs_root (log (CUnlink p) w)) with (fs_root w) in H.
  destruct (tree_lookup p (fs_root w)) as [[| |]|]; try done;
    apply lift_tree_inv in H; by injection H as <-.
Qed.

Lemma removePath_inv p w w' :
  removePath p w = (Ok (), w') → p ≠ [] ∧ fs_root w' = tree_del p (fs_root w).
Proof.
  intros [[_ H]|(e & _ & ? & _)]%syscall_inv; [|done].
  destruct p; [done|]. split; [done|]. apply lift_tree_inv in H. by injection H as <-.
Qed.

Lemma fs_cp_inv src dst w w' :
  fs_cp src dst w = (Ok (), w') → tree_copy src dst (fs_root w) = inr (fs_root w').
Proof.
  intros [[_ H]|(e & _ & ? & _)]%syscall_inv; [|done]. by apply lift_tree_inv in H.
Qed.

Lemma fs_copyFile_inv src dst w w' :
  fs_copyFile src dst w = (Ok (), w') → tree_copy src dst (fs_root w) = inr (fs_root w').
Proof.
  intros [[_ H]|(e & _ & ? & _)]%syscall_inv; [|done].
  change (fs_root (log (CCopy src dst) w)) with (fs_root w) in H.
  destruct (tree_lookup src (fs_root w)) as [[| |]|]; try done. by apply lift_tree_inv in H.
Qed.

Lemma tree_rename_inv src dst n n' :
  tree_rename src dst n = inr n' → src ≠ dst →
  ∃ x, tree_lookup src n = Some x ∧ ¬ src `prefix_of` dst
       ∧ tree_put dst x (tree_del src n) = Some n'.
Proof.
  unfold tree_rename. intros H Hne.
  destruct (tree_lookup src n) as [x|]; [|done].
  rewrite decide_False in H by done.
  destruct (decide (src `prefix_of` dst)); [done|].
  exists x. split; [done|]. split; [done|]. apply tree_create_inv.
  destruct (tree_lookup dst n) as [[| |]|], x; try done.
  by destruct (is_empty_dir _).
Qed.

Lemma tree_copy_inv src dst n n' :
  tree_copy src dst n = inr n' →
  ∃ x y, tree_lookup src n = Some x ∧ ¬ src `prefix_of` dst
         ∧ tree_put dst y n = Some n' ∧ (tree_lookup dst n = None → y = x).
Proof.
  unfold tree_copy. intros H.
  destruct (tree_lookup src n) as [x|]; [|done].
  destruct (decide (src `prefix_of` dst)); [done|].
  destruct (tree_lookup dst n) as [[| |ed]|] eqn:Hd, x as [| |es] eqn:Hx; try done;
    apply tree_create_inv in H; eauto 10.
  eexists _, _. split; [done|]. split; [done|]. split; [done|]. done.
Qed.

(** ** Backing up a path *)

Lemma startsWithSep_spec resolved parent :
  startsWithSep resolved parent = true
  ↔ parent ≠ [] ∧ parent `prefix_of` resolved ∧ parent ≠ resolved.
Proof.
  unfold startsWithSep. destruct parent as [|s parent]; [naive_solver|].
  rewrite andb_true_iff, !bool_decide_eq_true. naive_solver.
Qed.

Lemma hasParentPath_spec target seen :
  hasParentPath target seen = true
  ↔ ∃ parent, parent ∈ seen ∧ (target = parent ∨ startsWithSep target parent = true).
Proof.
  unfold hasParentPath. rewrite bool_decide_eq_true. unfold set_Exists.
  split; intros (parent & ? & [?|?]); exists parent; split; auto; right;
    first [by apply Is_true_true | by apply Is_true_true_2].
Qed.

Lemma hasParentPath_recorded target session :
  [] ∉ BackupSession._seen session →
  hasParentPath target (BackupSession._seen session) = true ↔ recorded_above target session.
Proof.
  intros Hroot. rewrite hasParentPath_spec. unfold recorded_above.
  split; intros (parent & Hin & H); exists parent; (split; [done|]).
  - destruct H as [->|(_ & ? & _)%startsWithSep_spec]; done.
  - destruct (decide (target = parent)) as [|Hne]; [by left|right].
    apply startsWithSep_spec. repeat split; [|done|done]. by intros ->.
Qed.

Lemma prefix_app_longer (d p : path) : d ≠ [] → ¬ d ++ p `prefix_of` p.
Proof.
  intros Hd Hpre%prefix_length. rewrite length_app in Hpre.
  destruct d; [done|]. simpl in Hpre. lia.
Qed.

Lemma path_dirname_not_above (p : path) : p ≠ [] → ¬ p `prefix_of` path_dirname p.
Proof.
  intros Hp Hpre%prefix_length. unfold path_dirname in Hpre.
  rewrite length_take in Hpre. destruct p; [done|]. simpl in Hpre. lia.
Qed.

(** What a backup that returns has done to the tree. *)
Lemma backup_move_inv target dest kind x w w' :
  dest ≠ target → ¬ dest `prefix_of` target →
  tree_lookup target (fs_root w) = Some x → kind = kind_of x →
  (match kind with
   | KSymlink => backupSymlink target dest
   | _ => backupPathImpl target dest kind
   end) w = (Ok (), w') →
  ∃ y, moved target dest y (fs_root w) (fs_root w')
       ∧ (tree_lookup dest (fs_root w) = None → y = x).
Proof.
  intros Hne Hdt Hx -> H.
  assert (∀ n1, tree_mkdirp (path_dirname dest) (fs_root w) = Some n1 →
                ¬ target `prefix_of` dest →
                tree_lookup target n1 = Some x ∧ tree_lookup dest n1 = tree_lookup dest (fs_root w))
    as Hframe.
  { intros n1 Hmk Htd. split.
    - rewrite <- Hx. eapply tree_mkdirp_frame; [done|]. intros Hp. apply Htd.
      etrans; [done|]. apply path_dirname_prefix.
    - eapply tree_mkdirp_frame; [done|]. apply path_dirname_not_above.
      intros ->. apply Hdt, prefix_nil. }
  assert (∀ y n1 n2 n',
            tree_mkdirp (path_dirname dest) (fs_root w) = Some n1 →
            ¬ target `prefix_of` dest →
            (tree_put dest y (tree_del target n1) = Some n'
             ∨ (tree_put dest y n1 = Some n2 ∧ n' = tree_del target n2)) →
            moved target dest y (fs_root w) n') as Hmoved.
  { intros y n1 n2 n' Hmk Htd Hmove. eapply (tree_move target dest x y); try done.
    intros ->. apply Htd, prefix_nil. }
  destruct (kind_of x) eqn:Hk.
  - (* a file *)
    unfold backupPathImpl in H. apply bind_inv_ok in H as ([] & w1 & Hmk%ensureDir_inv & H).
    apply catch_inv in H as [([] & Hmv%fs_rename_inv & _)|(e & w2 & Hmv & H)].
    + apply tree_rename_inv in Hmv as (x1 & Hx1 & Htd & Hput); [|done].
      destruct (Hframe _ Hmk Htd) as [Hx' Hd']. rewrite Hx' in Hx1. injection Hx1 as <-.
      exists x. split; [|done]. by eapply (Hmoved x _ (fs_root w1)); [| |left].
    + destruct (is_EXDEV e); simpl in H; [|done].
      apply fs_rename_throw in Hmv as Hroot.
      apply bind_inv_ok in H as ([] & w3 & Hcp%fs_copyFile_inv & Hrm%removePath_inv).
      destruct Hrm as [_ Hrm]. rewrite Hroot in Hcp.
      apply tree_copy_inv in Hcp as (x1 & y & Hx1 & Htd & Hput & Hy).
      destruct (Hframe _ Hmk Htd) as [Hx' Hd']. rewrite Hx' in Hx1. injection Hx1 as <-.
      exists y. split; [|by rewrite <- Hd'].
      eapply (Hmoved y _ (fs_root w3)); [done..|]. right. done.
  - (* a directory *)
    unfold backupPathImpl in H. apply bind_inv_ok in H as ([] & w1 & Hmk%ensureDir_inv & H).
    apply catch_inv in H as [([] & Hmv%fs_rename_inv & _)|(e & w2 & Hmv & H)].
    + apply tree_rename_inv in Hmv as (x1 & Hx1 & Htd & Hput); [|done].
      destruct (Hframe _ Hmk Htd) as [Hx' Hd']. rewrite Hx' in Hx1. injection Hx1 as <-.
      exists x. split; [|done]. by eapply (Hmoved x _ (fs_root w1)); [| |left].
    + destruct (is_EXDEV e); simpl in H; [|done].
      apply fs_rename_throw in Hmv as Hroot.
      apply bind_inv_ok in H as ([] & w3 & Hcp%fs_cp_inv & Hrm%removePath_inv).
      destruct Hrm as [_ Hrm]. rewrite Hroot in Hcp.
      apply tree_copy_inv in Hcp as (x1 & y & Hx1 & Htd & Hput & Hy).
      destruct (Hframe _ Hmk Htd) as [Hx' Hd']. rewrite Hx' in Hx1. injection Hx1 as <-.
      exists y. split; [|by rewrite <- Hd'].
      eapply (Hmoved y _ (fs_root w3)); [done..|]. right. done.
  - (* a symbolic link *)
    unfold backupSymlink in H.
    apply bind_inv_ok in H as (link & w1 & [Hw1 Hlink]%fs_readlink_inv & H).
    apply bind_inv_ok in H as ([] & w2 & Hmk%ensureDir_inv & H).
    apply bind_inv_ok in H as ([] & w3 & [Hfree Hput]%fs_symlink_inv & Hrm%fs_unlink_inv).
    rewrite Hw1 in Hmk. rewrite Hx in Hlink. injection Hlink as ->.
    assert (¬ target `prefix_of` dest) as Htd.
    { intros Hpre. apply prefix_strict_dirname in Hpre; [|done].
      destruct (tree_mkdirp_dir _ _ _ _ Hmk Hpre) as (_ & _ & Hdir).
      by destruct (Hdir _ Hx). }
    exists (Symlink link). split; [|done].
    eapply (Hmoved _ _ (fs_root w3)); [done..|]. right. done.
Qed.

Lemma record_seen e session :
  BackupSession._seen (record e session)
  = BackupSession._seen session ∪ {[BackupEntry.originalPath e]}.
Proof. done. Qed.

Lemma backupPath_noop target session w :
  tree_lookup target (fs_root w) = None
  ∨ hasParentPath target (BackupSession._seen session) = true →
  backupPath target session w = (Ok (false, session), log (CExists target) w).
Proof.
  intros Hno. unfold backupPath. rewrite (bind_ok _ _ _ _ _ (pathExists_run target w)).
  case_bool_decide as Hex; simpl; [|done].
  destruct Hno as [Hno|Hno]; [|by rewrite Hno].
  change (fs_root (log _ w)) with (fs_root w) in Hex. rewrite Hno in Hex. by destruct Hex.
Qed.

Lemma backupPath_inv target session w moved_ session' w' :
  backupPath target session w = (Ok (moved_, session'), w') →
  (moved_ = false ∧ session' = session ∧ fs_root w' = fs_root w
   ∧ (tree_lookup target (fs_root w) = None
      ∨ hasParentPath target (BackupSession._seen session) = true))
  ∨ (moved_ = true
     ∧ hasParentPath target (BackupSession._seen session) = false
     ∧ ∃ x w1,
         tree_lookup target (fs_root w) = Some x
         ∧ fs_root w1 = fs_root w
         ∧ session' = record (BackupEntry.mk target (Some (backupPathFor target
                        (BackupSession.dir session))) (kind_of x) ABackup) session
         ∧ (match kind_of x with
            | KSymlink => backupSymlink target (backupPathFor target (BackupSession.dir session))
            | _ => backupPathImpl target (backupPathFor target (BackupSession.dir session))
                     (kind_of x)
            end) w1 = (Ok (), w')).
Proof.
  unfold backupPath. intros (b & w0 & Hex & H)%bind_inv_ok.
  rewrite pathExists_run in Hex. injection Hex as <- <-.
  case_bool_decide as Hex; simpl in H.
  - destruct (hasParentPath target _) eqn:Hseen.
    + injection H as <- <- <-. left. auto.
    + apply bind_inv_ok in H as (k & w1 & [Hw1 (x & Hx & ->)]%fs_lstat_inv & H).
      apply bind_inv_ok in H as ([] & w2 & Hmove & H). injection H as <- <- <-.
      right. split; [done|]. split; [done|]. by exists x, w1.
  - injection H as <- <- <-. left. repeat split; try done. left.
    change (fs_root (log _ w)) with (fs_root w) in Hex.
    destruct (tree_lookup target (fs_root w)); [|done]. destruct Hex. by eexists.
Qed.

Lemma backupPath_moves target session x w w1 w' :
  BackupSession.dir session ≠ [] →
  tree_lookup target (fs_root w) = Some x → fs_root w1 = fs_root w →
  (match kind_of x with
   | KSymlink => backupSymlink target (backupPathFor target (BackupSession.dir session))
   | _ => backupPathImpl target (backupPathFor target (BackupSession.dir session)) (kind_of x)
   end) w1 = (Ok (), w') →
  ∃ y, moved target (backupPathFor target (BackupSession.dir session)) y (fs_root w) (fs_root w')
       ∧ (tree_lookup (backupPathFor target (BackupSession.dir session)) (fs_root w) = None
          → y = x).
Proof.
  intros Hdir Hx Hw1 Hmove.
  destruct (backup_move_inv target (backupPathFor target (BackupSession.dir session))
              (kind_of x) x w1 w') as (y & Hmoved & Hy);
    [|by apply prefix_app_longer|by rewrite Hw1|done|done|].
  { intros Heq. apply (prefix_app_longer (BackupSession.dir session) target Hdir).
    unfold backupPathFor in Heq. by rewrite Heq. }
  rewrite Hw1 in Hmoved, Hy. by exists y.
Qed.

(** C4. In a session whose directory is not the root and that has not
    recorded the root, [backupPath] returns [false], appends nothing and
    leaves the file system as it is when the target does not exist or a
    recorded path is the target or a directory above it.  Otherwise, when
    it returns, it returns [true]; the session has exactly one more entry,
    of action [backup], for the target, with the kind found there and the
    backup path under the session directory; the target has moved there
    (and is what is found there when nothing was there before); and no
    later [backupPath] in that session, for the target or a path beneath
    it, appends anything. *)
Theorem backupPath_records_once target session w r w' :
  session_ok session →
  backupPath target session w = (r, w') →
  let dest := backupPathFor target (BackupSession.dir session) in
  ((tree_lookup target (fs_root w) = None ∨ recorded_above target session) →
     r = Ok (false, session) ∧ fs_root w' = fs_root w)
  ∧ (∀ x moved_ session',
       tree_lookup target (fs_root w) = Some x → ¬ recorded_above target session →
       r = Ok (moved_, session') →
       moved_ = true
       ∧ BackupSession.entries session'
         = BackupSession.entries session ++ [BackupEntry.mk target (Some dest) (kind_of x) ABackup]
       ∧ BackupSession._seen session' = BackupSession._seen session ∪ {[target]}
       ∧ BackupSession.dir session' = BackupSession.dir session
       ∧ (∃ y, moved target dest y (fs_root w) (fs_root w')
               ∧ (tree_lookup dest (fs_root w) = None → y = x))
       ∧ ∀ later rest w2,
           BackupSession._seen session' ⊆ BackupSession._seen later →
           ∃ w2', backupPath (target ++ rest) later w2 = (Ok (false, later), w2')
                  ∧ fs_root w2' = fs_root w2).
Proof.
  intros [Hdir Hroot] H dest. split.
  - intros Hno. rewrite backupPath_noop in H.
    + by injection H as <- <-.
    + destruct Hno as [?|?%hasParentPath_recorded]; auto.
  - intros x moved_ session' Hx Hfree ->.
    apply backupPath_inv in H
      as [(_ & _ & _ & [Hno|Hseen])|(-> & Hseen & x' & w1 & Hx' & Hw1 & -> & Hmove)].
    { congruence. }
    { by apply hasParentPath_recorded in Hseen. }
    rewrite Hx in Hx'. injection Hx' as <-.
    split; [done|]. split; [done|]. split; [done|]. split; [done|].
    destruct (backupPath_moves target session x w w1 w' Hdir Hx Hw1 Hmove) as (y & Hmoved & Hy).
    split; [by exists y|].
    intros later rest w2 Hlater. eexists. split; [apply backupPath_noop|done].
    right. apply hasParentPath_spec. exists target. split.
    + apply Hlater. rewrite record_seen. set_solver.
    + destruct rest as [|s rest]; [left; by rewrite app_nil_r|right].
      apply startsWithSep_spec. split; [|split].
      * intros ->. destruct Hmoved as (Hgone & _). by specialize (Hgone []).
      * by apply prefix_app_r.
      * intros Heq. apply (f_equal length) in Heq. rewrite length_app in Heq.
        simpl in Heq. lia.
Qed.

Lemma createBackupSession_ok opts w session w' :
  createBackupSession opts w = (Ok session, w') → session_ok session.
Proof.
  unfold createBackupSession. intros (ts & w1 & _ & H)%bind_inv_ok.
  apply bind_inv_ok in H as ([] & w2 & _ & H).
  apply bind_inv_ok in H as (created & w3 & _ & H). injection H as <- <-.
  split; simpl; [by destruct (SessionOptions.canonicalRoot opts)|set_solver].
Qed.

Lemma backupPath_ok target session w moved_ session' w' :
  session_ok session →
  backupPath target session w = (Ok (moved_, session'), w') →
  session_ok session' ∧ BackupSession._seen session ⊆ BackupSession._seen session'.
Proof.
  intros [Hdir Hroot] H.
  apply backupPath_inv in H as [(_ & -> & _)|(_ & _ & x & w1 & Hx & Hw1 & -> & Hmove)]; [done|].
  split; [|simpl; set_solver]. split; [done|]. simpl.
  intros [?| <-%elem_of_singleton]%elem_of_union; [done|].
  destruct (backupPath_moves [] session x w w1 w' Hdir Hx Hw1 Hmove) as (y & (Hgone & _) & _).
  by specialize (Hgone []).
Qed.

Lemma recordCreatedPath_seen target kind session :
  BackupSession._seen session ⊆ BackupSession._seen (recordCreatedPath target kind session).
Proof.
  unfold recordCreatedPath. destruct (hasParentPath _ _); [done|].
  rewrite record_seen. set_solver.
Qed.

(** ** Runs without failure *)

Lemma quiet_log c w : quiet w → quiet (log c w).
Proof. done. Qed.

Lemma quiet_set_root n w : quiet w → quiet (set_root n w).
Proof. done. Qed.


Lemma syscall_run {A} c (body : M A) w : quiet w → syscall c body w = body (log c w).
Proof. intros Hq. apply syscall_quiet, Hq. Qed.

Lemma fs_lstat_run p x w :
  quiet w → tree_lookup p (fs_root w) = Some x →
  fs_lstat p w = (Ok (kind_of x), log (CLstat p) w).
Proof.
  intros Hq Hx. unfold fs_lstat. rewrite syscall_run by done.
  change (fs_root (log _ w)) with (fs_root w). by rewrite Hx.
Qed.

Lemma fs_readlink_run p text w :
  quiet w → tree_lookup p (fs_root w) = Some (Symlink text) →
  fs_readlink p w = (Ok text, log (CReadlink p) w).
Proof.
  intros Hq Hx. unfold fs_readlink. rewrite syscall_run by done.
  change (fs_root (log _ w)) with (fs_root w). by rewrite Hx.
Qed.

Lemma ensureDir_run p n1 w :
  quiet w → tree_mkdirp p (fs_root w) = Some n1 →
  ensureDir p w = (Ok (), set_root n1 (log (CMkdir p) w)).
Proof.
  intros Hq Hmk. unfold ensureDir. rewrite syscall_run by done.
  change (fs_root (log _ w)) with (fs_root w). by rewrite Hmk.
Qed.








(** ** A sequence of moves *)



(** ** The geometry of the backup tree *)






(** ** Undo, first pass: what is at the original paths is put aside *)


Lemma sweep_cons e entries session w :
  backupExistingOriginals (e :: entries) session w
  = let o := BackupEntry.originalPath e in
    let w0 := log (CExists o) w in
    if bool_decide (is_Some (tree_lookup o (fs_root w)))
    then match backupPath o session w0 with
         | (Ok r, w1) => backupExistingOriginals entries (snd r) w1
         | (Throw err, w1) => (Throw err, w1)
         end
    else backupExistingOriginals entries session w0.
Proof.
  unfold backupExistingOriginals. cbn [foldM]. unfold bind at 1 2.
  rewrite pathExists_run. destruct (bool_decide _); cbn [negb]; [|done].
  unfold bind at 1. by destruct (backupPath _ _ _) as [[r|err] w1].
Qed.


(** ** Undo, second pass: the entries are restored *)





(** ** What reading leaves alone *)












(** ** The undo session *)







(** ** Undo restores what the manifest records *)



(** ** The theorems at work *)








(** A backup across devices: the rename fails with [EXDEV], the directory
    is copied and the source removed. *)
Lemma move_renames_first_witness :
  let dest := BackupSession.dir demo_session ++ codex_prompts in
  let w0 := snd (ensureDir (path_dirname dest) world_cross_device) in
  let out := backupPathImpl codex_prompts dest KDir world_cross_device in
  fst (fs_rename codex_prompts dest w0) = Throw (SysError EXDEV)
  ∧ fst out = Ok ()
  ∧ rename_then_fallback codex_prompts dest w0 (fst out) (snd out).
Proof.
  intros dest w0 out. split; [vm_compute; reflexivity|]. split; [vm_compute; reflexivity|].
  apply (proj1 move_renames_first codex_prompts dest KDir world_cross_device w0).
  - vm_compute. reflexivity.
  - vm_compute. reflexivity.
Defined.

(** A conflict on a real directory, applied without [force]: counted,
    and [keep.md] is still there. *)
Lemma conflicts_left_alone_witness :
  let out := applyLinkPlan plan_conflict None (world_of home_codex) in
  fst out = Ok (ApplyResult.mk 0 0 1 None 0)
  ∧ kept home_codex (fs_root (snd out))
  ∧ tree_lookup (codex_prompts ++ ["keep.md"]) (fs_root (snd out)) = Some (File (Utf8 "# keep")).
Proof.
  intros out. split; [vm_compute; reflexivity|].
  destruct (conflicts_left_alone plan_conflict None (world_of home_codex) (fst out) (snd out))
    as (H & _).
  - reflexivity.
  - vm_compute. reflexivity.
  - split; [exact H|]. vm_compute. reflexivity.
Defined.

(** The first backup of a session: one entry, the directory moved under
    the session directory. *)
Lemma backupPath_records_once_witness :
  let out := backupPath codex_prompts demo_session (world_of home_codex) in
  let dest := backupPathFor codex_prompts (BackupSession.dir demo_session) in
  (BackupSession.entries ∘ snd <$> match fst out with Ok r => Some r | Throw _ => None end)
  = Some [BackupEntry.mk codex_prompts (Some dest) KDir ABackup]
  ∧ ∃ y, moved codex_prompts dest y home_codex (fs_root (snd out))
         ∧ (tree_lookup dest home_codex = None → tree_lookup codex_prompts home_codex = Some y).
Proof.
  intros out dest. split; [vm_compute; reflexivity|].
  destruct (backupPath_records_once codex_prompts demo_session (world_of home_codex)
              (fst out) (snd out)) as (_ & H).
  - split; [done|]. vm_compute. set_solver.
  - vm_compute. reflexivity.
  - destruct (H (default (Dir ∅) (tree_lookup codex_prompts home_codex)) true
                (record (BackupEntry.mk codex_prompts (Some dest) KDir ABackup) demo_session))
      as (_ & _ & _ & _ & (y & Hmoved & Hy) & _).
    + vm_compute. reflexivity.
    + intros (parent & Hin & _). vm_compute in Hin. set_solver.
    + vm_compute. reflexivity.
    + exists y. split; [exact Hmoved|]. intros Hfree. rewrite (Hy Hfree). vm_compute. reflexivity.
Defined.

(** ** What computations preserve *)

Section preserves.
Context (R : World → World → Prop) `{!PreOrder R}.

Lemma preserves_ret {A} (a : A) : preserves R (ret a).
Proof. intros w r w' [= <- <-]. reflexivity. Qed.

Lemma preserves_throw {A} e : preserves R (@throw A e).
Proof. intros w r w' [= <- <-]. reflexivity. Qed.

Lemma preserves_gets {A} (f : World → A) : preserves R (gets f).
Proof. intros w r w' [= <- <-]. reflexivity. Qed.

Lemma preserves_bind {A B} (m : M A) (k : A → M B) :
  preserves R m → (∀ a, preserves R (k a)) → preserves R (bind m k).
Proof.
  intros Hm Hk w r w' [(a & w1 & H1 & H2)|(e & H1 & _)]%bind_inv.
  - etrans; [by eapply Hm|by eapply Hk].
  - by eapply Hm.
Qed.

Lemma preserves_catch {A} (m : M A) (h : Error → M A) :
  preserves R m → (∀ e, preserves R (h e)) → preserves R (catch m h).
Proof.
  intros Hm Hh w r w' [(a & H1 & _)|(e & w1 & H1 & H2)]%catch_inv.
  - by eapply Hm.
  - etrans; [by eapply Hm|by eapply Hh].
Qed.

Lemma preserves_foldM {A B} (f : A → B → M A) a l :
  (∀ a b, preserves R (f a b)) → preserves R (foldM f a l).
Proof.
  intros Hf. revert a. induction l as [|b l IH]; intros a; simpl.
  - apply preserves_ret.
  - apply preserves_bind; auto.
Qed.

Lemma preserves_mapM {A B} (f : A → M B) l :
  (∀ a, preserves R (f a)) → preserves R (mapM f l).
Proof.
  intros Hf. induction l as [|a l IH]; simpl.
  - apply preserves_ret.
  - apply preserves_bind; [done|]. intros b. apply preserves_bind; [done|].
    intros bs. apply preserves_ret.
Qed.

Lemma preserves_syscall {A} c (body : M A) :
  (∀ w, R w (log c w)) → preserves R body → preserves R (syscall c body).
Proof.
  intros Hlog Hbody w r w' [[_ H]|(e & _ & _ & ->)]%syscall_inv; [|done].
  etrans; [apply Hlog|by eapply Hbody].
Qed.

Lemma preserves_pathExists p : (∀ w, R w (log (CExists p) w)) → preserves R (pathExists p).
Proof. intros Hlog w r w' [= <- <-]. apply Hlog. Qed.
End preserves.

#[global] Instance same_root_preorder : PreOrder same_root.
Proof. split; [done|]. intros w1 w2 w3. unfold same_root. congruence. Qed.

#[global] Instance kept_world_preorder : PreOrder kept_world.
Proof.
  split; [intros w; apply kept_refl|]. intros w1 w2 w3. apply kept_trans.
Qed.

#[global] Instance calls_in_preorder P : PreOrder (calls_in P).
Proof.
  split.
  - intros w. exists []. by rewrite app_nil_r.
  - intros w1 w2 w3 (c1 & H1 & ?) (c2 & H2 & ?). exists (c1 ++ c2).
    split; [by rewrite H2, H1, app_assoc|by apply Forall_app].
Qed.

Lemma calls_in_log (P : Call → Prop) c w : P c → calls_in P w (log c w).
Proof. intros Hc. exists [c]. split; [done|by constructor]. Qed.

Lemma calls_in_same_trace P w w' : trace w' = trace w → calls_in P w w'.
Proof. intros H. exists []. by rewrite app_nil_r. Qed.

Lemma lift_tree_calls P r : preserves (calls_in P) (lift_tree r).
Proof. intros w res w' H. apply calls_in_same_trace. by eapply lift_tree_trace. Qed.

(** The calls each operation makes. *)
Ltac body_calls :=
  let w := fresh "w" in let r := fresh "r" in let w' := fresh "w'" in let H := fresh "H" in
  unfold preserves; intros w r w' H; cbv beta in H; repeat case_match;
  first [ by eapply lift_tree_calls
        | by eapply (preserves_ret (calls_in _))
        | by eapply (preserves_throw (calls_in _)) ].

Ltac one_call := apply preserves_syscall; [apply _|intros ?; by apply calls_in_log|body_calls].

Lemma pathExists_calls (P : Call → Prop) p : P (CExists p) → preserves (calls_in P) (pathExists p).
Proof. intros HP. apply preserves_pathExists. intros w. by apply calls_in_log. Qed.

Lemma ensureDir_calls (P : Call → Prop) p : P (CMkdir p) → preserves (calls_in P) (ensureDir p).
Proof. intros HP. one_call. Qed.

Lemma removePath_calls (P : Call → Prop) p : P (CRm p) → preserves (calls_in P) (removePath p).
Proof.
  intros HP w r w' H. exists [CRm p]. split; [by eapply removePath_trace|by constructor].
Qed.

Lemma fs_symlink_calls (P : Call → Prop) text p ty :
  P (CSymlink text p ty) → preserves (calls_in P) (fs_symlink text p ty).
Proof. intros HP. one_call. Qed.

Lemma fs_writeFile_calls (P : Call → Prop) p data :
  P (CWriteFile p) → preserves (calls_in P) (fs_writeFile p data).
Proof. intros HP. one_call. Qed.

Lemma fs_lstat_calls (P : Call → Prop) p : P (CLstat p) → preserves (calls_in P) (fs_lstat p).
Proof. intros HP. one_call. Qed.

Lemma fs_readlink_calls (P : Call → Prop) p :
  P (CReadlink p) → preserves (calls_in P) (fs_readlink p).
Proof. intros HP. one_call. Qed.

Lemma ensureFile_calls (P : Call → Prop) p content :
  P (CMkdir (path_dirname p)) → P (CExists p) → P (CWriteFile p) →
  preserves (calls_in P) (ensureFile p content).
Proof.
  intros H1 H2 H3. unfold ensureFile.
  apply preserves_bind; [apply _|by apply ensureDir_calls|]. intros _.
  apply preserves_bind; [apply _|by apply pathExists_calls|]. intros [|].
  - apply preserves_ret, _.
  - by apply fs_writeFile_calls.
Qed.

(** ** Manifests written and read back *)

Lemma tree_create_eq p x n n' : tree_create p x n = inr n' → tree_lookup p n' = Some x.
Proof. intros H%tree_create_inv. by eapply tree_put_eq. Qed.

Lemma fs_writeFile_inv p data w w' :
  fs_writeFile p data w = (Ok (), w') →
  tree_lookup p (fs_root w') = Some (File data) ∧ faults w' = faults w.
Proof.
  intros [[_ H]|(e & _ & ? & _)]%syscall_inv; [|done].
  change (fs_root (log _ w)) with (fs_root w) in H.
  assert (lift_tree (tree_create p (File data) (fs_root w)) (log (CWriteFile p) w) = (Ok (), w'))
    as Hlift.
  { destruct (tree_lookup p (fs_root w)) as [[| |]|]; done. }
  pose proof (lift_tree_inv _ _ _ Hlift) as Hc. split; [by eapply tree_create_eq|].
  unfold lift_tree in Hlift. rewrite Hc in Hlift. by injection Hlift as <-.
Qed.

Lemma loadBackupManifest_run dir m w :
  faults w (CReadFile (path_join dir MANIFEST_NAME)) = None →
  tree_lookup (path_join dir MANIFEST_NAME) (fs_root w) = Some (File (Json m)) →
  ∃ w', loadBackupManifest dir w = (Ok (Some m), w') ∧ fs_root w' = fs_root w
        ∧ faults w' = faults w.
Proof.
  intros Hq Hm. unfold loadBackupManifest.
  rewrite (bind_ok _ _ _ _ _ (pathExists_run _ w)).
  change (fs_root (log _ w)) with (fs_root w). rewrite Hm.
  rewrite bool_decide_eq_true_2 by eauto. simpl.
  unfold bind at 1. unfold fs_readFile. rewrite syscall_quiet by done.
  change (fs_root (log _ (log _ w))) with (fs_root w). rewrite Hm. simpl.
  eexists. split; [reflexivity|done].
Qed.

(** ** Paths recorded as created *)

Lemma hasParentPath_mono (target : path) (seen seen' : gset path) :
  seen ⊆ seen' → hasParentPath target seen = true → hasParentPath target seen' = true.
Proof.
  rewrite !hasParentPath_spec. intros Hsub (parent & Hin & H). exists parent. split; [|done].
  by apply Hsub.
Qed.

Lemma hasParentPath_self (target : path) (seen : gset path) :
  target ∈ seen → hasParentPath target seen = true.
Proof. intros Hin. apply hasParentPath_spec. exists target. auto. Qed.

Lemma hasParentPath_beneath (target rest : path) (seen : gset path) :
  target ≠ [] → target ∈ seen → hasParentPath (target ++ rest) seen = true.
Proof.
  intros Hne Hin. apply hasParentPath_spec. exists target. split; [done|].
  destruct rest as [|s rest]; [left; by rewrite app_nil_r|right].
  apply startsWithSep_spec. split; [done|]. split; [by apply prefix_app_r|].
  intros Heq. apply (f_equal length) in Heq. rewrite length_app in Heq. simpl in Heq. lia.
Qed.

Lemma recordCreatedPath_covers target kind session :
  hasParentPath target (BackupSession._seen (recordCreatedPath target kind session)) = true.
Proof.
  unfold recordCreatedPath.
  destruct (hasParentPath target (BackupSession._seen session)) eqn:Hseen; [done|].
  apply hasParentPath_self. rewrite record_seen. set_solver.
Qed.


(** ** A backup that fails *)


Lemma fs_lstat_root p w r w' : fs_lstat p w = (r, w') → fs_root w' = fs_root w.
Proof.
  intros [[_ H]|(e0 & _ & _ & ->)]%syscall_inv; [|done].
  destruct (tree_lookup p (fs_root (log (CLstat p) w))); by injection H as <- <-.
Qed.

Lemma fs_readlink_root p w r w' : fs_readlink p w = (r, w') → fs_root w' = fs_root w.
Proof.
  intros [[_ H]|(e0 & _ & _ & ->)]%syscall_inv; [|done].
  destruct (tree_lookup p (fs_root (log (CReadlink p) w))) as [[| |]|]; by injection H as <- <-.
Qed.







(** ** A manifest that cannot be read *)






(** ** Applying with [force] and no backup directory *)

Lemma createLink_unbacked_calls source target kind force :
  preserves (calls_in (λ c, ¬ moves_or_copies c)) (createLink source target kind force None).
Proof.
  unfold createLink.
  apply preserves_bind; [apply _|apply pathExists_calls; simpl; tauto|]. intros [|].
  - destruct (negb force); [apply preserves_ret, _|].
    apply preserves_bind; [apply _|apply preserves_ret, _|]. intros ?.
    apply preserves_bind; [apply _|apply removePath_calls; simpl; tauto|]. intros ?.
    apply preserves_bind; [apply _|apply ensureDir_calls; simpl; tauto|]. intros ?.
    apply preserves_bind; [apply _|apply fs_symlink_calls; simpl; tauto|]. intros ?.
    apply preserves_ret, _.
  - apply preserves_bind; [apply _|apply ensureDir_calls; simpl; tauto|]. intros ?.
    apply preserves_bind; [apply _|apply fs_symlink_calls; simpl; tauto|]. intros ?.
    apply preserves_ret, _.
Qed.

Lemma createLink_unbacked source target kind force w created backedUp w' :
  createLink source target kind force None w = (Ok (created, backedUp), w') → backedUp = false.
Proof.
  unfold createLink. intros (b & w1 & _ & H)%bind_inv_ok. destruct b.
  - destruct (negb force); [by injection H as _ <-|].
    apply bind_inv_ok in H as (b1 & w2 & [= <- <-] & H).
    apply bind_inv_ok in H as ([] & w3 & _ & H). apply bind_inv_ok in H as ([] & w4 & _ & H).
    apply bind_inv_ok in H as ([] & w5 & _ & H). by injection H as _ <-.
  - apply bind_inv_ok in H as ([] & w3 & _ & H). apply bind_inv_ok in H as ([] & w4 & _ & H).
    by injection H as _ <-.
Qed.

Lemma apply_task_unbacked_calls force c task :
  preserves (calls_in (λ c, ¬ moves_or_copies c)) (apply_task force None c task).
Proof.
  destruct c as [[[applied skipped] conflicts] backedUp]. destruct task; simpl.
  - apply preserves_bind; [apply _|apply pathExists_calls; simpl; tauto|]. intros before.
    apply preserves_bind; [apply _|apply createLink_unbacked_calls|]. intros result.
    destruct (before && negb force); apply preserves_ret, _.
  - destruct (force && _); [|apply preserves_ret, _].
    apply preserves_bind; [apply _|apply createLink_unbacked_calls|]. intros result.
    apply preserves_ret, _.
  - apply preserves_ret, _.
  - apply preserves_bind; [apply _| |intros ?; apply preserves_ret, _].
    destruct kind; [apply ensureFile_calls; simpl; tauto|apply ensureDir_calls; simpl; tauto].
Qed.

Lemma apply_task_unbacked force c task w c' w' :
  apply_task force None c task w = (Ok c', w') → snd c' = snd c.
Proof.
  destruct c as [[[applied skipped] conflicts] backedUp]. destruct task; simpl.
  - intros (before & w1 & _ & H)%bind_inv_ok.
    apply bind_inv_ok in H as ([created b] & w2 & ->%createLink_unbacked & H).
    destruct (before && negb force); by injection H as <- _.
  - destruct (force && _); [|by intros [= <- _]].
    intros ([created b] & w2 & ->%createLink_unbacked & H)%bind_inv_ok. by injection H as <- _.
  - by intros [= <- _].
  - intros ([] & w1 & _ & H)%bind_inv_ok. by injection H as <- _.
Qed.

Lemma apply_tasks_unbacked force tasks c w c' w' :
  foldM (apply_task force None) c tasks w = (Ok c', w') → snd c' = snd c.
Proof.
  revert c w. induction tasks as [|task tasks IH]; intros c w; simpl.
  - by intros [= <- _].
  - intros (c1 & w1 & H1%apply_task_unbacked & H2%IH)%bind_inv_ok. congruence.
Qed.

(** X5. Without a [backupDir] option [applyLinkPlan] never backs anything
    up, with [force] as without: no backup directory is inferred (on
    POSIX paths [commonPath] finds no common root), the result has no
    [backupDir] and [backedUp = 0], and no rename or copy is ever made,
    so what [force] replaces is removed outright. *)
Theorem apply_without_backupDir plan opts w r w' :
  opts ≫= ApplyOptions.backupDir = None →
  applyLinkPlan plan opts w = (r, w')
  → calls_in (λ c, ¬ moves_or_copies c) w w'
  ∧ ∀ res, r = Ok res → ApplyResult.backupDir res = None ∧ ApplyResult.backedUp res = 0.
Proof.
  intros Hdir H. unfold applyLinkPlan in H. rewrite Hdir in H.
  set (force := default false (opts ≫= ApplyOptions.force)) in *.
  assert ((if force then inferBackupDir plan else ret None) w = (Ok None, w)) as Hinfer.
  { destruct force; [apply inferBackupDir_none|done]. }
  rewrite (bind_ok _ _ _ _ _ Hinfer) in H.
  split.
  - revert H. generalize w r w'. change (preserves (calls_in (λ c, ¬ moves_or_copies c))
      (c <- foldM (apply_task force None) (0, 0, 0, 0) (LinkPlan.tasks plan);;
       let '(applied, skipped, conflicts, backedUp) := c in
       ret (ApplyResult.mk applied skipped conflicts None backedUp))).
    apply preserves_bind; [apply _| |].
    + apply preserves_foldM; [apply _|]. intros c task. apply apply_task_unbacked_calls.
    + intros [[[??]?]?]. apply preserves_ret, _.
  - intros res ->. apply bind_inv_ok in H as (c & w1 & Hloop%apply_tasks_unbacked & H).
    destruct c as [[[applied skipped] conflicts] backedUp]. injection H as <- <-.
    simpl in *. auto.
Qed.

(** ** Path texts *)

Lemma split_slash_cons text : ∃ segment segments, split_slash text = segment :: segments.
Proof.
  induction text as [|c text (segment & segments & IH)]; simpl; [eauto|].
  case_bool_decide; [eauto|]. rewrite IH. eauto.
Qed.

Lemma split_slash_app s text segment segments :
  has_slash s = false → split_slash text = segment :: segments →
  split_slash (s ++ text) = (s ++ segment)%string :: segments.
Proof.
  intros Hs Ht. induction s as [|c s IH]; [exact Ht|].
  change (split_slash (String c (s ++ text)%string)
          = String c (s ++ segment)%string :: segments).
  simpl in Hs. apply orb_false_iff in Hs as [Hc Hs]. simpl. rewrite Hc. by rewrite IH.
Qed.

Lemma string_app_empty (s : string) : (s ++ "")%string = s.
Proof.
  induction s as [|c s IH]; [done|].
  change (String c (s ++ "")%string = String c s). by rewrite IH.
Qed.

Lemma plain_segment_spec s :
  plain_segment s = true ↔ s ≠ "" ∧ s ≠ "." ∧ s ≠ ".." ∧ has_slash s = false.
Proof.
  unfold plain_segment. rewrite andb_true_iff, !negb_true_iff, bool_decide_eq_false.
  naive_solver.
Qed.

Lemma path_string_cons s p :
  path_string (s :: p)
  = ("/" ++ s ++ match p with [] => "" | _ :: _ => path_string p end)%string.
Proof.
  unfold path_string. simpl. destruct p as [|t p]; simpl; [by rewrite string_app_empty|done].
Qed.

Lemma split_slash_path_string p :
  plain p → p ≠ [] → split_slash (path_string p) = "" :: p.
Proof.
  induction 1 as [|s p Hs Hp IH]; [done|]. intros _. rewrite path_string_cons.
  apply plain_segment_spec in Hs as (_ & _ & _ & Hs).
  change (split_slash ("/" ++ ?t)) with ("" :: split_slash t). f_equal.
  destruct p as [|t p].
  - rewrite (split_slash_app s "" "" []) by done. by rewrite string_app_empty.
  - rewrite (split_slash_app s _ "" (t :: p)); [by rewrite string_app_empty|done|by apply IH].
Qed.

Lemma resolve_plain acc p : plain p → foldl resolve_step acc p = acc ++ p.
Proof.
  intros Hp. revert acc. induction Hp as [|s p Hs Hp IH]; intros acc; simpl.
  - by rewrite app_nil_r.
  - apply plain_segment_spec in Hs as (? & ? & ? & _). unfold resolve_step at 2.
    rewrite bool_decide_eq_false_2 by naive_solver. rewrite bool_decide_eq_false_2 by done.
    by rewrite IH, <- app_assoc.
Qed.

Lemma path_isAbsolute_path_string p : path_isAbsolute (path_string p) = true.
Proof. destruct p as [|s p]; [done|]. by rewrite path_string_cons. Qed.

(** The text of a plain path resolves to the path, from anywhere. *)
Lemma path_resolve_path_string base p : plain p → path_resolve base (path_string p) = p.
Proof.
  intros Hp. unfold path_resolve. rewrite path_isAbsolute_path_string.
  destruct p as [|s p]; [by vm_compute|]. rewrite split_slash_path_string by done.
  change (foldl resolve_step (resolve_step [] "") (s :: p) = s :: p).
  replace (resolve_step [] "") with ([] : path) by by vm_compute.
  by rewrite resolve_plain.
Qed.

Lemma path_string_nonempty p : path_string p ≠ "".
Proof. destruct p as [|s p]; [done|]. by rewrite path_string_cons. Qed.

Lemma split_slash_no_slash text :
  Forall (λ segment, has_slash segment = false) (split_slash text).
Proof.
  induction text as [|c text IH]; simpl; [by repeat constructor|].
  case_bool_decide as Hc; [by constructor|].
  destruct (split_slash text) as [|segment segments].
  { constructor; [|constructor]. simpl. by rewrite bool_decide_eq_false_2. }
  apply Forall_cons in IH as [? ?]. constructor; [|done].
  simpl. by rewrite bool_decide_eq_false_2.
Qed.

Lemma plain_dirname p : plain p → plain (path_dirname p).
Proof. unfold plain, path_dirname. apply Forall_take. Qed.

Lemma resolve_step_plain acc segment :
  plain acc → has_slash segment = false → plain (resolve_step acc segment).
Proof.
  intros Hacc Hs. unfold resolve_step. case_bool_decide as H1; [done|].
  case_bool_decide as H2; [by apply plain_dirname|].
  apply Forall_app. split; [done|]. constructor; [|done].
  apply plain_segment_spec. naive_solver.
Qed.

Lemma path_resolve_plain base text : plain base → plain (path_resolve base text).
Proof.
  intros Hbase. unfold path_resolve.
  assert (plain (if path_isAbsolute text then [] else base)) as Hacc.
  { destruct (path_isAbsolute text); [constructor|done]. }
  revert Hacc. generalize (if path_isAbsolute text then [] else base).
  induction (split_slash_no_slash text) as [|segment segments Hs _ IH]; intros acc Hacc; [done|].
  simpl. apply IH. by apply resolve_step_plain.
Qed.

Lemma path_resolve_absolute base base' text :
  path_isAbsolute text = true → path_resolve base text = path_resolve base' text.
Proof. unfold path_resolve. by intros ->. Qed.
(** ** Links created and their status *)

Lemma create_then_link {A} source target kind w (r r' : A) w' :
  (ensureDir (path_dirname target);;
   fs_symlink (path_string source) target (Some (link_type kind));;
   ret r) w = (Ok r', w') →
  tree_lookup target (fs_root w') = Some (Symlink (path_string source)).
Proof.
  intros ([] & w1 & _ & H)%bind_inv_ok.
  apply bind_inv_ok in H as ([] & w2 & [_ Hput]%fs_symlink_inv & H). injection H as _ <-.
  by eapply tree_put_eq.
Qed.

(** X6. When [createLink] returns, either it has created the link, and
    the target is a symbolic link whose text is the source path, whatever
    was at the target before; or it has not, which happens only without
    [force] on a target that exists, and then nothing has changed. *)
Theorem createLink_links source target kind force backupDir w created backedUp w' :
  createLink source target kind force backupDir w = (Ok (created, backedUp), w') →
  if created
  then tree_lookup target (fs_root w') = Some (Symlink (path_string source))
  else force = false ∧ is_Some (tree_lookup target (fs_root w)) ∧ fs_root w' = fs_root w
       ∧ backedUp = false.
Proof.
  unfold createLink. rewrite (bind_ok _ _ _ _ _ (pathExists_run target w)).
  case_bool_decide as Hex.
  - destruct force; simpl.
    + intros (b & w1 & _ & H)%bind_inv_ok. apply bind_inv_ok in H as ([] & w2 & _ & H).
      destruct created.
      * by eapply create_then_link.
      * apply bind_inv_ok in H as ([] & w3 & _ & H).
        apply bind_inv_ok in H as ([] & w4 & _ & H). by injection H.
    + by intros [= <- <- <-].
  - intros H. destruct created.
    + by eapply create_then_link.
    + apply bind_inv_ok in H as ([] & w3 & _ & H).
      apply bind_inv_ok in H as ([] & w4 & _ & H). by injection H.
Qed.

Lemma createLink_links_witness :
  let out := createLink agents_commands claude_commands SDir true None
               (world_of home_stale_link) in
  fst out = Ok (true, false)
  ∧ tree_lookup claude_commands (fs_root (snd out)) = Some (Symlink "/home/u/.agents/commands").
Proof.
  intros out. split; [vm_compute; reflexivity|].
  apply (createLink_links agents_commands claude_commands SDir true None
           (world_of home_stale_link) true false (snd out)).
  vm_compute. reflexivity.
Defined.

Lemma resolveLinkTarget_run target text w :
  quiet w → tree_lookup target (fs_root w) = Some (Symlink text) →
  resolveLinkTarget target w
  = (Ok (Some (if path_isAbsolute text then text
               else path_string (path_resolve (path_dirname target) text))),
     log (CReadlink target) w).
Proof.
  intros Hq Ht. unfold resolveLinkTarget, catch, bind.
  rewrite (fs_readlink_run target text w Hq Ht). by destruct (path_isAbsolute text).
Qed.

(** X7. With no failing call, the status [getLinkStatus] gives a target
    is read off what is at the target, and nothing is changed: [missing]
    when nothing is there; [linked] when a symbolic link is there whose
    text, resolved from the directory of the link when it is relative,
    is the source; [conflict] for any other link, file or directory. *)
Theorem target_status_classifies source target w :
  quiet w → plain target →
  ∃ w', target_status source target w
        = (Ok (TargetStatus.mk target (status_of (fs_root w) source target)), w')
        ∧ fs_root w' = fs_root w ∧ quiet w'.
Proof.
  intros Hq Hplain. unfold target_status, status_of.
  rewrite (bind_ok _ _ _ _ _ (pathExists_run target w)).
  destruct (tree_lookup target (fs_root w)) as [x|] eqn:Hx.
  - rewrite bool_decide_eq_true_2 by eauto. simpl.
    assert (quiet (log (CExists target) w)) as Hq1 by by apply quiet_log.
    rewrite (bind_ok _ _ _ _ _ (fs_lstat_run target x _ Hq1 Hx)).
    assert (quiet (log (CLstat target) (log (CExists target) w))) as Hq2 by by apply quiet_log.
    destruct x as [data|text|es]; simpl.
    + eexists. split; [reflexivity|done].
    + rewrite (bind_ok _ _ _ _ _ (resolveLinkTarget_run target text _ Hq2 Hx)).
      unfold gets. unfold bind at 1.
      set (cwd := process_cwd _).
      assert ((negb (bool_decide ((if path_isAbsolute text then text
                 else path_string (path_resolve (path_dirname target) text)) = ""))
               && bool_decide (path_resolve cwd
                    (if path_isAbsolute text then text
                     else path_string (path_resolve (path_dirname target) text)) = source))
              = bool_decide (path_resolve (path_dirname target) text = source)) as ->.
      { destruct (path_isAbsolute text) eqn:Habs.
        - rewrite (path_resolve_absolute cwd (path_dirname target)) by done.
          rewrite bool_decide_eq_false_2; [done|]. by destruct text.
        - rewrite path_resolve_path_string
            by by apply path_resolve_plain, plain_dirname.
          rewrite bool_decide_eq_false_2; [done|]. apply path_string_nonempty. }
      eexists. split; [by destruct (bool_decide _)|]. split; [done|].
      by apply quiet_log.
    + eexists. split; [reflexivity|done].
  - rewrite bool_decide_eq_false_2 by (by intros [? ?]). simpl.
    eexists. split; [reflexivity|]. split; [done|]. by apply quiet_log.
Qed.

Lemma target_status_classifies_witness :
  fst (target_status agents_commands claude_commands (world_of home_stale_link))
  = Ok (TargetStatus.mk claude_commands conflict)
  ∧ fst (target_status agents_commands codex_prompts (world_of home_stale_link))
    = Ok (TargetStatus.mk codex_prompts missing).
Proof.
  split.
  - destruct (target_status_classifies agents_commands claude_commands
                (world_of home_stale_link)) as (w' & -> & _).
    + intros c. reflexivity.
    + by repeat constructor.
    + vm_compute. reflexivity.
  - destruct (target_status_classifies agents_commands codex_prompts
                (world_of home_stale_link)) as (w' & -> & _).
    + intros c. reflexivity.
    + by repeat constructor.
    + vm_compute. reflexivity.
Defined.

(** X8. A link that [createLink] has made is reported [linked] by
    [getLinkStatus], as long as the target holds it: the text it wrote
    resolves to the source it was given. *)
Theorem created_link_is_linked source target kind force backupDir w backedUp w1 w2 :
  plain source → quiet w2 →
  createLink source target kind force backupDir w = (Ok (true, backedUp), w1) →
  tree_lookup target (fs_root w2) = tree_lookup target (fs_root w1) →
  ∃ w3, target_status source target w2 = (Ok (TargetStatus.mk target linked), w3)
        ∧ fs_root w3 = fs_root w2.
Proof.
  intros Hplain Hq Hlink%createLink_links Hsame. rewrite <- Hsame in Hlink.
  unfold target_status. rewrite (bind_ok _ _ _ _ _ (pathExists_run target w2)).
  rewrite Hlink, bool_decide_eq_true_2 by eauto. simpl.
  assert (quiet (log (CExists target) w2)) as Hq1 by by apply quiet_log.
  rewrite (bind_ok _ _ _ _ _ (fs_lstat_run target _ _ Hq1 Hlink)). simpl.
  assert (quiet (log (CLstat target) (log (CExists target) w2))) as Hq2 by by apply quiet_log.
  rewrite (bind_ok _ _ _ _ _ (resolveLinkTarget_run target _ _ Hq2 Hlink)).
  rewrite path_isAbsolute_path_string. unfold gets. unfold bind at 1.
  rewrite path_resolve_path_string by done.
  rewrite bool_decide_eq_false_2 by apply path_string_nonempty.
  rewrite bool_decide_eq_true_2 by done. simpl. eexists. split; [reflexivity|done].
Qed.

Lemma created_link_is_linked_witness :
  let w1 := snd (createLink agents_commands claude_commands SDir true None
                   (world_of home_stale_link)) in
  fst (target_status agents_commands claude_commands (world_of home_stale_link))
  = Ok (TargetStatus.mk claude_commands conflict)
  ∧ fst (target_status agents_commands claude_commands w1)
    = Ok (TargetStatus.mk claude_commands linked).
Proof.
  intros w1. split; [vm_compute; reflexivity|].
  destruct (created_link_is_linked agents_commands claude_commands SDir true None
              (world_of home_stale_link) false w1 w1) as (w3 & -> & _).
  - by repeat constructor.
  - intros c. reflexivity.
  - vm_compute. reflexivity.
  - reflexivity.
  - reflexivity.
Defined.

(** ** The status report *)

Lemma same_root_log c w : same_root w (log c w).
Proof. done. Qed.

Lemma pathExists_root p : preserves same_root (pathExists p).
Proof. apply preserves_pathExists. intros w. done. Qed.

Lemma fs_lstat_same_root p : preserves same_root (fs_lstat p).
Proof. intros w r w' H. by eapply fs_lstat_root. Qed.

Lemma fs_readlink_same_root p : preserves same_root (fs_readlink p).
Proof. intros w r w' H. by eapply fs_readlink_root. Qed.

Lemma getMappings_run opts w :
  ∃ ms, getMappings opts w
        = (Ok ms, log (CExists (path_join (ResolvedRoots.canonicalRoot
                                  (resolveRoots (root_options opts) w)) "GEMINI.md"))
                   (log (CExists (path_join (ResolvedRoots.canonicalRoot
                                  (resolveRoots (root_options opts) w)) "CLAUDE.md")) w)).
Proof. unfold getMappings, bind, gets, pathExists, ret. eauto. Qed.

Lemma resolveLinkTarget_looks target :
  preserves same_root (resolveLinkTarget target)
  ∧ preserves (calls_in looks) (resolveLinkTarget target).
Proof.
  unfold resolveLinkTarget. split.
  - apply preserves_catch; [apply _| |intros e; apply preserves_ret, _].
    apply preserves_bind; [apply _|apply fs_readlink_same_root|].
    intros link. destruct (negb _); apply preserves_ret, _.
  - apply preserves_catch; [apply _| |intros e; apply preserves_ret, _].
    apply preserves_bind; [apply _|by apply fs_readlink_calls|].
    intros link. destruct (negb _); apply preserves_ret, _.
Qed.

Lemma target_status_looks source target :
  preserves same_root (target_status source target)
  ∧ preserves (calls_in looks) (target_status source target).
Proof.
  unfold target_status. split.
  - apply preserves_bind; [apply _|apply pathExists_root|]. intros [|]; simpl;
      [|apply preserves_ret, _].
    apply preserves_bind; [apply _|apply fs_lstat_same_root|]. intros stat.
    case_bool_decide; [|apply preserves_ret, _].
    apply preserves_bind; [apply _|apply resolveLinkTarget_looks|]. intros resolved.
    apply preserves_bind; [apply _|apply preserves_gets, _|]. intros cwd.
    destruct (match resolved with Some _ => _ | None => _ end); apply preserves_ret, _.
  - apply preserves_bind; [apply _|by apply pathExists_calls|]. intros [|]; simpl;
      [|apply preserves_ret, _].
    apply preserves_bind; [apply _|by apply fs_lstat_calls|]. intros stat.
    case_bool_decide; [|apply preserves_ret, _].
    apply preserves_bind; [apply _|apply resolveLinkTarget_looks|]. intros resolved.
    apply preserves_bind; [apply _|apply preserves_gets, _|]. intros cwd.
    destruct (match resolved with Some _ => _ | None => _ end); apply preserves_ret, _.
Qed.

Lemma target_status_path source target w st w' :
  target_status source target w = (Ok st, w') → TargetStatus.path_ st = target.
Proof.
  unfold target_status. rewrite (bind_ok _ _ _ _ _ (pathExists_run target w)).
  destruct (negb _); [by intros [= <- _]|].
  intros (stat & w1 & _ & H)%bind_inv_ok. case_bool_decide; [|by injection H as <- _].
  apply bind_inv_ok in H as (resolved & w2 & _ & H).
  apply bind_inv_ok in H as (cwd & w3 & _ & H).
  destruct (match resolved with Some _ => _ | None => _ end); by injection H as <- _.
Qed.

Lemma target_status_quiet source target w :
  quiet w → ∃ st w', target_status source target w = (Ok st, w') ∧ quiet w'.
Proof.
  intros Hq. unfold target_status. rewrite (bind_ok _ _ _ _ _ (pathExists_run target w)).
  assert (quiet (log (CExists target) w)) as Hq1 by by apply quiet_log.
  destruct (tree_lookup target (fs_root w)) as [x|] eqn:Hx.
  - rewrite bool_decide_eq_true_2 by eauto. simpl.
    rewrite (bind_ok _ _ _ _ _ (fs_lstat_run target x _ Hq1 Hx)).
    assert (quiet (log (CLstat target) (log (CExists target) w))) as Hq2 by by apply quiet_log.
    destruct x as [data|text|es]; simpl; [by eauto| |by eauto].
    rewrite (bind_ok _ _ _ _ _ (resolveLinkTarget_run target text _ Hq2 Hx)).
    unfold gets. unfold bind at 1.
    destruct (_ && _); eexists _, _; (split; [reflexivity|by apply quiet_log]).
  - rewrite bool_decide_eq_false_2 by (by intros [? ?]). simpl. eauto.
Qed.

Lemma mapM_inv {A B} (f : A → M B) l w bs w' :
  mapM f l w = (Ok bs, w') → Forall2 (λ a b, ∃ wa wb, f a wa = (Ok b, wb)) l bs.
Proof.
  revert w bs w'. induction l as [|a l IH]; intros w bs w'; simpl.
  - intros [= <- _]. constructor.
  - intros (b & w1 & Hb & H)%bind_inv_ok. apply bind_inv_ok in H as (bs' & w2 & Hbs & H).
    injection H as <- _. constructor; [eauto|by eapply IH].
Qed.

Lemma mapM_quiet {A B} (f : A → M B) l w :
  (∀ a w, quiet w → ∃ b w', f a w = (Ok b, w') ∧ quiet w') →
  quiet w → ∃ bs w', mapM f l w = (Ok bs, w') ∧ quiet w'.
Proof.
  intros Hf. revert w. induction l as [|a l IH]; intros w Hq; simpl; [by eauto|].
  destruct (Hf a w Hq) as (b & w1 & Hb & Hq1). destruct (IH w1 Hq1) as (bs & w2 & Hbs & Hq2).
  exists (b :: bs), w2. by rewrite (bind_ok _ _ _ _ _ Hb), (bind_ok _ _ _ _ _ Hbs).
Qed.

(** X9. [getLinkStatus] only looks: whether it returns or throws, the
    file system is as it was and every call made is an existence test,
    an [lstat] or a [readlink].  When it returns, the report follows the
    mapping table: one status per mapping, in order, with its name and
    source, and one entry per target, in order.  With no failing call it
    does return. *)
Theorem getLinkStatus_only_looks opts w r w' :
  getLinkStatus opts w = (r, w') →
  fs_root w' = fs_root w
  ∧ calls_in looks w w'
  ∧ (∀ sts, r = Ok sts →
       ∃ ms w1, getMappings opts w = (Ok ms, w1)
         ∧ Forall2 (λ m st,
             LinkStatus.name st = Mapping.name m
             ∧ LinkStatus.source st = Mapping.source m
             ∧ TargetStatus.path_ <$> LinkStatus.targets st = Mapping.targets m) ms sts)
  ∧ (quiet w → ∃ sts, r = Ok sts).
Proof.
  intros H. destruct (getMappings_run opts w) as (ms & Hms).
  unfold getLinkStatus in H. rewrite (bind_ok _ _ _ _ _ Hms) in H.
  set (w1 := log _ (log _ w)) in *.
  set (row := λ mapping : Mapping.t,
    targets <- mapM (target_status (Mapping.source mapping)) (Mapping.targets mapping);;
    ret (LinkStatus.mk (Mapping.name mapping) (Mapping.source mapping) targets)) in *.
  assert (preserves same_root (mapM row ms) ∧ preserves (calls_in looks) (mapM row ms))
    as [Hroot Hcalls].
  { split; (apply preserves_mapM; [apply _|]); intros m; unfold row;
      (apply preserves_bind; [apply _| |intros ?; apply preserves_ret, _]);
      (apply preserves_mapM; [apply _|]); intros t; apply target_status_looks. }
  split; [|split; [|split]].
  - by apply Hroot in H.
  - apply Hcalls in H. etrans; [|exact H].
    etrans; apply calls_in_log; done.
  - intros sts ->. exists ms, w1. split; [done|].
    apply mapM_inv in H. eapply Forall2_impl; [exact H|].
    intros m st (wa & wb & Hrow). unfold row in Hrow.
    apply bind_inv_ok in Hrow as (targets & wc & Htargets%mapM_inv & Hrow).
    injection Hrow as <-. simpl. split; [done|]. split; [done|].
    clear -Htargets. induction Htargets as [|t st ts sts (wa & wb & Ht) _ IH]; [done|].
    simpl. f_equal; [by eapply target_status_path|done].
  - intros Hq. destruct (mapM_quiet row ms w1) as (sts & w2 & Hrun & _).
    + intros m w0 Hq0. unfold row.
      destruct (mapM_quiet (target_status (Mapping.source m)) (Mapping.targets m) w0)
        as (targets & w3 & Ht & Hq3); [intros t w3 Hq3; by apply target_status_quiet|done|].
      eexists _, w3. by rewrite (bind_ok _ _ _ _ _ Ht).
    + by do 2 apply quiet_log.
    + exists sts. congruence.
Qed.

(** ** Applying a plan again *)

Lemma tree_mkdirp_id p n es : tree_lookup p n = Some (Dir es) → tree_mkdirp p n = Some n.
Proof.
  revert n. induction p as [|s p IH]; intros n Hp.
  - injection Hp as ->. done.
  - destruct n as [| |es0]; try done. rewrite tree_lookup_cons in Hp. simpl.
    destruct (es0 !! s) as [c|] eqn:Hc; [|done]. simpl in Hp. simpl.
    rewrite (IH c Hp). simpl. by rewrite insert_id.
Qed.

Lemma ensureDir_id p es w :
  quiet w → tree_lookup p (fs_root w) = Some (Dir es) →
  ∃ w', ensureDir p w = (Ok (), w') ∧ fs_root w' = fs_root w ∧ quiet w'.
Proof.
  intros Hq Hp. eexists. split; [apply ensureDir_run; [done|by eapply tree_mkdirp_id]|].
  split; [done|]. by apply quiet_set_root, quiet_log.
Qed.

Lemma settled_kept root root' task : kept root root' → settled root task → settled root' task.
Proof.
  intros Hkept. destruct task as [? target ? ?| | |p []]; simpl; try done.
  - intros [s Hs]. exists s. by apply Hkept.
  - intros [[s Hs] Hd]. split; [exists s|]; by apply Hkept.
  - apply Hkept.
Qed.

Lemma stat_at_is_Some p n : is_Some (stat_at p n) ↔ is_Some (tree_lookup p n).
Proof. unfold stat_at. by rewrite fmap_is_Some. Qed.

Lemma apply_task_settles c task w c' w' :
  apply_task false None c task w = (Ok c', w') → settled (fs_root w') task.
Proof.
  destruct c as [[[applied skipped] conflicts] backedUp].
  destruct task as [source target kind r| | |p kind]; simpl; try done.
  - intros (before & w1 & Hex & H)%bind_inv_ok.
    apply bind_inv_ok in H as ([created b] & w2 & Hlink%createLink_links & H).
    assert (fs_root w2 = fs_root w') as <-.
    { destruct before; simpl in H; by injection H as _ <-. }
    apply stat_at_is_Some. destruct created; [by rewrite Hlink|].
    destruct Hlink as (_ & Hsome & Heq & _). by rewrite Heq.
  - intros ([] & w1 & Hsrc & H)%bind_inv_ok. injection H as _ <-. destruct kind; simpl in Hsrc.
    + unfold ensureFile in Hsrc.
      apply bind_inv_ok in Hsrc as ([] & w2 & Hmk%ensureDir_inv & Hsrc).
      destruct (tree_mkdirp_self _ _ _ Hmk) as (es & Hdir).
      rewrite (bind_ok _ _ _ _ _ (pathExists_run p w2)) in Hsrc.
      case_bool_decide as Hex.
      * injection Hsrc as <-. split; [by apply stat_at_is_Some|by eapply stat_at_dir].
      * destruct p as [|s p0] using rev_ind; [destruct Hex; eauto|].
        apply syscall_inv in Hsrc as [[_ Hsrc]|(e & _ & ? & _)]; [|done].
        change (fs_root (log _ (log _ w2))) with (fs_root w2) in Hsrc.
        assert (lift_tree (tree_create (p0 ++ [s]) (File (Utf8 DEFAULT_AGENTS)) (fs_root w2))
                  (log (CWriteFile (p0 ++ [s])) (log (CExists (p0 ++ [s])) w2)) = (Ok (), w1))
          as Hlift.
        { destruct (tree_lookup (p0 ++ [s]) (fs_root w2)) as [[| |]|]; done. }
        apply lift_tree_inv, tree_create_inv in Hlift.
        split.
        -- apply stat_at_is_Some. rewrite (tree_put_eq _ _ _ _ Hlift). eauto.
        -- change (p0 ++ [s]) with (path_join p0 s) in *. rewrite path_dirname_join in *.
           destruct (tree_put_above (path_join p0 s) p0 _ _ _ Hlift) as (es1 & es2 & _ & Hd).
           ++ by apply prefix_app_r.
           ++ unfold path_join. intros Heq. apply (f_equal length) in Heq.
              rewrite length_app in Heq. simpl in Heq. lia.
           ++ by eapply stat_at_dir.
    + apply ensureDir_inv in Hsrc. destruct (tree_mkdirp_self _ _ _ Hsrc) as (es & Hdir).
      by eapply stat_at_dir.
Qed.

Lemma apply_tasks_settle tasks c w c' w' :
  foldM (apply_task false None) c tasks w = (Ok c', w') →
  Forall (settled (fs_root w')) tasks.
Proof.
  revert c w. induction tasks as [|task tasks IH]; intros c w; simpl; [by constructor|].
  intros (c1 & w1 & H1 & H2)%bind_inv_ok. constructor; [|by eapply IH].
  eapply settled_kept; [by eapply apply_tasks_unforced_kept|by eapply apply_task_settles].
Qed.

Lemma createLink_skips source target kind backupDir w :
  is_Some (tree_lookup target (fs_root w)) →
  createLink source target kind false backupDir w = (Ok (false, false), log (CExists target) w).
Proof.
  intros Hs. unfold createLink. rewrite (bind_ok _ _ _ _ _ (pathExists_run target w)).
  by rewrite bool_decide_eq_true_2.
Qed.

Lemma ensureFile_id p content es w :
  quiet w → is_Some (tree_lookup p (fs_root w)) →
  tree_lookup (path_dirname p) (fs_root w) = Some (Dir es) →
  ∃ w', ensureFile p content w = (Ok (), w') ∧ fs_root w' = fs_root w ∧ quiet w'.
Proof.
  intros Hq Hp Hd. destruct (ensureDir_id _ es w Hq Hd) as (w1 & Hmk & Hroot & Hq1).
  unfold ensureFile. rewrite (bind_ok _ _ _ _ _ Hmk).
  rewrite (bind_ok _ _ _ _ _ (pathExists_run p w1)). rewrite Hroot.
  rewrite bool_decide_eq_true_2 by done.
  eexists. split; [reflexivity|]. split; [done|]. by apply quiet_log.
Qed.

Lemma apply_task_settled c task w :
  quiet w → settled (fs_root w) task →
  ∃ w', apply_task false None c task w
        = (Ok (let '(applied, skipped, conflicts, backedUp) := c in
               if is_conflict task then (applied, skipped, S conflicts, backedUp)
               else if creates_source task then (S applied, skipped, conflicts, backedUp)
               else (applied, S skipped, conflicts, backedUp)), w')
        ∧ fs_root w' = fs_root w ∧ quiet w'.
Proof.
  intros Hq Hs. destruct c as [[[applied skipped] conflicts] backedUp].
  destruct task as [source target kind r| | |p kind]; simpl in *.
  - apply stat_at_is_Some in Hs.
    rewrite (bind_ok _ _ _ _ _ (pathExists_run target w)).
    rewrite (bind_ok _ _ _ _ _ (createLink_skips source target kind None (log (CExists target) w) Hs)).
    rewrite bool_decide_eq_true_2 by done. simpl.
    eexists. split; [reflexivity|]. split; [done|]. by do 2 apply quiet_log.
  - eexists. split; [reflexivity|done].
  - eexists. split; [reflexivity|done].
  - destruct kind; simpl.
    + destruct Hs as [Hp%stat_at_is_Some (es & Hd)%stat_at_dir_inv].
      destruct (ensureFile_id p DEFAULT_AGENTS es w Hq Hp Hd) as (w1 & Hfile & Hroot & Hq1).
      rewrite (bind_ok _ _ _ _ _ Hfile). eexists. split; [reflexivity|done].
    + apply stat_at_dir_inv in Hs as (es & Hd).
      destruct (ensureDir_id _ es w Hq Hd) as (w1 & Hmk & Hroot & Hq1).
      rewrite (bind_ok _ _ _ _ _ Hmk). eexists. split; [reflexivity|done].
Qed.

Lemma apply_tasks_settled tasks c w :
  quiet w → Forall (settled (fs_root w)) tasks →
  ∃ c' w', foldM (apply_task false None) c tasks w = (Ok c', w')
    ∧ fs_root w' = fs_root w
    ∧ let '(applied, skipped, conflicts, backedUp) := c in
      let '(applied', skipped', conflicts', backedUp') := c' in
      applied' = applied + length (filter (λ t, creates_source t = true) tasks)
      ∧ skipped' = skipped
          + length (filter (λ t, is_conflict t = false ∧ creates_source t = false) tasks)
      ∧ conflicts' = conflicts + length (filter (λ t, is_conflict t = true) tasks)
      ∧ backedUp' = backedUp.
Proof.
  intros Hq Hall. revert c w Hq Hall. induction tasks as [|task tasks IH]; intros c w Hq Hall.
  - exists c, w. split; [done|]. split; [done|]. destruct c as [[[??]?]?]. simpl. lia.
  - apply Forall_cons in Hall as [Hs Hall].
    destruct (apply_task_settled c task w Hq Hs) as (w1 & H1 & Hroot1 & Hq1).
    rewrite <- Hroot1 in Hall.
    match type of H1 with
    | _ = (Ok ?c1, _) => destruct (IH c1 w1 Hq1 Hall) as (c' & w' & H2 & Hroot2 & Hc)
    end.
    exists c', w'. simpl. rewrite (bind_ok _ _ _ _ _ H1). split; [done|].
    split; [congruence|].
    destruct c as [[[applied skipped] conflicts] backedUp].
    destruct c' as [[[applied' skipped'] conflicts'] backedUp'].
    rewrite !filter_cons.
    destruct task; simpl in *; repeat case_decide; simpl; try naive_solver lia.
Qed.

(** X10. Applying a plan a second time without [force] changes nothing:
    once [applyLinkPlan] has returned, and with no failing call, the same
    plan applies again, leaves the file system as it is, creates no
    link, and counts every ensure-source task as applied, every conflict
    as a conflict and every other task as skipped. *)
Theorem apply_again_changes_nothing plan opts w res w1 :
  default false (opts ≫= ApplyOptions.force) = false →
  applyLinkPlan plan opts w = (Ok res, w1) →
  quiet w1 →
  ∃ res' w2,
    applyLinkPlan plan opts w1 = (Ok res', w2)
    ∧ fs_root w2 = fs_root w1
    ∧ ApplyResult.applied res'
      = length (filter (λ t, creates_source t = true) (LinkPlan.tasks plan))
    ∧ ApplyResult.skipped res'
      = length (filter (λ t, is_conflict t = false ∧ creates_source t = false)
                  (LinkPlan.tasks plan))
    ∧ ApplyResult.conflicts res' = ApplyResult.conflicts res
    ∧ ApplyResult.backedUp res' = 0.
Proof.
  intros Hforce H Hq. pose proof H as Hfirst.
  unfold applyLinkPlan in *. rewrite Hforce in *.
  change (bind (ret None) ?k ?w) with (k None w) in *. cbv beta in *.
  apply bind_inv_ok in H as (c & w0 & Hloop & H).
  assert (fs_root w0 = fs_root w1 ∧ ApplyResult.conflicts res
            = length (filter (λ t, is_conflict t = true) (LinkPlan.tasks plan))) as [Hroot Hconf].
  { pose proof (apply_tasks_unforced_counts _ _ _ _ _ Hloop) as Hcounts.
    destruct c as [[[applied skipped] conflicts] backedUp]. injection H as <- <-.
    simpl in *. split; [done|]. lia. }
  apply apply_tasks_settle in Hloop. rewrite Hroot in Hloop.
  destruct (apply_tasks_settled (LinkPlan.tasks plan) (0, 0, 0, 0) w1 Hq Hloop)
    as (c' & w2 & Hagain & Hroot2 & Hc).
  destruct c' as [[[applied' skipped'] conflicts'] backedUp'].
  eexists _, w2. rewrite (bind_ok _ _ _ _ _ Hagain). split; [reflexivity|].
  simpl in *. split; [done|]. rewrite Hconf. lia.
Qed.

Lemma apply_again_changes_nothing_witness :
  let plan := LinkPlan.mk [TLink agents_commands ["home"; "u"; ".factory"; "commands"] SDir false;
                           TEnsureSource ["home"; "u"; ".agents"; "hooks"] SDir;
                           TConflict agents_commands codex_prompts SDir "existing directory"]
                          [] [] in
  let first := applyLinkPlan plan None (world_of home_codex) in
  let second := applyLinkPlan plan None (snd first) in
  fst first = Ok (ApplyResult.mk 2 0 1 None 0)
  ∧ fst second = Ok (ApplyResult.mk 1 1 1 None 0)
  ∧ fs_root (snd second) = fs_root (snd first).
Proof.
  intros plan first second. split; [vm_compute; reflexivity|].
  destruct (apply_again_changes_nothing plan None (world_of home_codex)
              (ApplyResult.mk 2 0 1 None 0) (snd first)) as (res' & w2 & Hrun & Hroot & _).
  - reflexivity.
  - vm_compute. reflexivity.
  - intros c. vm_compute. reflexivity.
  - unfold second. rewrite Hrun. split; [|exact Hroot].
    simpl. f_equal. assert (fst second = Ok res') as Heq by (unfold second; by rewrite Hrun).
    vm_compute in Heq. by injection Heq as <-.
Defined.

(** ** Where the mapping table points *)

Lemma prefix_join_join (base : path) (d : list string) (s : string) :
  base ++ d `prefix_of` path_join (base ++ d) s.
Proof. by apply prefix_app_r. Qed.

(** X11. Every target of the mapping table lies in the folder of a
    selected client, under the home directory in global scope and under
    the project root in project scope, and every source lies in the
    canonical [.agents] folder of that base: a project-scope table points
    nowhere outside the project, and no client left out of the selection
    is ever linked. *)
Theorem getMappings_targets_selected opts w ms w' :
  getMappings opts w = (Ok ms, w') →
  let scope := MappingOptions.scope opts in
  let base := scope_base scope (resolveRoots (root_options opts) w) in
  Forall (λ m,
    path_join base ".agents" `prefix_of` Mapping.source m
    ∧ Forall (λ t, ∃ c, c ∈ default all_clients (MappingOptions.clients opts)
                        ∧ client_root scope c base `prefix_of` t) (Mapping.targets m)) ms.
Proof.
  destruct opts as [scope projectRoot homeDir clients].
  cbv beta iota zeta delta [getMappings bind gets pathExists ret MappingOptions.scope
    MappingOptions.clients root_options MappingOptions.projectRoot MappingOptions.homeDir].
  intros [= <- _].
  set (selected := default all_clients clients).
  assert (∀ (c : Client) base d s q,
    client_root scope c base = base ++ d →
    when (bool_decide (c ∈ selected)) (path_join (base ++ d) s) = Some q →
    ∃ c, c ∈ selected ∧ client_root scope c base `prefix_of` q) as Hwhen.
  { intros c base d s q Hroot. unfold when. case_bool_decide as Hc; [|done].
    intros [= <-]. exists c. split; [done|]. rewrite Hroot. apply prefix_join_join. }
  assert (∀ base s b, path_join base ".agents"
            `prefix_of` (if b : bool then path_join (path_join base ".agents") s
                         else path_join (path_join base ".agents") "AGENTS.md")) as Hsrc.
  { intros base s []; by apply prefix_app_r. }
  destruct scope; unfold resolveRoots; simpl;
    repeat (case_bool_decide; simpl);
    repeat first
      [ apply Forall_nil_2
      | apply Forall_cons_2
      | apply Forall_app_2
      | split
      | apply Hsrc
      | by apply prefix_app_r
      | apply filter_Boolean_Forall
      | match goal with
        | H : ?c ∈ selected |- _ =>
          exists c; split; [exact H|]; unfold client_root, path_join; by apply prefix_app_r
        end ].
Qed.
(** ** No target twice *)

Lemma NoDup_under (base : path) (suffixes : list path) :
  NoDup suffixes → NoDup ((base ++.) <$> suffixes).
Proof. apply NoDup_fmap_2. intros x y. apply app_inv_head. Qed.

Ltac pick_sublist :=
  repeat first [ apply sublist_nil_l | apply sublist_skip | apply sublist_cons ].

(** X12. No path is a target twice in the mapping table: no two mappings
    share a target and no mapping lists one twice, whatever the scope
    and the selection of clients. *)
Theorem getMappings_targets_distinct opts w ms w' :
  getMappings opts w = (Ok ms, w') → NoDup (concat (Mapping.targets <$> ms)).
Proof.
  destruct opts as [scope projectRoot homeDir clients].
  cbv beta iota zeta delta [getMappings bind gets pathExists ret MappingOptions.scope
    MappingOptions.clients root_options MappingOptions.projectRoot MappingOptions.homeDir].
  intros [= <- _].
  destruct scope; unfold resolveRoots; cbn [RootOptions.scope RootOptions.homeDir
    RootOptions.projectRoot ResolvedRoots.canonicalRoot ResolvedRoots.claudeRoot
    ResolvedRoots.factoryRoot ResolvedRoots.codexRoot ResolvedRoots.cursorRoot
    ResolvedRoots.opencodeRoot ResolvedRoots.opencodeConfigRoot ResolvedRoots.geminiRoot].
  - set (base := default (os_homedir w) homeDir).
    apply (sublist_NoDup _ ((base ++.) <$>
      [[".claude"; "CLAUDE.md"]; [".gemini"; "GEMINI.md"];
       [".factory"; "AGENTS.md"]; [".codex"; "AGENTS.md"]; [".config"; "opencode"; "AGENTS.md"];
       [".claude"; "commands"]; [".factory"; "commands"]; [".codex"; "prompts"];
       [".config"; "opencode"; "commands"]; [".cursor"; "commands"]; [".gemini"; "commands"];
       [".claude"; "hooks"]; [".factory"; "hooks"];
       [".claude"; "skills"]; [".factory"; "skills"]; [".codex"; "skills"];
       [".config"; "opencode"; "skills"]; [".cursor"; "skills"]; [".gemini"; "skills"]]));
      [apply NoDup_under; apply (bool_decide_unpack _); by vm_compute|].
    unfold path_join. rewrite <- !app_assoc.
    repeat (case_bool_decide; try discriminate; cbn); pick_sublist.
  - set (base := default (process_cwd w) projectRoot).
    apply (sublist_NoDup _ ((base ++.) <$>
      [[".claude"; "commands"]; [".factory"; "commands"]; [".codex"; "prompts"];
       [".opencode"; "commands"]; [".cursor"; "commands"]; [".gemini"; "commands"];
       [".claude"; "hooks"]; [".factory"; "hooks"];
       [".claude"; "skills"]; [".factory"; "skills"]; [".codex"; "skills"];
       [".opencode"; "skills"]; [".cursor"; "skills"]; [".gemini"; "skills"]]));
      [apply NoDup_under; apply (bool_decide_unpack _); by vm_compute|].
    unfold path_join. rewrite <- !app_assoc.
    repeat (case_bool_decide; try discriminate; cbn); pick_sublist.
Qed.

(** ** The preflight of a backup *)

Lemma same_root_kept w w' : same_root w w' → kept_world w w'.
Proof. unfold same_root, kept_world. intros ->. apply kept_refl. Qed.

Lemma preserves_weaken {A} (R R' : World → World → Prop) (m : M A) :
  (∀ w w', R w w' → R' w w') → preserves R m → preserves R' m.
Proof. intros HR Hm w r w' H. by eapply HR, Hm. Qed.

Lemma fs_access_looks p :
  preserves same_root (fs_access p) ∧ preserves (calls_in looks_or_mkdir) (fs_access p).
Proof.
  split.
  - apply preserves_syscall; [apply _|done|]. intros w r w' H.
    destruct (tree_lookup p (fs_root w)); by injection H as _ <-.
  - apply preserves_syscall; [apply _|intros ?; by apply calls_in_log|]. body_calls.
Qed.

Lemma needsLinkBackup_looks task forceLinks :
  preserves same_root (needsLinkBackup task forceLinks)
  ∧ preserves (calls_in looks_or_mkdir) (needsLinkBackup task forceLinks).
Proof.
  destruct task as [source target kind r| | |]; simpl;
    try (split; apply preserves_ret, _).
  split.
  - apply preserves_bind; [apply _|apply pathExists_root|]. intros [|]; simpl;
      [|apply preserves_ret, _].
    destruct forceLinks; [apply preserves_ret, _|]. destruct r; simpl; [|apply preserves_ret, _].
    apply preserves_catch; [apply _| |intros ?; apply preserves_ret, _].
    apply preserves_bind; [apply _|apply fs_lstat_same_root|intros ?; apply preserves_ret, _].
  - apply preserves_bind; [apply _|by apply pathExists_calls|]. intros [|]; simpl;
      [|apply preserves_ret, _].
    destruct forceLinks; [apply preserves_ret, _|]. destruct r; simpl; [|apply preserves_ret, _].
    apply preserves_catch; [apply _| |intros ?; apply preserves_ret, _].
    apply preserves_bind; [apply _|by apply fs_lstat_calls|intros ?; apply preserves_ret, _].
Qed.

Lemma ensureDir_kept_world p : preserves kept_world (ensureDir p).
Proof. intros w r w' H. by eapply ensureDir_kept. Qed.

Lemma preflight_target_prepares backup target :
  preserves kept_world (preflight_target backup target)
  ∧ preserves (calls_in looks_or_mkdir) (preflight_target backup target).
Proof.
  unfold preflight_target. split.
  - apply preserves_bind; [apply _| |].
    { eapply preserves_weaken; [apply same_root_kept|apply pathExists_root]. }
    intros [|]; simpl; [|apply preserves_ret, _].
    apply preserves_bind; [apply _| |].
    { eapply preserves_weaken; [apply same_root_kept|apply fs_lstat_same_root]. }
    intros stat. apply preserves_bind; [apply _| |].
    { case_bool_decide; [|apply preserves_ret, _].
      apply preserves_bind; [apply _| |intros ?; apply preserves_ret, _].
      eapply preserves_weaken; [apply same_root_kept|apply fs_readlink_same_root]. }
    intros _. apply preserves_bind; [apply _|apply ensureDir_kept_world|]. intros _.
    eapply preserves_weaken; [apply same_root_kept|apply fs_access_looks].
  - apply preserves_bind; [apply _|by apply pathExists_calls|].
    intros [|]; simpl; [|apply preserves_ret, _].
    apply preserves_bind; [apply _|by apply fs_lstat_calls|].
    intros stat. apply preserves_bind; [apply _| |].
    { case_bool_decide; [|apply preserves_ret, _].
      apply preserves_bind; [apply _|by apply fs_readlink_calls|intros ?; apply preserves_ret, _]. }
    intros _. apply preserves_bind; [apply _|by apply ensureDir_calls|]. intros _.
    apply fs_access_looks.
Qed.

Lemma set_add_NoDup p targets : NoDup targets → NoDup (set_add p targets).
Proof.
  intros Hnd. unfold set_add. case_bool_decide as Hin; [done|].
  apply NoDup_app. split; [done|]. split; [|apply NoDup_singleton].
  intros x Hx ->%list_elem_of_singleton. done.
Qed.

Lemma set_add_elem p q targets : q ∈ set_add p targets ↔ q = p ∨ q ∈ targets.
Proof.
  unfold set_add. case_bool_decide as Hin; [naive_solver|].
  rewrite elem_of_app, list_elem_of_singleton. naive_solver.
Qed.

Lemma foldM_invariant {A B} (I : A → Prop) (f : A → B → M A) a l w a' w' :
  (∀ a b w a' w', b ∈ l → I a → f a b w = (Ok a', w') → I a') →
  I a → foldM f a l w = (Ok a', w') → I a'.
Proof.
  revert a w. induction l as [|b l IH]; intros a w Hf Ha; simpl.
  - by intros [= <- _].
  - intros (a1 & w1 & H1 & H2)%bind_inv_ok. eapply (IH a1 w1); [| |done].
    + intros a0 b0 w0 a0' w0' Hin. apply Hf. by right.
    + eapply Hf; [|done..]. by left.
Qed.

(** X13. [preflightBackup] prepares and never touches: whether it returns
    or throws, every file, link and directory is still where it was with
    the same content, and the only calls made are existence tests,
    [lstat], [readlink] and the creation of directories.  The number it
    returns counts each path once: the targets are pairwise distinct,
    and each is the target of a task of the link plan or of a migration
    candidate that has a source. *)
Theorem preflight_never_touches opts w r w' :
  preflightBackup opts w = (r, w') →
  kept (fs_root w) (fs_root w')
  ∧ calls_in looks_or_mkdir w w'
  ∧ ∀ n, r = Ok n →
      ∃ targets, n = length targets ∧ NoDup targets
        ∧ ∀ t, t ∈ targets →
            (∃ task, task ∈ LinkPlan.tasks (PreflightOptions.linkPlan opts)
                     ∧ task_target task = Some t)
            ∨ (∃ candidate,
                 candidate ∈ collectMigrationCandidates (PreflightOptions.migratePlan opts)
                               (PreflightOptions.selections opts)
                 ∧ MigrationCandidate.targetPath candidate = t
                 ∧ is_Some (MigrationCandidate.sourcePath candidate)).
Proof.
  intros H. unfold preflightBackup in H.
  set (step1 := λ (targets : list path) (task : LinkTask),
    needs <- needsLinkBackup task (PreflightOptions.forceLinks opts);;
    ret (match task_target task with
         | Some target => if needs : bool then set_add target targets else targets
         | None => targets
         end)) in *.
  set (step2 := λ (targets : list path) (candidate : MigrationCandidate.t),
    match MigrationCandidate.sourcePath candidate with
    | None => ret targets
    | Some _ =>
      exists_ <- pathExists (MigrationCandidate.targetPath candidate);;
      ret (if exists_ : bool
           then set_add (MigrationCandidate.targetPath candidate) targets
           else targets)
    end) in *.
  set (step3 := λ (_ : ()) target, preflight_target (PreflightOptions.backup opts) target) in *.
  set (tasks := LinkPlan.tasks (PreflightOptions.linkPlan opts)) in *.
  set (candidates := collectMigrationCandidates _ _) in *.
  assert (∀ targets task, preserves same_root (step1 targets task)
                          ∧ preserves (calls_in looks_or_mkdir) (step1 targets task)) as H1.
  { intros targets task. unfold step1.
    split; (apply preserves_bind; [apply _|apply needsLinkBackup_looks|]);
      intros ?; apply preserves_ret, _. }
  assert (∀ targets candidate, preserves same_root (step2 targets candidate)
                          ∧ preserves (calls_in looks_or_mkdir) (step2 targets candidate)) as H2.
  { intros targets candidate. unfold step2.
    destruct (MigrationCandidate.sourcePath candidate); [|split; apply preserves_ret, _].
    split.
    - apply preserves_bind; [apply _|apply pathExists_root|intros ?; apply preserves_ret, _].
    - apply preserves_bind; [apply _|by apply pathExists_calls|intros ?; apply preserves_ret, _]. }
  split; [|split].
  - revert H. generalize w r w'. apply (preserves_bind kept_world).
    { eapply preserves_weaken; [apply same_root_kept|]. apply preserves_foldM; [apply _|].
      intros ??. apply H1. }
    intros targets1. apply preserves_bind; [apply _| |].
    { eapply preserves_weaken; [apply same_root_kept|]. apply preserves_foldM; [apply _|].
      intros ??. apply H2. }
    intros targets2. apply preserves_bind; [apply _| |intros ?; apply preserves_ret, _].
    apply preserves_foldM; [apply _|]. intros ??. apply preflight_target_prepares.
  - revert H. generalize w r w'. apply (preserves_bind (calls_in looks_or_mkdir)).
    { apply preserves_foldM; [apply _|]. intros ??. apply H1. }
    intros targets1. apply preserves_bind; [apply _| |].
    { apply preserves_foldM; [apply _|]. intros ??. apply H2. }
    intros targets2. apply preserves_bind; [apply _| |intros ?; apply preserves_ret, _].
    apply preserves_foldM; [apply _|]. intros ??. apply preflight_target_prepares.
  - intros n ->. apply bind_inv_ok in H as (targets1 & w1 & Hl1 & H).
    apply bind_inv_ok in H as (targets2 & w2 & Hl2 & H).
    apply bind_inv_ok in H as ([] & w3 & _ & H). injection H as <- _.
    exists targets2. split; [done|].
    set (from_tasks := λ t : path, ∃ task, task ∈ tasks ∧ task_target task = Some t).
    set (from_candidates := λ t : path, ∃ candidate,
           candidate ∈ candidates ∧ MigrationCandidate.targetPath candidate = t
           ∧ is_Some (MigrationCandidate.sourcePath candidate)).
    assert (NoDup targets1 ∧ ∀ t, t ∈ targets1 → from_tasks t) as [Hnd1 Hin1].
    { eapply (foldM_invariant (λ targets, NoDup targets ∧ ∀ t, t ∈ targets → from_tasks t));
        [|split; [constructor|by intros ? ?%elem_of_nil]|exact Hl1].
      intros targets task wa targets' wb Htask [Hnd Hin] Hstep. unfold step1 in Hstep.
      apply bind_inv_ok in Hstep as (needs & wc & _ & Hstep). injection Hstep as <- _.
      destruct (task_target task) as [target|] eqn:Ht; [|done].
      destruct needs; [|done]. split; [by apply set_add_NoDup|].
      intros t [->|?]%set_add_elem; [|by auto]. by exists task. }
    eapply (foldM_invariant (λ targets, NoDup targets
              ∧ ∀ t, t ∈ targets → from_tasks t ∨ from_candidates t));
      [|split; [exact Hnd1|by auto]|exact Hl2].
    intros targets candidate wa targets' wb Hcand [Hnd Hin] Hstep. unfold step2 in Hstep.
    destruct (MigrationCandidate.sourcePath candidate) as [src|] eqn:Hsrc;
      [|by injection Hstep as <- _].
    apply bind_inv_ok in Hstep as (exists_ & wc & _ & Hstep). injection Hstep as <- _.
    destruct exists_; [|done]. split; [by apply set_add_NoDup|].
    intros t [->|?]%set_add_elem; [|by auto]. right. exists candidate. by rewrite Hsrc.
Qed.

Lemma createLink_fresh_kept source target kind force backupDir w r w' :
  tree_lookup target (fs_root w) = None →
  createLink source target kind force backupDir w = (r, w') → kept (fs_root w) (fs_root w').
Proof.
  intros Hfree. unfold createLink. rewrite (bind_ok _ _ _ _ _ (pathExists_run target w)).
  rewrite Hfree, bool_decide_eq_false_2 by (by intros [? ?]).
  intros H.
  assert (preserves kept_world
    (ensureDir (path_dirname target);;
     fs_symlink (path_string source) target (Some (link_type kind));; ret (true, false)))
    as Hkept; [|by apply Hkept in H].
  apply preserves_bind; [apply _|apply ensureDir_kept_world|]. intros _.
  apply preserves_bind; [apply _| |intros ?; apply preserves_ret, _].
  intros w0 r0 w0' H0. by eapply fs_symlink_kept.
Qed.

Lemma createSource_kept p kind : preserves kept_world (createSource p kind).
Proof.
  intros w r w' H. destruct kind; simpl in H; [by eapply ensureFile_kept|by eapply ensureDir_kept].
Qed.

Lemma needsLinkBackup_false task forceLinks w w1 :
  needsLinkBackup task forceLinks w = (Ok false, w1) →
  match task with
  | TLink _ target _ _ => tree_lookup target (fs_root w) = None ∨ forceLinks = false
  | TConflict source target _ _ => forceLinks = false ∨ target = source
  | _ => True
  end.
Proof.
  destruct task as [source target kind r|source target kind reason| |]; simpl; try done.
  - rewrite (bind_ok _ _ _ _ _ (pathExists_run target w)).
    destruct (tree_lookup target (fs_root w)); [|by left].
    rewrite bool_decide_eq_true_2 by eauto. simpl. destruct forceLinks; [done|by right].
  - intros [= H]. apply andb_false_iff in H as [?|H]; [by left|right].
    apply bool_decide_eq_false in H. by destruct (decide (target = source)).
Qed.

(** X14. The preflight errs on the safe side of the apply: a task for
    which [needsLinkBackup] answers [false] is a task that [applyLinkPlan],
    with the same [force], applies without deleting or replacing
    anything. *)
Theorem no_backup_needed_means_nothing_lost task force w w1 :
  needsLinkBackup task force w = (Ok false, w1) →
  ∀ backupDir c r w2,
    apply_task force backupDir c task w = (r, w2) → kept (fs_root w) (fs_root w2).
Proof.
  intros Hneeds%needsLinkBackup_false backupDir [[[applied skipped] conflicts] backedUp] r w2.
  destruct task as [source target kind rs|source target kind reason| |p kind]; simpl.
  - rewrite (bind_ok _ _ _ _ _ (pathExists_run target w)).
    intros [([created b] & w3 & Hlink & H)|(e & Hlink & _)]%bind_inv.
    + assert (fs_root w2 = fs_root w3) as ->.
      { destruct (_ && _); by injection H as _ <-. }
      destruct Hneeds as [Hfree| ->];
        [exact (createLink_fresh_kept _ _ _ _ _ (log (CExists target) w) _ _ Hfree Hlink)
        |exact (createLink_unforced_kept _ _ _ _ (log (CExists target) w) _ _ Hlink)].
    + destruct Hneeds as [Hfree| ->];
        [exact (createLink_fresh_kept _ _ _ _ _ (log (CExists target) w) _ _ Hfree Hlink)
        |exact (createLink_unforced_kept _ _ _ _ (log (CExists target) w) _ _ Hlink)].
  - destruct Hneeds as [->| ->].
    + intros [= _ <-]. apply kept_refl.
    + rewrite bool_decide_eq_false_2 by (by intros H; apply H). rewrite andb_false_r.
      intros [= _ <-]. apply kept_refl.
  - intros [= _ <-]. apply kept_refl.
  - intros H.
    assert (preserves kept_world
      (createSource p kind;; ret (S applied, skipped, conflicts, backedUp)))
      as Hkept; [|by apply Hkept in H].
    apply preserves_bind; [apply _|apply createSource_kept|intros ?; apply preserves_ret, _].
Qed.

(** ** Migration *)

Lemma backupPath_entries target session w moved_ session' w' :
  backupPath target session w = (Ok (moved_, session'), w') →
  BackupSession.dir session' = BackupSession.dir session
  ∧ BackupSession._seen session ⊆ BackupSession._seen session'
  ∧ (is_Some (tree_lookup target (fs_root w)) →
     hasParentPath target (BackupSession._seen session') = true)
  ∧ (BackupSession.entries session' = BackupSession.entries session
     ∨ ∃ e, BackupSession.entries session' = BackupSession.entries session ++ [e]
            ∧ BackupEntry.originalPath e = target ∧ BackupEntry.action e = ABackup
            ∧ BackupEntry.backupPath e = Some (backupPathFor target (BackupSession.dir session))).
Proof.
  intros [(-> & -> & _ & Hno)|(-> & _ & x & w1 & Hx & _ & -> & _)]%backupPath_inv.
  - split; [done|]. split; [done|]. split; [|by left].
    intros [x Hx]. destruct Hno as [Hno|?]; [congruence|done].
  - split; [done|]. split; [rewrite record_seen; set_solver|]. split.
    + intros _. apply hasParentPath_self. rewrite record_seen. set_solver.
    + right. eexists. split; [reflexivity|done].
Qed.

Lemma recordCreatedPath_entries target kind session :
  let session' := recordCreatedPath target kind session in
  BackupSession.dir session' = BackupSession.dir session
  ∧ (BackupSession.entries session' = BackupSession.entries session
     ∨ ∃ e, BackupSession.entries session' = BackupSession.entries session ++ [e]
            ∧ BackupEntry.originalPath e = target ∧ BackupEntry.action e = ACreate
            ∧ BackupEntry.backupPath e = None).
Proof.
  unfold recordCreatedPath. destruct (hasParentPath _ _); simpl; [by auto|].
  split; [done|]. right. eexists. split; [reflexivity|done].
Qed.

(** X15. [copyCandidate] writes nowhere that the session does not cover.
    When it has copied, the candidate was a copy with a source, and the
    target, or a directory above it, is recorded in the session: when
    the copy began, what was at the target had been moved into the
    backup (entry [backup]) or the target had been recorded as created
    (entry [create]), unless a recorded path covered it already; at most
    one entry was added.  When it has not copied, the candidate was a
    keep or had no source, and nothing has changed. *)
Theorem copyCandidate_is_covered candidate backup w copied backup' w' :
  copyCandidate candidate backup w = (Ok (copied, backup'), w') →
  let targetPath := MigrationCandidate.targetPath candidate in
  if copied
  then MigrationCandidate.action candidate = copy
       ∧ is_Some (MigrationCandidate.sourcePath candidate)
       ∧ hasParentPath targetPath (BackupSession._seen backup') = true
       ∧ BackupSession._seen backup ⊆ BackupSession._seen backup'
       ∧ BackupSession.dir backup' = BackupSession.dir backup
       ∧ (BackupSession.entries backup' = BackupSession.entries backup
          ∨ ∃ e, BackupSession.entries backup' = BackupSession.entries backup ++ [e]
                 ∧ BackupEntry.originalPath e = targetPath
                 ∧ BackupEntry.action e
                   = if bool_decide (is_Some (tree_lookup targetPath (fs_root w)))
                     then ABackup else ACreate)
  else backup' = backup ∧ w' = w
       ∧ (MigrationCandidate.action candidate = keep
          ∨ MigrationCandidate.sourcePath candidate = None).
Proof.
  intros H targetPath. unfold copyCandidate in H. fold targetPath in H.
  destruct (MigrationCandidate.action candidate) eqn:Hact; last first.
  { injection H as <- <- <-. auto. }
  destruct (MigrationCandidate.sourcePath candidate) as [sourcePath|] eqn:Hsrc; last first.
  { injection H as <- <- <-. auto. }
  rewrite (bind_ok _ _ _ _ _ (pathExists_run targetPath w)) in H.
  apply bind_inv_ok in H as (session & w1 & Hrec & H).
  apply bind_inv_ok in H as ([] & w2 & _ & H). injection H as <- <- <-.
  split; [done|]. split; [done|].
  case_bool_decide as Hex.
  - apply bind_inv_ok in Hrec as ([moved_ session1] & w3 & Hb & Hrec). injection Hrec as <- _.
    apply backupPath_entries in Hb as (Hdir & Hseen & Hcov & Hentries).
    split; [by apply Hcov|]. split; [done|]. split; [done|].
    destruct Hentries as [?|(e & ? & ? & ? & _)]; [by left|right; by exists e].
  - injection Hrec as <- _. split; [apply recordCreatedPath_covers|].
    split; [apply recordCreatedPath_seen|].
    destruct (recordCreatedPath_entries targetPath
                (match MigrationCandidate.kind candidate with SDir => KDir | SFile => KFile end)
                backup) as (Hdir & Hentries).
    split; [done|]. destruct Hentries as [?|(e & ? & ? & ? & _)]; [by left|right; by exists e].
Qed.

Lemma copyCandidate_dir candidate backup w r w' :
  copyCandidate candidate backup w = (Ok r, w') →
  BackupSession.dir (snd r) = BackupSession.dir backup.
Proof.
  destruct r as [copied backup']. intros H%copyCandidate_is_covered. simpl.
  destruct copied; [by destruct H as (_ & _ & _ & _ & ? & _)|by destruct H as (-> & _)].
Qed.

Section migration_facts.
Context (buildLinkPlan : RootOptions.t → M LinkPlan.t).

(** X16. [applyMigration] asks for a backup session before anything
    else: without one it throws "Backup session required." and has made
    no call.  When it returns, every candidate has been counted once,
    [copied + skipped] being the number of automatic candidates and of
    conflicts, and [backupDir] is the directory of the session it was
    given. *)
Theorem applyMigration_counts plan selections opts w r w' :
  applyMigration buildLinkPlan plan selections opts w = (r, w') →
  match MigrationOptions.backup opts with
  | None => r = Throw (JsError "Backup session required.") ∧ w' = w
  | Some backup =>
    ∀ res session, r = Ok (res, session) →
      (MigrationResult.copied res + MigrationResult.skipped res
       = length (MigrationPlan.auto plan) + length (MigrationPlan.conflicts plan))%nat
      ∧ MigrationResult.backupDir res = BackupSession.dir backup
  end.
Proof.
  unfold applyMigration. destruct (MigrationOptions.backup opts) as [backup|];
    [|by intros [= <- <-]].
  intros H res session ->.
  apply bind_inv_ok in H as (st1 & w1 & Hauto & H).
  apply bind_inv_ok in H as (st2 & w2 & Hconf & H).
  destruct st2 as [[copied2 skipped2] backup2].
  apply bind_inv_ok in H as (linkPlan & w3 & _ & H).
  apply bind_inv_ok in H as (applied & w4 & _ & H). injection H as <- <-. simpl.
  set (I := λ (n : nat) (st : nat * nat * BackupSession.t),
    (st.1.1 + st.1.2 = n)%nat ∧ BackupSession.dir st.2 = BackupSession.dir backup).
  assert (∀ (B : Type) (f : nat * nat * BackupSession.t → B → M (nat * nat * BackupSession.t))
            l st w n st' w',
            (∀ st b w st' w' n, I n st → f st b w = (Ok st', w') → I (S n) st') →
            I n st → foldM f st l w = (Ok st', w') → I (n + length l)%nat st') as Hfold.
  { intros B f l. induction l as [|b l IH]; intros st w0 n st' w0' Hf Hst; simpl.
    - intros [= <- _]. by rewrite Nat.add_0_r.
    - intros (st1' & w1' & Hb & Hl)%bind_inv_ok.
      replace (n + S (length l))%nat with (S n + length l)%nat by lia.
      eapply IH; [done| |done]. by eapply Hf. }
  assert (I (0 + length (MigrationPlan.auto plan))%nat st1) as H1.
  { eapply Hfold; [| |exact Hauto]; [|done].
    intros [[copied skipped] session0] candidate w0 st' w0' n [Hn Hdir] Hstep.
    apply bind_inv_ok in Hstep as (r0 & w5 & Hcopy & Hstep).
    apply copyCandidate_dir in Hcopy. unfold I in *. simpl in *.
    destruct (fst r0); injection Hstep as <- _; simpl; split; first [lia|congruence]. }
  assert (I (0 + length (MigrationPlan.auto plan) + length (MigrationPlan.conflicts plan))%nat
            (copied2, skipped2, backup2)) as [H2 Hdir2]; [|simpl in *; split; [lia|done]].
  eapply Hfold; [|exact H1|exact Hconf].
  intros [[copied skipped] session0] conflict w0 st' w0' n [Hn Hdir] Hstep. unfold I in *.
  simpl in *.
  destruct (selection selections _) as [choice|]; [|injection Hstep as <- _; simpl; split; [lia|done]].
  case_bool_decide; [|injection Hstep as <- _; simpl; split; [lia|done]].
  apply bind_inv_ok in Hstep as (r0 & w5 & Hcopy & Hstep).
  apply copyCandidate_dir in Hcopy.
  destruct (fst r0); injection Hstep as <- _; simpl; split; first [lia|congruence].
Qed.
End migration_facts.


(** ** The counters of an apply *)

Lemma createLink_created source target kind backupDir w created backedUp w' :
  createLink source target kind true backupDir w = (Ok (created, backedUp), w') →
  created = true.
Proof.
  intros H%createLink_links. destruct created; [done|]. by destruct H.
Qed.

(** X18. The counters [applyLinkPlan] returns, with [force] as without:
    [conflicts] is the number of conflict tasks; every other task is
    counted once, as applied or as skipped; under [force] a conflict
    whose target is not its source is replaced and counted as applied
    too; and [backedUp] never exceeds [applied]. *)
Theorem applyLinkPlan_counts plan opts w res w' :
  applyLinkPlan plan opts w = (Ok res, w') →
  let force := default false (opts ≫= ApplyOptions.force) in
  let tasks := LinkPlan.tasks plan in
  ApplyResult.conflicts res = length (filter (λ t, is_conflict t = true) tasks)
  ∧ (ApplyResult.applied res + ApplyResult.skipped res
     = length (filter (λ t, is_conflict t = false) tasks)
       + (if force then length (filter (λ t, replaceable t = true) tasks) else 0))%nat
  ∧ (ApplyResult.backedUp res ≤ ApplyResult.applied res)%nat.
Proof.
  intros H force tasks. unfold applyLinkPlan in H. fold force in H.
  apply bind_inv_ok in H as (backupDir & w0 & _ & H).
  apply bind_inv_ok in H as (c & w1 & Hloop & H).
  set (I := λ (l : list LinkTask) (c0 c : nat * nat * nat * nat),
    let '(applied0, skipped0, conflicts0, backedUp0) := c0 in
    let '(applied, skipped, conflicts, backedUp) := c in
    (conflicts = conflicts0 + length (filter (λ t, is_conflict t = true) l)
     ∧ applied + skipped
       = applied0 + skipped0 + length (filter (λ t, is_conflict t = false) l)
         + (if force then length (filter (λ t, replaceable t = true) l) else 0)
     ∧ backedUp - backedUp0 ≤ applied - applied0
     ∧ applied0 ≤ applied ∧ backedUp0 ≤ backedUp)%nat).
  assert (∀ l c0 w0 c w1, foldM (apply_task force backupDir) c0 l w0 = (Ok c, w1) → I l c0 c)
    as Hfold.
  { clear. intros l. induction l as [|task l IH]; intros c0 w0 c w1; simpl.
    - intros [= <- _]. destruct c0 as [[[??]?]?]. simpl. destruct force; lia.
    - intros (c1 & w2 & Htask & Hrest%IH)%bind_inv_ok.
      destruct c0 as [[[applied0 skipped0] conflicts0] backedUp0].
      destruct c1 as [[[applied1 skipped1] conflicts1] backedUp1].
      destruct c as [[[applied skipped] conflicts] backedUp].
      unfold I in *. rewrite !filter_cons.
      assert ((match task with
               | TConflict _ _ _ _ =>
                 conflicts1 = S conflicts0 ∧ skipped1 = skipped0
                 ∧ applied1 = (if force && replaceable task then S applied0 else applied0)
               | _ => conflicts1 = conflicts0 ∧ applied1 + skipped1 = S (applied0 + skipped0)
                      ∧ applied0 ≤ applied1
               end ∧ backedUp0 ≤ backedUp1
               ∧ backedUp1 - backedUp0 ≤ applied1 - applied0 ∧ applied0 ≤ applied1)%nat) as Hstep.
      { clear Hrest IH. destruct task as [s t k r|s t k r|s t k|p k]; simpl in Htask.
        - apply bind_inv_ok in Htask as (before & w3 & Hex & Htask).
          apply bind_inv_ok in Htask as ([created b] & w4 & Hlink & Htask).
          rewrite pathExists_run in Hex. injection Hex as <- <-.
          pose proof Hlink as Hlink0. apply createLink_links in Hlink. simpl in Htask.
          destruct created.
          + case_bool_decide as Hex.
            * destruct force; simpl in Htask; [|].
              -- injection Htask as <- <- <- <-. destruct b; simpl; lia.
              -- by rewrite (createLink_skips s t k backupDir (log (CExists t) w0) Hex) in Hlink0.
            * simpl in Htask. injection Htask as <- <- <- <-. destruct b; simpl; lia.
          + destruct Hlink as (Hf & Hsome & _ & ->). rewrite Hf in *.
            rewrite bool_decide_eq_true_2 in Htask by done. simpl in Htask.
            injection Htask as <- <- <- <-. simpl. lia.
        - simpl. destruct (force && bool_decide (t ≠ s)) eqn:Hrep.
          + apply bind_inv_ok in Htask as ([created b] & w4 & Hlink & Htask).
            injection Htask as <- <- <- <-. destruct b; simpl; lia.
          + injection Htask as <- <- <- <-. simpl. lia.
        - injection Htask as <- <- <- <-. lia.
        - apply bind_inv_ok in Htask as ([] & w4 & _ & Htask).
          injection Htask as <- <- <- <-. lia. }
      destruct task as [s t k r|s t k r|s t k|p k]; simpl in *;
        repeat case_decide; try done; simpl;
        repeat match goal with H : context [bool_decide ?P] |- _ => destruct (bool_decide P) end;
        destruct force; simpl in *; lia. }
  apply Hfold in Hloop. unfold I in Hloop.
  destruct c as [[[applied skipped] conflicts] backedUp]. injection H as <- _.
  subst tasks. simpl in *. destruct force; lia.
Qed.

(** ** New sessions *)



Lemma createBackupSession_inv opts w session w' :
  createBackupSession opts w = (Ok session, w') →
  ∃ timestamp,
    let dir := SessionOptions.canonicalRoot opts ++ ["backup"; timestamp] in
    session = BackupSession.mk dir (path_join dir MANIFEST_NAME)
                (BackupSession.createdAt session)
                (SessionOptions.scope opts) (SessionOptions.operation opts) [] ∅
    ∧ (if bool_decide (default "" (SessionOptions.timestamp opts) = "")
       then timestamp = replace_colon_dot (clock w (ticks w))
            ∧ BackupSession.createdAt session = clock w (S (ticks w))
       else timestamp = default "" (SessionOptions.timestamp opts)
            ∧ BackupSession.createdAt session = clock w (ticks w))
    ∧ (∃ es, tree_lookup dir (fs_root w') = Some (Dir es))
    ∧ kept (fs_root w) (fs_root w').
Proof.
  unfold createBackupSession. intros (timestamp & w1 & Hts & H)%bind_inv_ok.
  apply bind_inv_ok in H as ([] & w2 & Hmk & H).
  apply bind_inv_ok in H as (createdAt & w3 & Hnow & H). injection H as <- <-.
  injection Hnow as <- <-. exists timestamp. simpl.
  assert (fs_root w1 = fs_root w ∧
    if bool_decide (default "" (SessionOptions.timestamp opts) = "")
    then timestamp = replace_colon_dot (clock w (ticks w)) ∧ clock w2 (ticks w2) = clock w (S (ticks w))
    else timestamp = default "" (SessionOptions.timestamp opts)
         ∧ clock w2 (ticks w2) = clock w (ticks w)) as [Hroot Hclock].
  { assert (clock w2 = clock w1 ∧ ticks w2 = ticks w1) as [Hc Ht].
    { apply syscall_inv in Hmk as [[_ Hmk]|(e & _ & ? & _)]; [|done].
      unfold lift_tree in Hmk. case_match; by simplify_eq. }
    rewrite Hc, Ht. case_bool_decide.
    - apply bind_inv_ok in Hts as (iso & w0 & [= <- <-] & [= <- <-]). done.
    - by injection Hts as <- <-. }
  split; [done|]. split; [done|]. split.
  - apply ensureDir_inv in Hmk. by eapply tree_mkdirp_self.
  - rewrite <- Hroot. change (fs_root (tick w2)) with (fs_root w2). by eapply ensureDir_kept.
Qed.



(** ** The session of an undo *)

Lemma sweep_session entries session w session' w' :
  backupExistingOriginals entries session w = (Ok session', w') →
  BackupSession.dir session' = BackupSession.dir session
  ∧ BackupSession.manifestPath session' = BackupSession.manifestPath session
  ∧ BackupSession.scope session' = BackupSession.scope session
  ∧ BackupSession.operation session' = BackupSession.operation session
  ∧ BackupSession.createdAt session' = BackupSession.createdAt session
  ∧ (Forall (λ e, BackupEntry.action e = ABackup
                  ∧ BackupEntry.originalPath e ∈ BackupEntry.originalPath <$> entries)
       (BackupSession.entries session) →
     Forall (λ e, BackupEntry.action e = ABackup
                  ∧ BackupEntry.originalPath e ∈ BackupEntry.originalPath <$> entries)
       (BackupSession.entries session')).
Proof.
  assert (∀ all, entries ⊆ all →
    backupExistingOriginals entries session w = (Ok session', w') →
    BackupSession.dir session' = BackupSession.dir session
    ∧ BackupSession.manifestPath session' = BackupSession.manifestPath session
    ∧ BackupSession.scope session' = BackupSession.scope session
    ∧ BackupSession.operation session' = BackupSession.operation session
    ∧ BackupSession.createdAt session' = BackupSession.createdAt session
    ∧ (Forall (λ e, BackupEntry.action e = ABackup
                    ∧ BackupEntry.originalPath e ∈ BackupEntry.originalPath <$> all)
         (BackupSession.entries session) →
       Forall (λ e, BackupEntry.action e = ABackup
                    ∧ BackupEntry.originalPath e ∈ BackupEntry.originalPath <$> all)
         (BackupSession.entries session'))) as Hgen; [|by apply Hgen].
  intros all. revert session w. induction entries as [|e entries IH]; intros session w Hsub.
  - by intros [= <- _].
  - rewrite sweep_cons. cbv zeta. case_bool_decide as Hex.
    + destruct (backupPath _ session _) as [[[moved_ s1]|err] w1] eqn:Hb; [|done].
      simpl. intros H. apply IH in H as (-> & -> & -> & -> & -> & Hall); [|set_solver].
      apply backupPath_inv in Hb
        as [(_ & -> & _)|(_ & _ & x & w2 & _ & _ & -> & _)]; [done|].
      simpl. repeat (split; [done|]). intros Hs. apply Hall. apply Forall_app. split; [done|].
      constructor; [|done]. simpl. split; [done|]. apply list_elem_of_fmap.
      exists e. split; [done|]. apply Hsub. by left.
    + intros H. apply IH in H; [done|set_solver].
Qed.

(** X20. An undo is an operation of its own: when [undoLastChange]
    returns, the directory it reports as [backupDir] holds a manifest
    that reads back, with operation ["undo"], the scope of the call and
    nothing but [backup] entries, each for an original path of the
    manifest that was undone.  So the undo can itself be undone. *)
Theorem undo_is_recorded opts w r w' :
  undoLastChange opts w = (Ok r, w') →
  quiet w' →
  ∃ undone w1 m w2,
    findLatestBackup (ResolvedRoots.canonicalRoot (resolveRoots opts w)) w
    = (Ok (Some (RestoreResult.undoneDir r, undone)), w1)
    ∧ loadBackupManifest (RestoreResult.backupDir r) w' = (Ok (Some m), w2)
    ∧ BackupManifest.operation m = "undo"
    ∧ BackupManifest.scope m = RootOptions.scope opts
    ∧ Forall (λ e, BackupEntry.action e = ABackup
                   ∧ BackupEntry.originalPath e
                     ∈ BackupEntry.originalPath <$> BackupManifest.entries undone)
        (BackupManifest.entries m).
Proof.
  intros (dir & undone & w1 & session & w2 & session' & w3 & c & w4
          & Hfind & Hcreate & Hsweep & _ & Hfinal & ->)%undoLastChange_inv Hq.
  apply createBackupSession_inv in Hcreate as (timestamp & Hsession & _).
  apply sweep_session in Hsweep as (Hdir & Hpath & Hscope & Hop & _ & Hentries).
  apply fs_writeFile_inv in Hfinal as [Hfile _].
  rewrite Hpath, Hsession in Hfile. simpl in Hfile. rewrite Hsession in Hdir. simpl in Hdir.
  rewrite <- Hdir in Hfile.
  destruct (loadBackupManifest_run (BackupSession.dir session') (manifest_of session') w')
    as (w5 & Hload & _); [done|done|].
  exists undone, w1, (manifest_of session'), w5. simpl.
  split; [done|]. split; [done|]. rewrite Hop, Hscope, Hsession. simpl.
  split; [done|]. split; [done|]. apply Hentries. rewrite Hsession. constructor.
Qed.

(** ** The migration scan *)

Section looking.
Context (R : World → World → Prop) `{!PreOrder R}.
Context (Hlog : ∀ c w, looks c → R w (log c w)).

Lemma looking_syscall {A} c (body : M A) :
  looks c → (∀ w r w', body w = (r, w') → w' = w) → preserves R (syscall c body).
Proof.
  intros Hc Hbody. apply preserves_syscall; [done|by auto|].
  intros w r w' ->%Hbody. reflexivity.
Qed.

Lemma looking_pathExists p : preserves R (pathExists p).
Proof. apply preserves_pathExists. intros w. by apply Hlog. Qed.

Lemma looking_lstat p : preserves R (fs_lstat p).
Proof.
  apply looking_syscall; [done|]. intros w r w' H.
  destruct (tree_lookup p (fs_root w)); by injection H.
Qed.

Lemma looking_readdir p : preserves R (fs_readdir p).
Proof.
  apply looking_syscall; [done|]. intros w r w' H.
  destruct (tree_lookup p (fs_root w)) as [[| |]|]; by injection H.
Qed.

Lemma looking_isSymlink p : preserves R (isSymlink p).
Proof.
  apply preserves_catch; [done| |intros ?; by apply preserves_ret].
  apply preserves_bind; [done|apply looking_lstat|intros ?; by apply preserves_ret].
Qed.

Lemma looking_listFiles p : preserves R (listFiles p).
Proof.
  apply preserves_catch; [done| |intros ?; by apply preserves_ret].
  apply preserves_bind; [done|apply looking_readdir|intros ?; by apply preserves_ret].
Qed.

Lemma looking_passed_over p : preserves R (passed_over p).
Proof.
  apply preserves_bind; [done|apply looking_pathExists|].
  intros [|]; [apply looking_isSymlink|by apply preserves_ret].
Qed.

Lemma looking_scan_files canonicalDir m src : preserves R (scan_files canonicalDir m src).
Proof.
  apply preserves_bind; [done|apply looking_passed_over|].
  intros [|]; [by apply preserves_ret|].
  apply preserves_bind; [done|apply looking_listFiles|intros ?; by apply preserves_ret].
Qed.

Lemma looking_scan_file canonicalFile m src : preserves R (scan_file canonicalFile m src).
Proof.
  apply preserves_bind; [done|apply looking_passed_over|].
  intros [|]; by apply preserves_ret.
Qed.

Lemma looking_classify_target canonicalRoot st entry :
  preserves R (classify_target canonicalRoot st entry).
Proof.
  destruct st as [auto conflicts], entry as [targetPath list_]. simpl.
  apply preserves_bind; [done|apply looking_pathExists|]. intros canonicalExists.
  apply preserves_bind; [done| |].
  - destruct canonicalExists; [|by apply preserves_ret].
    apply preserves_bind; [done| |intros ?; by apply preserves_ret].
    apply preserves_catch; [done| |intros ?; by apply preserves_ret].
    apply preserves_bind; [done|apply looking_lstat|intros ?; by apply preserves_ret].
  - intros l. destruct (_ && _); by apply preserves_ret.
Qed.

Context (findSkillDirs : path → M (list path)) (parseSkillFile : path → M string).
Context (HfindSkillDirs : ∀ p, preserves R (findSkillDirs p)).
Context (HparseSkillFile : ∀ p, preserves R (parseSkillFile p)).

Lemma looking_scan_skills canonicalSkills m src :
  preserves R (scan_skills findSkillDirs parseSkillFile canonicalSkills m src).
Proof.
  apply preserves_bind; [done|apply looking_passed_over|].
  intros [|]; [by apply preserves_ret|].
  apply preserves_bind; [done|apply HfindSkillDirs|]. intros skillDirs.
  apply preserves_foldM; [done|]. intros m0 dir.
  apply preserves_catch; [done| |intros ?; by apply preserves_ret].
  apply preserves_bind; [done|apply HparseSkillFile|intros ?; by apply preserves_ret].
Qed.

Lemma looking_scanMigration opts :
  preserves R (scanMigration findSkillDirs parseSkillFile opts).
Proof.
  unfold scanMigration.
  apply preserves_bind; [done|by apply preserves_gets|]. intros roots.
  apply preserves_bind; [done| |intros m1].
  { apply preserves_foldM; [done|]. intros ??. apply looking_scan_files. }
  apply preserves_bind; [done| |intros m2].
  { apply preserves_foldM; [done|]. intros ??. apply looking_scan_files. }
  apply preserves_bind; [done| |intros m3].
  { apply preserves_foldM; [done|]. intros ??. apply looking_scan_skills. }
  apply preserves_bind; [done| |intros m4].
  { apply preserves_foldM; [done|]. intros ??. apply looking_scan_file. }
  apply preserves_bind; [done| |intros m5].
  { apply preserves_foldM; [done|]. intros ??. apply looking_scan_file. }
  apply preserves_bind; [done| |intros st; by apply preserves_ret].
  apply preserves_foldM; [done|]. intros ??. apply looking_classify_target.
Qed.
End looking.

(** X21. [scanMigration] only looks, as long as the two functions it
    takes from [skills.ts] only look: whether it returns or throws, the
    file system is as it was, and every call made since it began is one
    that reads: an existence test, an [lstat], a [readlink], a [readdir]
    or a [readFile]. *)
Theorem scanMigration_only_looks findSkillDirs parseSkillFile opts w r w' :
  (∀ p, preserves same_root (findSkillDirs p)
        ∧ preserves (calls_in looks) (findSkillDirs p)) →
  (∀ p, preserves same_root (parseSkillFile p)
        ∧ preserves (calls_in looks) (parseSkillFile p)) →
  scanMigration findSkillDirs parseSkillFile opts w = (r, w') →
  fs_root w' = fs_root w ∧ calls_in looks w w'.
Proof.
  intros Hfind Hparse H. split.
  - eapply (looking_scanMigration same_root); [done|apply Hfind|apply Hparse|exact H].
  - eapply (looking_scanMigration (calls_in looks));
      [intros ???; by apply calls_in_log|apply Hfind|apply Hparse|exact H].
Qed.

Lemma addCandidate_keyed candidate m :
  MigrationCandidate.action candidate = copy →
  is_Some (MigrationCandidate.sourcePath candidate) →
  well_keyed m → well_keyed (addCandidate candidate m)
  ∧ ∀ k, k ∈ (addCandidate candidate m).*1
         ↔ k = MigrationCandidate.targetPath candidate ∨ k ∈ m.*1.
Proof.
  intros Hact Hsrc [Hnd Hall]. unfold addCandidate.
  set (targetPath := MigrationCandidate.targetPath candidate).
  case_bool_decide as Hin.
  - set (f := λ e : path * list MigrationCandidate.t,
               if bool_decide (e.1 = targetPath) then (e.1, e.2 ++ [candidate]) else e).
    assert (∀ e, (f e).1 = e.1) as Hkey by (intros e; unfold f; by case_bool_decide).
    assert ((f <$> m).*1 = m.*1) as Hkeys.
    { rewrite <- list_fmap_compose. apply list_fmap_ext. intros ? e _. apply Hkey. }
    split; [split|].
    + by rewrite Hkeys.
    + apply Forall_fmap. eapply Forall_impl; [exact Hall|]. intros e [Hne He]. simpl.
      unfold f. case_bool_decide as Hk; [|done]. simpl. split; [by destruct e.2|].
      apply Forall_app. split; [done|]. constructor; [|done]. by rewrite Hk.
    + intros k. rewrite Hkeys. naive_solver.
  - split; [split|].
    + rewrite fmap_app. apply NoDup_app. split; [done|]. split; [|apply NoDup_singleton].
      intros k Hk ->%list_elem_of_singleton. done.
    + apply Forall_app. split; [done|]. constructor; [|done]. simpl. split; [done|].
      by repeat constructor.
    + intros k. rewrite fmap_app, elem_of_app. simpl. rewrite list_elem_of_singleton.
      naive_solver.
Qed.

Lemma classify_target_inv canonicalRoot auto conflicts targetPath list_ w auto' conflicts' w' :
  list_ ≠ [] → Forall (copies_to targetPath) list_ →
  classify_target canonicalRoot (auto, conflicts) (targetPath, list_) w
  = (Ok (auto', conflicts'), w') →
  fs_root w' = fs_root w
  ∧ ((∃ only, list_ = [only] ∧ tree_lookup targetPath (fs_root w) = None
              ∧ auto' = auto ++ [only] ∧ conflicts' = conflicts)
     ∨ (∃ conflict,
          auto' = auto ∧ conflicts' = conflicts ++ [conflict]
          ∧ MigrationConflict.targetPath conflict = targetPath
          ∧ MigrationConflict.label conflict = conflictLabel targetPath canonicalRoot
          ∧ (2 ≤ length (MigrationConflict.candidates conflict))%nat
          ∧ match tree_lookup targetPath (fs_root w) with
            | Some x =>
              ∃ kept_one,
                MigrationConflict.candidates conflict = kept_one :: list_
                ∧ MigrationCandidate.action kept_one = keep
                ∧ MigrationCandidate.targetPath kept_one = targetPath
                ∧ MigrationCandidate.sourcePath kept_one = None
            | None => MigrationConflict.candidates conflict = list_
            end)).
Proof.
  intros Hne Hall H.
  assert (fs_root w' = fs_root w) as Hroot.
  { eapply (looking_classify_target same_root); [done|exact H]. }
  split; [done|]. simpl in H.
  rewrite (bind_ok _ _ _ _ _ (pathExists_run targetPath w)) in H.
  destruct (tree_lookup targetPath (fs_root w)) as [x|] eqn:Hx.
  - rewrite bool_decide_eq_true_2 in H by eauto.
    apply bind_inv_ok in H as (l & w1 & Hl & H).
    apply bind_inv_ok in Hl as (kind & w2 & _ & Hl). injection Hl as <- _.
    rewrite andb_false_r in H. injection H as <- <- _.
    right. eexists. split; [done|]. split; [done|]. simpl. split; [done|]. split; [done|].
    split; [destruct list_; [done|simpl; lia]|]. eexists. by split.
  - rewrite bool_decide_eq_false_2 in H by (by intros [? ?]).
    apply bind_inv_ok in H as (l & w1 & [= <- <-] & H). rewrite andb_true_r in H.
    case_bool_decide as Hlen.
    + destruct list_ as [|only [|??]]; try done. injection H as <- <- _.
      left. by exists only.
    + injection H as <- <- _. right. eexists. split; [done|]. split; [done|]. simpl.
      split; [done|]. split; [done|]. split; [|done].
      destruct list_ as [|? [|??]]; simpl in *; try done. lia.
Qed.

Section scan_facts.
Context (canonicalRoot : path).


Lemma scanned_add candidate m :
  MigrationCandidate.action candidate = copy →
  is_Some (MigrationCandidate.sourcePath candidate) →
  canonicalRoot `prefix_of` MigrationCandidate.targetPath candidate →
  scanned canonicalRoot m → scanned canonicalRoot (addCandidate candidate m).
Proof.
  intros Hact Hsrc Hpre [Hm Hunder].
  destruct (addCandidate_keyed candidate m Hact Hsrc Hm) as [Hkeyed Hkeys].
  split; [done|]. apply Forall_forall. intros k [->|Hk]%Hkeys; [done|].
  by eapply Forall_forall in Hunder.
Qed.

Lemma scanned_scan_files name m src w m' w' :
  scan_files (path_join canonicalRoot name) m src w = (Ok m', w') →
  scanned canonicalRoot m → scanned canonicalRoot m'.
Proof.
  unfold scan_files. intros (skip & w1 & _ & H)%bind_inv_ok Hm.
  destruct skip; [by injection H as <- _|].
  apply bind_inv_ok in H as (files & w2 & _ & H). injection H as <- _.
  clear -Hm. revert m Hm. induction files as [|file files IH]; intros m Hm; [done|].
  simpl. apply IH. apply scanned_add; simpl; [done|by eauto|by do 2 apply prefix_app_r|done].
Qed.

Lemma scanned_scan_file name m src w m' w' :
  scan_file (path_join canonicalRoot name) m src w = (Ok m', w') →
  scanned canonicalRoot m → scanned canonicalRoot m'.
Proof.
  unfold scan_file. intros (skip & w1 & _ & H)%bind_inv_ok Hm.
  destruct skip; injection H as <- _; [done|].
  apply scanned_add; simpl; [done|by eauto|by apply prefix_app_r|done].
Qed.

Lemma scanned_scan_skills findSkillDirs parseSkillFile name m src w m' w' :
  scan_skills findSkillDirs parseSkillFile (path_join canonicalRoot name) m src w = (Ok m', w') →
  scanned canonicalRoot m → scanned canonicalRoot m'.
Proof.
  unfold scan_skills. intros (skip & w1 & _ & H)%bind_inv_ok Hm.
  destruct skip; [by injection H as <- _|].
  apply bind_inv_ok in H as (skillDirs & w2 & _ & H).
  eapply (foldM_invariant (scanned canonicalRoot)); [|exact Hm|exact H].
  intros m0 dir wa m1 wb _ Hm0 [(m2 & Hok & [= <-])|(e & wc & _ & [= <- _])]%catch_inv; [|done].
  apply bind_inv_ok in Hok as (skill & wd & _ & [= <- _]).
  apply scanned_add; simpl; [done|by eauto|by do 2 apply prefix_app_r|done].
Qed.

Lemma classify_all m :
  ∀ auto conflicts w auto' conflicts' w',
    scanned canonicalRoot m →
    foldM (classify_target canonicalRoot) (auto, conflicts) m w = (Ok (auto', conflicts'), w') →
    ∃ auto1 conflicts1,
      auto' = auto ++ auto1 ∧ conflicts' = conflicts ++ conflicts1
      ∧ (MigrationCandidate.targetPath <$> auto1)
          ++ (MigrationConflict.targetPath <$> conflicts1) ≡ₚ m.*1
      ∧ Forall (λ c, copies_to (MigrationCandidate.targetPath c) c
                     ∧ canonicalRoot `prefix_of` MigrationCandidate.targetPath c
                     ∧ tree_lookup (MigrationCandidate.targetPath c) (fs_root w) = None) auto1
      ∧ Forall (λ cf,
          let targetPath := MigrationConflict.targetPath cf in
          canonicalRoot `prefix_of` targetPath
          ∧ MigrationConflict.label cf = conflictLabel targetPath canonicalRoot
          ∧ (2 ≤ length (MigrationConflict.candidates cf))%nat
          ∧ match tree_lookup targetPath (fs_root w) with
            | Some _ =>
              ∃ kept_one offered,
                MigrationConflict.candidates cf = kept_one :: offered
                ∧ MigrationCandidate.action kept_one = keep
                ∧ MigrationCandidate.targetPath kept_one = targetPath
                ∧ offered ≠ [] ∧ Forall (copies_to targetPath) offered
            | None => Forall (copies_to targetPath) (MigrationConflict.candidates cf)
            end) conflicts1.
Proof.
  induction m as [|[targetPath list_] m IH]; intros auto conflicts w auto' conflicts' w' Hm.
  - intros [= <- <- _]. exists [], []. rewrite !app_nil_r. by repeat split.
  - simpl. intros ([auto1 conflicts1] & w1 & Hstep & Hrest)%bind_inv_ok.
    destruct Hm as [[Hnd Hall] Hunder]. simpl in Hnd, Hunder.
    apply NoDup_cons in Hnd as [Hfresh Hnd]. apply Forall_cons in Hall as [[Hne Hlist] Hall].
    apply Forall_cons in Hunder as [Hpre Hunder]. simpl in Hne, Hlist.
    apply classify_target_inv in Hstep as [Hroot Hstep]; [|done..].
    apply IH in Hrest as (auto2 & conflicts2 & -> & -> & Hperm & Hauto & Hconf);
      [|by repeat split].
    rewrite Hroot in Hauto, Hconf.
    destruct Hstep as [(only & -> & Hfree & -> & ->)
                      |(conflict & -> & -> & Htarget & Hlabel & Hlen & Hcands)].
    + exists (only :: auto2), conflicts2. rewrite <- !app_assoc. simpl.
      apply Forall_inv in Hlist. pose proof Hlist as (Hto & _).
      split; [done|]. split; [done|]. split; [by rewrite Hto, Hperm|].
      split; [|done]. constructor; [|done]. rewrite Hto. done.
    + exists auto2, (conflict :: conflicts2). rewrite <- !app_assoc. simpl.
      split; [done|]. split; [done|]. split.
      { rewrite <- Hperm, Htarget. by rewrite Permutation_middle. }
      split; [done|]. constructor; [|done]. simpl. rewrite Htarget.
      split; [done|]. split; [done|]. split; [done|].
      destruct (tree_lookup targetPath (fs_root w)).
      * destruct Hcands as (kept_one & -> & ? & ? & _). by exists kept_one, list_.
      * by rewrite Hcands.
Qed.

Context (findSkillDirs : path → M (list path)) (parseSkillFile : path → M string).
Context (HfindSkillDirs : ∀ p, preserves same_root (findSkillDirs p)).
Context (HparseSkillFile : ∀ p, preserves same_root (parseSkillFile p)).

Lemma scanMigration_inv opts w plan w' :
  ResolvedRoots.canonicalRoot (resolveRoots opts w) = canonicalRoot →
  scanMigration findSkillDirs parseSkillFile opts w = (Ok plan, w') →
  ∃ m w1, scanned canonicalRoot m ∧ fs_root w1 = fs_root w
    ∧ foldM (classify_target canonicalRoot) ([], []) m w1
      = (Ok (MigrationPlan.auto plan, MigrationPlan.conflicts plan), w')
    ∧ MigrationPlan.canonicalRoot plan = canonicalRoot.
Proof.
  intros Hcanon H. unfold scanMigration, gets in H. unfold bind at 1 in H.
  rewrite Hcanon in H.
  apply bind_inv_ok in H as (m1 & w1 & H1 & H).
  apply bind_inv_ok in H as (m2 & w2 & H2 & H).
  apply bind_inv_ok in H as (m3 & w3 & H3 & H).
  apply bind_inv_ok in H as (m4 & w4 & H4 & H).
  apply bind_inv_ok in H as (m5 & w5 & H5 & H).
  apply bind_inv_ok in H as ([auto conflicts] & w6 & H6 & H). injection H as <- <-.
  exists m5, w5. simpl.
  assert (scanned canonicalRoot []) as Hm0 by (split; [split|]; constructor).
  assert (scanned canonicalRoot m1) as Hm1.
  { eapply (foldM_invariant (scanned canonicalRoot)); [|exact Hm0|exact H1].
    intros ?????? Hm Hstep. by eapply scanned_scan_files. }
  assert (scanned canonicalRoot m2) as Hm2.
  { eapply (foldM_invariant (scanned canonicalRoot)); [|exact Hm1|exact H2].
    intros ?????? Hm Hstep. by eapply scanned_scan_files. }
  assert (scanned canonicalRoot m3) as Hm3.
  { eapply (foldM_invariant (scanned canonicalRoot)); [|exact Hm2|exact H3].
    intros ?????? Hm Hstep. by eapply scanned_scan_skills. }
  assert (scanned canonicalRoot m4) as Hm4.
  { eapply (foldM_invariant (scanned canonicalRoot)); [|exact Hm3|exact H4].
    intros ?????? Hm Hstep. by eapply scanned_scan_file. }
  assert (scanned canonicalRoot m5) as Hm5.
  { eapply (foldM_invariant (scanned canonicalRoot)); [|exact Hm4|exact H5].
    intros ?????? Hm Hstep. by eapply scanned_scan_file. }
  split; [done|]. split; [|done].
  assert (same_root w w1) as R1.
  { eapply (preserves_foldM same_root); [|exact H1].
    intros ??. by apply (looking_scan_files same_root). }
  assert (same_root w1 w2) as R2.
  { eapply (preserves_foldM same_root); [|exact H2].
    intros ??. by apply (looking_scan_files same_root). }
  assert (same_root w2 w3) as R3.
  { eapply (preserves_foldM same_root); [|exact H3].
    intros ??. by apply (looking_scan_skills same_root). }
  assert (same_root w3 w4) as R4.
  { eapply (preserves_foldM same_root); [|exact H4].
    intros ??. by apply (looking_scan_file same_root). }
  assert (same_root w4 w5) as R5.
  { eapply (preserves_foldM same_root); [|exact H5].
    intros ??. by apply (looking_scan_file same_root). }
  unfold same_root in *. congruence.
Qed.

(** X22. The plan [scanMigration] returns sorts every target once, as
    long as the two functions of [skills.ts] leave the file system as it
    is.  No target is listed twice, among the automatic candidates and
    the conflicts together, and every target lies under the canonical
    root.  An automatic candidate is the only offer for a target that
    does not exist yet: it copies from a source.  A conflict has at
    least two candidates, all for its target: when the target exists,
    "keep existing" first and then the offers to copy; when it does not,
    two or more offers to copy. *)
Theorem scanMigration_sorts_targets opts w plan w' :
  ResolvedRoots.canonicalRoot (resolveRoots opts w) = canonicalRoot →
  scanMigration findSkillDirs parseSkillFile opts w = (Ok plan, w') →
  MigrationPlan.canonicalRoot plan = canonicalRoot
  ∧ NoDup ((MigrationCandidate.targetPath <$> MigrationPlan.auto plan)
           ++ (MigrationConflict.targetPath <$> MigrationPlan.conflicts plan))
  ∧ Forall (λ c, copies_to (MigrationCandidate.targetPath c) c
                 ∧ canonicalRoot `prefix_of` MigrationCandidate.targetPath c
                 ∧ tree_lookup (MigrationCandidate.targetPath c) (fs_root w) = None)
      (MigrationPlan.auto plan)
  ∧ Forall (λ cf,
      let targetPath := MigrationConflict.targetPath cf in
      canonicalRoot `prefix_of` targetPath
      ∧ MigrationConflict.label cf = conflictLabel targetPath canonicalRoot
      ∧ (2 ≤ length (MigrationConflict.candidates cf))%nat
      ∧ match tree_lookup targetPath (fs_root w) with
        | Some _ =>
          ∃ kept_one offered,
            MigrationConflict.candidates cf = kept_one :: offered
            ∧ MigrationCandidate.action kept_one = keep
            ∧ MigrationCandidate.targetPath kept_one = targetPath
            ∧ offered ≠ [] ∧ Forall (copies_to targetPath) offered
        | None => Forall (copies_to targetPath) (MigrationConflict.candidates cf)
        end) (MigrationPlan.conflicts plan).
Proof.
  intros Hcanon (m & w1 & Hm & Hroot & Hloop & Hplan)%scanMigration_inv; [|done].
  split; [done|].
  apply classify_all in Hloop as (auto1 & conflicts1 & -> & -> & Hperm & Hauto & Hconf);
    [|done]. simpl. rewrite Hroot in Hauto, Hconf.
  split; [|done]. rewrite Hperm. apply Hm.
Qed.
End scan_facts.

(** The stand-ins of the examples only look. *)
Lemma subdirs_looking (R : World → World → Prop) `{!PreOrder R} :
  (∀ c w, looks c → R w (log c w)) → ∀ p, preserves R (subdirs p).
Proof.
  intros Hlog p. apply preserves_catch; [done| |intros ?; by apply preserves_ret].
  apply preserves_bind; [done|by apply looking_readdir|intros ?; by apply preserves_ret].
Qed.

Lemma name_in_file_looking (R : World → World → Prop) `{!PreOrder R} :
  (∀ c w, looks c → R w (log c w)) → ∀ p, preserves R (name_in_file p).
Proof.
  intros Hlog p. apply preserves_bind; [done| |].
  - apply looking_syscall; [done..|]. intros w r w' H.
    destruct (tree_lookup p (fs_root w)) as [[| |]|]; by injection H.
  - intros [text|m]; [by apply preserves_ret|by apply preserves_throw].
Qed.


(** ** The label of a conflict *)

Lemma string_app_assoc (s t u : string) : ((s ++ t) ++ u)%string = (s ++ (t ++ u))%string.
Proof.
  induction s as [|c s IH]; [done|].
  change (String c ((s ++ t) ++ u)%string = String c (s ++ (t ++ u))%string). by rewrite IH.
Qed.

Lemma string_prefix_app (s t : string) : String.prefix s (s ++ t)%string = true.
Proof.
  induction s as [|c s IH]; [by destruct t|].
  change (String.prefix (String c s) (String c (s ++ t)%string) = true). simpl.
  by destruct (ascii_dec c c).
Qed.

Lemma path_string_app root rest :
  root ≠ [] → rest ≠ [] → path_string (root ++ rest) = (path_string root ++ path_string rest)%string.
Proof.
  intros Hroot Hrest. destruct root as [|s root]; [done|]. clear Hroot. revert s.
  induction root as [|t root IH]; intros s.
  - change ([s] ++ rest) with (s :: rest). rewrite !path_string_cons.
    destruct rest as [|r rest]; [done|].
    change ("/" ++ ?x)%string with (String "/" x).
    change (String "/" ?x ++ ?y)%string with (String "/" (x ++ y)%string). f_equal.
    by rewrite string_app_assoc.
  - change ((s :: t :: root) ++ rest) with (s :: ((t :: root) ++ rest)).
    rewrite (path_string_cons s ((t :: root) ++ rest)), (path_string_cons s (t :: root)).
    change ((t :: root) ++ rest) with (t :: (root ++ rest)) at 1.
    change (t :: (root ++ rest)) with ((t :: root) ++ rest). rewrite IH.
    change ("/" ++ ?x)%string with (String "/" x).
    change (String "/" ?x ++ ?y)%string with (String "/" (x ++ y)%string). f_equal.
    by rewrite string_app_assoc.
Qed.

Lemma shared_length_app root rest : shared_length root (root ++ rest) = length root.
Proof.
  induction root as [|s root IH]; [by destruct rest|]. simpl.
  by rewrite bool_decide_eq_true_2, IH.
Qed.

Lemma path_relative_under root rest : path_relative root (root ++ rest) = String.concat "/" rest.
Proof.
  unfold path_relative. rewrite shared_length_app, Nat.sub_diag, drop_app_length. done.
Qed.

(** X23. The label of a conflict whose target lies under the canonical
    root is the path of the target relative to the root, its segments
    joined by [/]; for the root itself it is the last segment of the
    root. *)
Theorem conflictLabel_is_relative root rest :
  plain rest →
  conflictLabel (root ++ rest) root
  = match rest with
    | [] => path_basename root
    | _ :: _ => String.concat "/" rest
    end.
Proof.
  intros Hplain. unfold conflictLabel.
  assert (String.prefix (path_string root) (path_string (root ++ rest)) = true) as ->.
  { destruct rest as [|r rest]; [rewrite app_nil_r|].
    - rewrite <- (string_app_empty (path_string root)) at 2. apply string_prefix_app.
    - destruct root as [|s root].
      + simpl app. rewrite path_string_cons. unfold path_string at 1.
        change ("/" ++ ?x)%string with (String "/" x). simpl.
        by destruct (_ +:+ _).
      + rewrite path_string_app by done. apply string_prefix_app. }
  rewrite path_relative_under. destruct rest as [|r rest].
  - by rewrite app_nil_r.
  - rewrite bool_decide_eq_false_2; [done|].
    apply Forall_cons in Hplain as [(Hr & _)%plain_segment_spec _].
    destruct r as [|c r]; [done|]. by destruct rest.
Qed.

Lemma conflictLabel_is_relative_witness :
  conflictLabel ["home"; "u"; ".agents"; "commands"; "hello.md"] ["home"; "u"; ".agents"]
  = "commands/hello.md".
Proof.
  apply (conflictLabel_is_relative ["home"; "u"; ".agents"] ["commands"; "hello.md"]).
  by repeat constructor.
Defined.

(** ** The facts at work *)




Lemma apply_without_backupDir_witness :
  let out := applyLinkPlan plan_relink (Some (ApplyOptions.mk (Some true) None))
               (world_of home_stale_link) in
  fst out = Ok (ApplyResult.mk 1 0 0 None 0)
  ∧ calls_in (λ c, ¬ moves_or_copies c) (world_of home_stale_link) (snd out)
  ∧ tree_lookup claude_commands home_stale_link = Some (Symlink "/old/commands")
  ∧ tree_lookup claude_commands (fs_root (snd out)) = Some (Symlink "/home/u/.agents/commands").
Proof.
  intros out. split; [vm_compute; reflexivity|].
  destruct (apply_without_backupDir plan_relink (Some (ApplyOptions.mk (Some true) None))
              (world_of home_stale_link) (fst out) (snd out)) as [Hcalls _].
  - reflexivity.
  - vm_compute. reflexivity.
  - split; [exact Hcalls|]. split; vm_compute; reflexivity.
Defined.

Lemma getLinkStatus_only_looks_witness :
  let opts := MappingOptions.mk global None None (Some [claude; codex]) in
  let out := getLinkStatus opts (world_of home_stale_link) in
  (LinkStatus.name <$>
     default [] match fst out with Ok sts => Some sts | Throw _ => None end)
  = ["claude-md"; "agents-md"; "commands"; "hooks"; "skills"]
  ∧ fs_root (snd out) = home_stale_link.
Proof.
  intros opts out. split; [vm_compute; reflexivity|].
  destruct (getLinkStatus_only_looks opts (world_of home_stale_link) (fst out) (snd out))
    as [Hroot _].
  - vm_compute. reflexivity.
  - exact Hroot.
Defined.

Lemma getMappings_targets_selected_witness :
  let opts := MappingOptions.mk project (Some ["work"; "proj"]) None (Some [cursor; opencode]) in
  let out := getMappings opts (world_of home_codex) in
  (Mapping.targets <$>
     default [] match fst out with Ok ms => Some ms | Throw _ => None end)
  = [[["work"; "proj"; ".opencode"; "commands"]; ["work"; "proj"; ".cursor"; "commands"]];
     [];
     [["work"; "proj"; ".opencode"; "skills"]; ["work"; "proj"; ".cursor"; "skills"]]].
Proof.
  intros opts out.
  pose proof (getMappings_targets_selected opts (world_of home_codex)
                (default [] match fst out with Ok ms => Some ms | Throw _ => None end)
                (snd out)) as H.
  assert (getMappings opts (world_of home_codex)
          = (Ok (default [] match fst out with Ok ms => Some ms | Throw _ => None end), snd out))
    as Hrun by (vm_compute; reflexivity).
  specialize (H Hrun). clear H. vm_compute. reflexivity.
Defined.

Lemma getMappings_targets_distinct_witness :
  let opts := MappingOptions.mk global None None None in
  let out := getMappings opts (world_of home_codex) in
  length (concat (Mapping.targets <$>
            default [] match fst out with Ok ms => Some ms | Throw _ => None end)) = 19
  ∧ NoDup (concat (Mapping.targets <$>
            default [] match fst out with Ok ms => Some ms | Throw _ => None end)).
Proof.
  intros opts out. split; [vm_compute; reflexivity|].
  apply (getMappings_targets_distinct opts (world_of home_codex) _ (snd out)).
  vm_compute. reflexivity.
Defined.

Lemma preflight_never_touches_witness :
  let out := preflightBackup demo_preflight (world_of home_stale_link) in
  fst out = Ok 1
  ∧ kept home_stale_link (fs_root (snd out))
  ∧ tree_lookup claude_commands (fs_root (snd out)) = Some (Symlink "/old/commands").
Proof.
  intros out. split; [vm_compute; reflexivity|].
  destruct (preflight_never_touches demo_preflight (world_of home_stale_link)
              (fst out) (snd out)) as [Hkept _].
  - vm_compute. reflexivity.
  - split; [exact Hkept|]. vm_compute. reflexivity.
Defined.

Lemma no_backup_needed_means_nothing_lost_witness :
  let task := TLink agents_commands claude_commands SDir false in
  let w := world_of home_stale_link in
  fst (needsLinkBackup task false w) = Ok false
  ∧ kept home_stale_link (fs_root (snd (apply_task false None (0, 0, 0, 0) task w))).
Proof.
  intros task w. split; [vm_compute; reflexivity|].
  apply (no_backup_needed_means_nothing_lost task false w
           (snd (needsLinkBackup task false w))
           ltac:(vm_compute; reflexivity)
           None (0, 0, 0, 0) (fst (apply_task false None (0, 0, 0, 0) task w))).
  vm_compute. reflexivity.
Defined.

Lemma copyCandidate_is_covered_witness :
  let session := snd (createBackupSession
                   (SessionOptions.mk ["home"; "u"; ".agents"] global "migrate" (Some "t0"))
                   (world_of home_migrate)) in
  let out := copyCandidate agents_candidate demo_session session in
  (BackupSession.entries ∘ snd <$> match fst out with Ok r => Some r | Throw _ => None end)
  = Some [BackupEntry.mk ["home"; "u"; ".agents"; "AGENTS.md"]
            (Some ["home"; "u"; ".agents"; "backup"; "t0"; "home"; "u"; ".agents"; "AGENTS.md"])
            KFile ABackup]
  ∧ tree_lookup ["home"; "u"; ".agents"; "AGENTS.md"] (fs_root (snd out))
    = Some (File (Utf8 "# claude"))
  ∧ tree_lookup ["home"; "u"; ".agents"; "backup"; "t0"; "home"; "u"; ".agents"; "AGENTS.md"]
      (fs_root (snd out))
    = Some (File (Utf8 "# shared")).
Proof.
  intros session out.
  pose proof (copyCandidate_is_covered agents_candidate demo_session session true
    (default demo_session (snd <$> match fst out with Ok r => Some r | Throw _ => None end))
    (snd out)) as H.
  assert (copyCandidate agents_candidate demo_session session
          = (Ok (true, default demo_session
                         (snd <$> match fst out with Ok r => Some r | Throw _ => None end)),
             snd out)) as Hrun by (vm_compute; reflexivity).
  specialize (H Hrun). clear H. repeat split; vm_compute; reflexivity.
Defined.

Lemma applyMigration_counts_witness :
  let opts := MigrationOptions.mk undo_global (Some demo_session) None in
  let w := snd (ensureDir (BackupSession.dir demo_session) (world_of home_migrate)) in
  let out := applyMigration fixed_plan demo_migration choose_claude opts w in
  (fst <$> match fst out with Ok r => Some r | Throw _ => None end)
  = Some (MigrationResult.mk 2 0 ["home"; "u"; ".agents"; "backup"; "t0"])
  ∧ fst (applyMigration fixed_plan demo_migration choose_claude
           (MigrationOptions.mk undo_global None None) w)
    = Throw (JsError "Backup session required.").
Proof.
  intros opts w out.
  pose proof (applyMigration_counts fixed_plan demo_migration choose_claude opts w
                (fst out) (snd out) ltac:(vm_compute; reflexivity)) as H1.
  pose proof (applyMigration_counts fixed_plan demo_migration choose_claude
                (MigrationOptions.mk undo_global None None) w _ _ eq_refl) as [H2 _].
  split; [clear H1 H2; vm_compute; reflexivity|exact H2].
Defined.

Lemma applyLinkPlan_counts_witness :
  let out := applyLinkPlan plan_conflict (Some (ApplyOptions.mk (Some true) None))
               (world_of home_codex) in
  fst out = Ok (ApplyResult.mk 1 0 1 None 0).
Proof.
  intros out.
  pose proof (applyLinkPlan_counts plan_conflict (Some (ApplyOptions.mk (Some true) None))
                (world_of home_codex) (ApplyResult.mk 1 0 1 None 0) (snd out)
                ltac:(vm_compute; reflexivity)) as H.
  clear H. vm_compute. reflexivity.
Defined.

Lemma undo_is_recorded_witness :
  let out := undoLastChange undo_global world_after_operation in
  let r := default (RestoreResult.mk 0 0 0 0 [] [])
             match fst out with Ok r => Some r | Throw _ => None end in
  fst out = Ok r
  ∧ RestoreResult.backupDir r = ["home"; "u"; ".agents"; "backup"; "2026-01-01T10-00-05-000Z"]
  ∧ (BackupManifest.operation <$>
       default None match fst (loadBackupManifest (RestoreResult.backupDir r) (snd out)) with
                    | Ok m => Some m
                    | Throw _ => None
                    end) = Some "undo".
Proof.
  intros out r. split; [vm_compute; reflexivity|]. split; [vm_compute; reflexivity|].
  destruct (undo_is_recorded undo_global world_after_operation r (snd out))
    as (undone & w1 & m & w2 & _ & Hload & Hop & _).
  - vm_compute. reflexivity.
  - intros c. vm_compute. reflexivity.
  - rewrite Hload. simpl. by rewrite Hop.
Defined.

Lemma scanMigration_only_looks_witness :
  let out := scanMigration subdirs name_in_file undo_global (world_of home_scan) in
  fs_root (snd out) = home_scan ∧ calls_in looks (world_of home_scan) (snd out).
Proof.
  intros out.
  apply (scanMigration_only_looks subdirs name_in_file undo_global
           (world_of home_scan) (fst out) (snd out)).
  - intros p. split.
    + by apply (subdirs_looking same_root).
    + apply (subdirs_looking (calls_in looks)). intros ???. by apply calls_in_log.
  - intros p. split.
    + by apply (name_in_file_looking same_root).
    + apply (name_in_file_looking (calls_in looks)). intros ???. by apply calls_in_log.
  - vm_compute. reflexivity.
Defined.

Lemma scanMigration_sorts_targets_witness :
  let out := scanMigration subdirs name_in_file undo_global (world_of home_scan) in
  let plan := default (MigrationPlan.mk [] [] [])
                match fst out with Ok plan => Some plan | Throw _ => None end in
  MigrationCandidate.targetPath <$> MigrationPlan.auto plan
  = [["home"; "u"; ".agents"; "skills"; "review"]]
  ∧ MigrationConflict.targetPath <$> MigrationPlan.conflicts plan
    = [["home"; "u"; ".agents"; "commands"; "hello.md"]; ["home"; "u"; ".agents"; "AGENTS.md"]]
  ∧ NoDup ((MigrationCandidate.targetPath <$> MigrationPlan.auto plan)
           ++ (MigrationConflict.targetPath <$> MigrationPlan.conflicts plan)).
Proof.
  intros out plan. split; [vm_compute; reflexivity|]. split; [vm_compute; reflexivity|].
  destruct (scanMigration_sorts_targets ["home"; "u"; ".agents"] subdirs name_in_file
              (subdirs_looking same_root (λ _ _ _, eq_refl))
              (name_in_file_looking same_root (λ _ _ _, eq_refl))
              undo_global (world_of home_scan) plan (snd out)) as (_ & Hnodup & _).
  - vm_compute. reflexivity.
  - vm_compute. reflexivity.
  - exact Hnodup.
Defined.
